(** * RhizoVision Explorer: the command-line front end ([rv])

    A shallow embedding of the console program of RhizoVision Explorer
    (file [mv.cpp], built with [RVE_CLI] and without [BUILD_GUI]) together
    with [feature_config.h]:

    - [parseCommandLine] and its helpers [trim_ws],
      [is_positive_number_like], [append_checked_positive_ascending] and
      [consume_drange_token];
    - [collectImageFiles], [analyzeImage], [writeCsvHeader],
      [writeResultsToCsv] and [main];
    - [printUsage], [getEstimatedTimeRemaining], [printRemainingTime] and
      [printElapsedTime].

    The C and C++ run-time library, [std::filesystem], OpenCV and the
    feature-extraction pipeline ([feature_extractor], whose source is a
    separate translation unit) are an environment [Env] the program runs
    in.  A reference environment over a small in-memory directory tree is
    given in [Module Reference]; it is what the closed examples run on. *)

From Stdlib Require Import ZArith List String Ascii Bool Lia DecimalString.
From Stdlib Require Import DecimalNat.
From Stdlib Require Import SpecFloat.
From stdpp Require Import base gmap strings.
Import ListNotations.

Local Open Scope list_scope.
Local Open Scope string_scope.

(** ** Characters and strings *)

Module Str.

Definition tab : ascii := ascii_of_nat 9.
Definition lf : ascii := ascii_of_nat 10.
Definition cr : ascii := ascii_of_nat 13.
Definition dquote : ascii := ascii_of_nat 34.
Definition backslash : ascii := ascii_of_nat 92.

(** ["\n"] and the double quote as one-character strings. *)
Definition nl : string := String lf EmptyString.
Definition quote : string := String dquote EmptyString.

Definition is_digit (c : ascii) : bool :=
  let n := nat_of_ascii c in (48 <=? n)%nat && (n <=? 57)%nat.

Definition digit_value (c : ascii) : Z := Z.of_nat (nat_of_ascii c) - 48.

(** [::tolower] in the "C" locale. *)
Definition tolower (c : ascii) : ascii :=
  let n := nat_of_ascii c in
  if (65 <=? n)%nat && (n <=? 90)%nat then ascii_of_nat (n + 32) else c.

Fixpoint map (f : ascii -> ascii) (s : string) : string :=
  match s with
  | EmptyString => EmptyString
  | String c s' => String (f c) (map f s')
  end.

(** [s.find(c) != std::string::npos] *)
Fixpoint contains (c : ascii) (s : string) : bool :=
  match s with
  | EmptyString => false
  | String d s' => Ascii.eqb c d || contains c s'
  end.

(** [s.find_first_not_of(set)]; [None] is [npos]. *)
Fixpoint find_first_not_of (set : string) (s : string) : option nat :=
  match s with
  | EmptyString => None
  | String c s' =>
      if contains c set then option_map S (find_first_not_of set s')
      else Some 0%nat
  end.

(** [s.find_last_not_of(set)]; [None] is [npos]. *)
Fixpoint find_last_not_of (set : string) (s : string) : option nat :=
  match s with
  | EmptyString => None
  | String c s' =>
      match find_last_not_of set s' with
      | Some k => Some (S k)
      | None => if contains c set then None else Some 0%nat
      end
  end.

(** [s[0]], which is the terminating ['\0'] on the empty string. *)
Definition head (s : string) : ascii :=
  match s with
  | EmptyString => zero
  | String c _ => c
  end.

Definition is_empty (s : string) : bool :=
  match s with
  | EmptyString => true
  | String _ _ => false
  end.

(** [std::getline(ss, piece, sep)] called until it fails: the pieces
    between separators; a trailing separator yields no last empty piece
    and the empty string yields no piece. *)
Fixpoint split_from (sep : ascii) (acc : string) (s : string) : list string :=
  match s with
  | EmptyString => if is_empty acc then [] else [acc]
  | String c s' =>
      if Ascii.eqb c sep then acc :: split_from sep EmptyString s'
      else split_from sep (acc ++ String c EmptyString) s'
  end.

Definition getlines (sep : ascii) (s : string) : list string :=
  split_from sep EmptyString s.

Fixpoint skip_digits (s : string) : string :=
  match s with
  | EmptyString => EmptyString
  | String c s' => if is_digit c then skip_digits s' else s
  end.

(** The value of the leading run of decimal digits, left to right, and
    how many digits there were. *)
Fixpoint read_digits (acc : Z) (n : Z) (s : string) : Z * Z * string :=
  match s with
  | EmptyString => (acc, n, EmptyString)
  | String c s' =>
      if is_digit c then read_digits (10 * acc + digit_value c) (n + 1) s'
      else (acc, n, s)
  end.

(** [true] when [p] is a prefix of [s]. *)
Fixpoint starts_with (p s : string) : bool :=
  match p, s with
  | EmptyString, _ => true
  | String a p', String b s' => Ascii.eqb a b && starts_with p' s'
  | String _ _, EmptyString => false
  end.

(** Decimal rendering of a non-negative [int] by [operator<<]. *)
Definition of_nat (n : nat) : string :=
  NilEmpty.string_of_uint (Nat.to_uint n).

Definition concat (l : list string) : string :=
  fold_right String.append EmptyString l.

(** Decimal rendering of an [int] by [operator<<]. *)
Definition of_Z (z : Z) : string :=
  match z with
  | Z0 => "0"
  | Zpos p => NilEmpty.string_of_uint (Pos.to_uint p)
  | Zneg p => String "-" (NilEmpty.string_of_uint (Pos.to_uint p))
  end.

End Str.

(** ** [double]

    IEEE 754 binary64 values, as the standard library's specification
    floats with [prec = 53] and [emax = 1024]. *)

Module Double.

Definition double : Type := spec_float.

Definition prec : Z := 53.
Definition emax : Z := 1024.

Definition zero : double := S754_zero false.
Definition of_Z (z : Z) : double := binary_normalize prec emax z 0 false.
Definition one : double := of_Z 1.

(** [a < b], [a <= b], [a == b]; all false on NaN. *)
Definition ltb (a b : double) : bool := SFltb a b.
Definition leb (a b : double) : bool := SFleb a b.
Definition eqb (a b : double) : bool := SFeqb a b.
(** [a > b] and [a >= b] *)
Definition gtb (a b : double) : bool := SFltb b a.
Definition geb (a b : double) : bool := SFleb b a.

Definition isnan (a : double) : bool :=
  match a with S754_nan => true | _ => false end.
Definition isinf (a : double) : bool :=
  match a with S754_infinity _ => true | _ => false end.

Definition abs (a : double) : double := SFabs a.
Definition add (a b : double) : double := SFadd prec emax a b.
Definition mul (a b : double) : double := SFmul prec emax a b.
Definition div (a b : double) : double := SFdiv prec emax a b.

(** Conversion of a [double] to [int] (truncation towards zero).  The
    conversion of a NaN or an infinity is undefined in C++ and is given
    as [0] here; for a value outside [int], also undefined, the integer
    part is kept. *)
Definition to_int (a : double) : Z :=
  match a with
  | S754_finite s m e =>
      let v := match e with
               | Z0 => Zpos m
               | Zpos p => Z.shiftl (Zpos m) (Zpos p)
               | Zneg p => Z.shiftr (Zpos m) (Zpos p)
               end in
      (if s then - v else v)%Z
  | _ => 0
  end.

(** The binary64 value nearest to [m * 10 ^ e] (ties to even), for
    [0 <= m]. *)
Definition of_decimal (m e : Z) : double :=
  match e with
  | Zneg p =>
      match m with
      | Z0 => zero
      | _ =>
          let '(q, e', l) := SFdiv_core_binary prec emax m 0%Z (10 ^ Zpos p)%Z 0%Z in
          binary_round_aux prec emax false q e' l
      end
  | _ => binary_normalize prec emax (m * 10 ^ e)%Z 0%Z false
  end.

(** Smallest positive normal binary64 number is [2 ^ (-1022)]: a finite
    value [m * 2 ^ e] with a canonical mantissa is below it exactly
    when [e] is the least exponent and [m] has fewer than 53 bits. *)
Definition is_subnormal (a : double) : bool :=
  match a with
  | S754_finite _ m e => (Zpos (digits2_pos m) <? prec)%Z
  | _ => false
  end.

(** [is_sorted(first, last)] with [operator<]: no element is smaller
    than its predecessor. *)
Fixpoint is_sorted (l : list double) : bool :=
  match l with
  | [] => true
  | a :: l' =>
      match l' with
      | [] => true
      | b :: _ => negb (ltb b a) && is_sorted l'
      end
  end.

End Double.

Abbreviation double := Double.double.

(** ** Images

    A [cv::Mat], as far as the front end looks at one: its dimensions,
    its number of channels and its samples. *)

Record Mat := {
  rows : Z;
  cols : Z;
  channels : Z;
  samples : list Z
}.

(** A default-constructed [cv::Mat]. *)
Definition Mat_default : Mat :=
  {| rows := 0; cols := 0; channels := 1; samples := [] |}.

(** [m.empty()] *)
Definition empty (m : Mat) : bool :=
  match samples m with
  | [] => true
  | _ :: _ => (rows m * cols m =? 0)%Z
  end.

(** ** [feature_config] ([feature_config.h])

    The fields of the structure that the console program reads or writes,
    under their names in the header.  ([rtdpoints], [ui] and the fields of
    the interactive program that the console program never touches are
    left out.) *)

Record feature_config := {
  input : Mat;
  seg : Mat;
  processed : Mat;
  features : list double;
  rootlengthhist : list double;
  roifeatures : list (list double);
  inputPath : string;
  imagefilename : string;
  outputPath : string;
  outputFile : string;
  recursive : bool;
  verbose : bool;
  showHelp : bool;
  showHelpMain : bool;
  showVersion : bool;
  showLicense : bool;
  showCredits : bool;
  noappend : bool;
  consolemode : bool;
  rotation : Z;
  roottype : Z;
  threshold : Z;
  invertimage : bool;
  enablesmooththresh : bool;
  smooththresh : double;
  keepLargest : bool;
  filterbknoise : bool;
  filterfgnoise : bool;
  maxcompsizebk : double;
  maxcompsizefg : double;
  enableRootPruning : bool;
  rootPruningThreshold : Z;
  pixelconv : bool;
  conversion : double;
  pixelspermm : Z;
  dranges : list double;
  displayOutputIndex : Z;
  showConvexHull : bool;
  showHoles : bool;
  showDistMap : bool;
  showMedialAxis : bool;
  medialaxiswidth : Z;
  showMedialAxisDiameter : bool;
  showContours : bool;
  contourwidth : Z;
  batchmode : bool;
  savesegmented : bool;
  saveprocessed : bool;
  segsuffix : string;
  prosuffix : string;
  featurecsvfile : string;
  metadatacsvfile : string;
  abortprocess : bool;
  imagename : string
}.

(** The member initialisers of the structure. *)
Definition feature_config_default : feature_config := {|
  input := Mat_default;
  seg := Mat_default;
  processed := Mat_default;
  features := [];
  rootlengthhist := [];
  roifeatures := [];
  inputPath := "";
  imagefilename := "";
  outputPath := "";
  outputFile := "features.csv";
  recursive := false;
  verbose := false;
  showHelp := false;
  showHelpMain := false;
  showVersion := false;
  showLicense := false;
  showCredits := false;
  noappend := false;
  consolemode := false;
  rotation := 0;
  roottype := 1;
  threshold := 200;
  invertimage := false;
  enablesmooththresh := false;
  smooththresh := Double.of_Z 2;
  keepLargest := true;
  filterbknoise := false;
  filterfgnoise := false;
  maxcompsizebk := Double.one;
  maxcompsizefg := Double.one;
  enableRootPruning := false;
  rootPruningThreshold := 1;
  pixelconv := false;
  conversion := Double.one;
  pixelspermm := 0;
  dranges := [Double.of_Z 2; Double.of_Z 5];
  displayOutputIndex := 0;
  showConvexHull := true;
  showHoles := true;
  showDistMap := false;
  showMedialAxis := true;
  medialaxiswidth := 3;
  showMedialAxisDiameter := true;
  showContours := true;
  contourwidth := 1;
  batchmode := false;
  savesegmented := false;
  saveprocessed := false;
  segsuffix := "";
  prosuffix := "";
  featurecsvfile := "features.csv";
  metadatacsvfile := "metadata.csv";
  abortprocess := false;
  imagename := ""
|}.

(** *** Assignment to a field

    [c <| f := v |>] is [c] after [c.f = v].  The setter of a projection
    is read off the eta-expansion of the record. *)

Class Setter {R T : Type} (proj : R -> T) : Type := put : T -> R -> R.
Arguments put {R T} proj {Setter} _ _ /.

Notation "r <| p := v |>" := (put p v r)
  (at level 1, left associativity, p at level 9, v at level 200,
   format "r  <| p  :=  v |>").

Ltac setter eta proj :=
  let v := fresh "v" in
  let r := fresh "r" in
  intros v r;
  let body := eval cbv beta delta [eta] in (eta r) in
  match eval pattern (proj r) in body with
  | ?f _ => let t := eval cbv beta in (f v) in exact t
  end.

Definition feature_config_eta (c : feature_config) : feature_config :=
  Build_feature_config
    (input c) (seg c) (processed c) (features c) (rootlengthhist c)
    (roifeatures c) (inputPath c) (imagefilename c) (outputPath c)
    (outputFile c) (recursive c) (verbose c) (showHelp c) (showHelpMain c)
    (showVersion c) (showLicense c) (showCredits c) (noappend c)
    (consolemode c) (rotation c) (roottype c) (threshold c) (invertimage c)
    (enablesmooththresh c) (smooththresh c) (keepLargest c)
    (filterbknoise c) (filterfgnoise c) (maxcompsizebk c) (maxcompsizefg c)
    (enableRootPruning c) (rootPruningThreshold c) (pixelconv c)
    (conversion c) (pixelspermm c) (dranges c) (displayOutputIndex c)
    (showConvexHull c) (showHoles c) (showDistMap c) (showMedialAxis c)
    (medialaxiswidth c) (showMedialAxisDiameter c) (showContours c)
    (contourwidth c) (batchmode c) (savesegmented c) (saveprocessed c)
    (segsuffix c) (prosuffix c) (featurecsvfile c) (metadatacsvfile c)
    (abortprocess c) (imagename c).

#[global] Instance set_input : Setter input := ltac:(setter feature_config_eta input).
#[global] Instance set_seg : Setter seg := ltac:(setter feature_config_eta seg).
#[global] Instance set_processed : Setter processed := ltac:(setter feature_config_eta processed).
#[global] Instance set_features : Setter features := ltac:(setter feature_config_eta features).
#[global] Instance set_inputPath : Setter inputPath := ltac:(setter feature_config_eta inputPath).
#[global] Instance set_imagefilename : Setter imagefilename := ltac:(setter feature_config_eta imagefilename).
#[global] Instance set_outputPath : Setter outputPath := ltac:(setter feature_config_eta outputPath).
#[global] Instance set_outputFile : Setter outputFile := ltac:(setter feature_config_eta outputFile).
#[global] Instance set_recursive : Setter recursive := ltac:(setter feature_config_eta recursive).
#[global] Instance set_verbose : Setter verbose := ltac:(setter feature_config_eta verbose).
#[global] Instance set_showHelp : Setter showHelp := ltac:(setter feature_config_eta showHelp).
#[global] Instance set_showHelpMain : Setter showHelpMain := ltac:(setter feature_config_eta showHelpMain).
#[global] Instance set_showVersion : Setter showVersion := ltac:(setter feature_config_eta showVersion).
#[global] Instance set_showLicense : Setter showLicense := ltac:(setter feature_config_eta showLicense).
#[global] Instance set_showCredits : Setter showCredits := ltac:(setter feature_config_eta showCredits).
#[global] Instance set_noappend : Setter noappend := ltac:(setter feature_config_eta noappend).
#[global] Instance set_consolemode : Setter consolemode := ltac:(setter feature_config_eta consolemode).
#[global] Instance set_roottype : Setter roottype := ltac:(setter feature_config_eta roottype).
#[global] Instance set_threshold : Setter threshold := ltac:(setter feature_config_eta threshold).
#[global] Instance set_invertimage : Setter invertimage := ltac:(setter feature_config_eta invertimage).
#[global] Instance set_enablesmooththresh : Setter enablesmooththresh := ltac:(setter feature_config_eta enablesmooththresh).
#[global] Instance set_smooththresh : Setter smooththresh := ltac:(setter feature_config_eta smooththresh).
#[global] Instance set_keepLargest : Setter keepLargest := ltac:(setter feature_config_eta keepLargest).
#[global] Instance set_filterbknoise : Setter filterbknoise := ltac:(setter feature_config_eta filterbknoise).
#[global] Instance set_filterfgnoise : Setter filterfgnoise := ltac:(setter feature_config_eta filterfgnoise).
#[global] Instance set_maxcompsizebk : Setter maxcompsizebk := ltac:(setter feature_config_eta maxcompsizebk).
#[global] Instance set_maxcompsizefg : Setter maxcompsizefg := ltac:(setter feature_config_eta maxcompsizefg).
#[global] Instance set_enableRootPruning : Setter enableRootPruning := ltac:(setter feature_config_eta enableRootPruning).
#[global] Instance set_rootPruningThreshold : Setter rootPruningThreshold := ltac:(setter feature_config_eta rootPruningThreshold).
#[global] Instance set_pixelconv : Setter pixelconv := ltac:(setter feature_config_eta pixelconv).
#[global] Instance set_conversion : Setter conversion := ltac:(setter feature_config_eta conversion).
#[global] Instance set_pixelspermm : Setter pixelspermm := ltac:(setter feature_config_eta pixelspermm).
#[global] Instance set_dranges : Setter dranges := ltac:(setter feature_config_eta dranges).
#[global] Instance set_showConvexHull : Setter showConvexHull := ltac:(setter feature_config_eta showConvexHull).
#[global] Instance set_showHoles : Setter showHoles := ltac:(setter feature_config_eta showHoles).
#[global] Instance set_showDistMap : Setter showDistMap := ltac:(setter feature_config_eta showDistMap).
#[global] Instance set_showMedialAxis : Setter showMedialAxis := ltac:(setter feature_config_eta showMedialAxis).
#[global] Instance set_medialaxiswidth : Setter medialaxiswidth := ltac:(setter feature_config_eta medialaxiswidth).
#[global] Instance set_showMedialAxisDiameter : Setter showMedialAxisDiameter := ltac:(setter feature_config_eta showMedialAxisDiameter).
#[global] Instance set_showContours : Setter showContours := ltac:(setter feature_config_eta showContours).
#[global] Instance set_contourwidth : Setter contourwidth := ltac:(setter feature_config_eta contourwidth).
#[global] Instance set_savesegmented : Setter savesegmented := ltac:(setter feature_config_eta savesegmented).
#[global] Instance set_saveprocessed : Setter saveprocessed := ltac:(setter feature_config_eta saveprocessed).
#[global] Instance set_segsuffix : Setter segsuffix := ltac:(setter feature_config_eta segsuffix).
#[global] Instance set_prosuffix : Setter prosuffix := ltac:(setter feature_config_eta prosuffix).

(** ** The environment

    What the program calls but does not define.  An exception derived
    from [std::exception] is the string its [what()] returns. *)

Record extraction := {
  ex_features : list double;
  ex_seg : Mat;
  ex_processed : Mat
}.

Record Env := {
  (** [<cstdlib>] and [<string>] *)
  atoi : string -> Z;
  atof : string -> double;
  (** [std::stod]; [inl what] when it throws. *)
  stod : string -> string + double;
  to_string : double -> string;
  (** [<cmath>] *)
  log10 : double -> double;
  ceil : double -> double;
  (** [operator<<] on a [double] at a stream precision. *)
  show_double : Z -> double -> string;
  (** [<filesystem>]: queries ... *)
  fs_exists : string -> bool;
  fs_is_directory : string -> bool;
  fs_is_regular_file : string -> bool;
  fs_absolute : string -> string;
  current_path : string;
  (** ... directory iteration: the entries delivered, and the
      [filesystem_error] that ended the iteration if one did ... *)
  directory_iterator : string -> list string * option string;
  recursive_directory_iterator : string -> list string * option string;
  (** ... and the decomposition of a [path]. *)
  parent_path : string -> string;
  has_parent_path : string -> bool;
  is_absolute : string -> bool;
  filename : string -> string;
  stem : string -> string;
  extension : string -> string;
  (** [operator/] on paths *)
  path_append : string -> string -> string;
  (** Whether [std::ofstream::open(p, binary | app)] succeeds. *)
  ofstream_open : string -> bool;
  (** OpenCV *)
  imread : string -> Mat;
  cvtColor_BGR2RGB : Mat -> Mat;
  (** [cv::imwrite]: [Some what] when it throws, and the bytes it
      leaves in the file it was given, [None] when it writes no file. *)
  imwrite : string -> Mat -> option string;
  imwrite_bytes : string -> Mat -> option string;
  (** [feature_extractor(config)]: it reads the configuration and the
      image in [config->input], and either throws or leaves its results in
      [config->features], [config->seg] and [config->processed]. *)
  feature_extractor : feature_config -> string + extraction
}.

(** ** [parseCommandLine]: state *)

(** The configuration under construction, the local variables of
    [parseCommandLine], and the lines sent to [std::cerr] so far. *)
Record parse_state := {
  config : feature_config;
  contours : bool;
  holes : bool;
  convexhull : bool;
  dpi : bool;
  pixels : bool;
  fgsize : bool;
  bgsize : bool;
  smooththreshold : bool;
  prunethresh : bool;
  ssuffix : bool;
  fsuffix : bool;
  pixelFactor : double;
  dpiFactor : double;
  cerr : list string
}.

Definition parse_state_eta (s : parse_state) : parse_state :=
  Build_parse_state
    (config s) (contours s) (holes s) (convexhull s) (dpi s) (pixels s)
    (fgsize s) (bgsize s) (smooththreshold s) (prunethresh s) (ssuffix s)
    (fsuffix s) (pixelFactor s) (dpiFactor s) (cerr s).

#[global] Instance set_config : Setter config := ltac:(setter parse_state_eta config).
#[global] Instance set_contours : Setter contours := ltac:(setter parse_state_eta contours).
#[global] Instance set_holes : Setter holes := ltac:(setter parse_state_eta holes).
#[global] Instance set_convexhull : Setter convexhull := ltac:(setter parse_state_eta convexhull).
#[global] Instance set_dpi : Setter dpi := ltac:(setter parse_state_eta dpi).
#[global] Instance set_pixels : Setter pixels := ltac:(setter parse_state_eta pixels).
#[global] Instance set_fgsize : Setter fgsize := ltac:(setter parse_state_eta fgsize).
#[global] Instance set_bgsize : Setter bgsize := ltac:(setter parse_state_eta bgsize).
#[global] Instance set_smooththreshold : Setter smooththreshold := ltac:(setter parse_state_eta smooththreshold).
#[global] Instance set_prunethresh : Setter prunethresh := ltac:(setter parse_state_eta prunethresh).
#[global] Instance set_ssuffix : Setter ssuffix := ltac:(setter parse_state_eta ssuffix).
#[global] Instance set_fsuffix : Setter fsuffix := ltac:(setter parse_state_eta fsuffix).
#[global] Instance set_pixelFactor : Setter pixelFactor := ltac:(setter parse_state_eta pixelFactor).
#[global] Instance set_dpiFactor : Setter dpiFactor := ltac:(setter parse_state_eta dpiFactor).
#[global] Instance set_cerr : Setter cerr := ltac:(setter parse_state_eta cerr).

(** [s <|| f := v ||>] is [s] after [config.f = v]. *)
Notation "s <|| p := v ||>" := (put config (put p v (config s)) s)
  (at level 1, left associativity, p at level 9, v at level 200,
   format "s  <|| p  :=  v ||>").

(** [std::cerr << msg << std::endl] *)
Definition say (msg : string) (s : parse_state) : parse_state :=
  s <| cerr := (cerr s ++ [msg])%list |>.

(** [std::cerr << msg << std::endl; config.showHelp = true;] *)
Definition complain (msg : string) (s : parse_state) : parse_state :=
  (say msg s) <|| showHelp := true ||>.

(** The state at the head of [parseCommandLine]. *)
Definition parse_state_init : parse_state := {|
  config := feature_config_default
              <| segsuffix := "_seg" |> <| prosuffix := "_features" |>;
  contours := false;
  holes := false;
  convexhull := false;
  dpi := false;
  pixels := false;
  fgsize := false;
  bgsize := false;
  smooththreshold := false;
  prunethresh := false;
  ssuffix := false;
  fsuffix := false;
  pixelFactor := Double.one;
  dpiFactor := Double.one;
  cerr := []
|}.

(** The arms of the [if]/[else if] chain over [arg], in its order. *)
Inductive option_kind :=
| OHelp | OVersion | OLicense | OCredits
| ONoAppend | OOutputPath | OOutput | OMetafile
| ORecursive | OVerbose
| ORootType | OThreshold | OInvert
| OKeepLargest | OBgNoise | OFgNoise | OBgSize | OFgSize
| OSmooth | OSmoothThreshold
| OConvert | OFactorDpi | OFactorPixels
| OPrune | OPruneThreshold | ODranges
| OSegment | OFeature | OSSuffix | OFSuffix
| OConvexHull | OHoles | ODistanceMap | OMedialAxis | OMedialAxisWidth
| OTopology | OContours | OContourWidth
| Positional | Unknown.

Definition classify (arg : string) : option_kind :=
  if (arg =? "-h") || (arg =? "--help") then OHelp
  else if arg =? "--version" then OVersion
  else if arg =? "--license" then OLicense
  else if arg =? "--credits" then OCredits
  else if (arg =? "-na") || (arg =? "--noappend") then ONoAppend
  else if (arg =? "-op") || (arg =? "--output_path") then OOutputPath
  else if (arg =? "-o") || (arg =? "--output") then OOutput
  else if arg =? "--metafile" then OMetafile
  else if (arg =? "-r") || (arg =? "--recursive") then ORecursive
  else if (arg =? "-v") || (arg =? "--verbose") then OVerbose
  else if (arg =? "-rt") || (arg =? "--roottype") then ORootType
  else if (arg =? "-t") || (arg =? "--threshold") then OThreshold
  else if (arg =? "-i") || (arg =? "--invert") then OInvert
  else if (arg =? "-kl") || (arg =? "--keeplargest") then OKeepLargest
  else if arg =? "--bgnoise" then OBgNoise
  else if arg =? "--fgnoise" then OFgNoise
  else if arg =? "--bgsize" then OBgSize
  else if arg =? "--fgsize" then OFgSize
  else if (arg =? "-s") || (arg =? "--smooth") then OSmooth
  else if (arg =? "-st") || (arg =? "--smooththreshold") then OSmoothThreshold
  else if arg =? "--convert" then OConvert
  else if arg =? "--factordpi" then OFactorDpi
  else if arg =? "--factorpixels" then OFactorPixels
  else if arg =? "--prune" then OPrune
  else if (arg =? "-pt") || (arg =? "--prunethreshold") then OPruneThreshold
  else if arg =? "--dranges" then ODranges
  else if arg =? "--segment" then OSegment
  else if arg =? "--feature" then OFeature
  else if arg =? "--ssuffix" then OSSuffix
  else if arg =? "--fsuffix" then OFSuffix
  else if (arg =? "-ch") || (arg =? "--convexhull") then OConvexHull
  else if (arg =? "-ho") || (arg =? "--holes") then OHoles
  else if (arg =? "-dm") || (arg =? "--distancemap") then ODistanceMap
  else if (arg =? "-ma") || (arg =? "--medialaxis") then OMedialAxis
  else if (arg =? "-mw") || (arg =? "--medialaxiswidth") then OMedialAxisWidth
  else if (arg =? "-to") || (arg =? "--topology") then OTopology
  else if (arg =? "-co") || (arg =? "--contours") then OContours
  else if (arg =? "-cw") || (arg =? "--contourwidth") then OContourWidth
  else if negb (Ascii.eqb (Str.head arg) "-") then Positional
  else Unknown.

(** ** [--dranges] tokens *)

(** [" \t\r\n"] *)
Definition ws : string :=
  String " " (String Str.tab (String Str.cr (String Str.lf EmptyString))).

Definition trim_ws (s : string) : string :=
  match Str.find_first_not_of ws s, Str.find_last_not_of ws s with
  | Some a, Some b => substring a (b - a + 1) s
  | _, _ => EmptyString
  end.

(** The tail of the number pattern: an optional exponent ([e] or [E], an
    optional sign, one or more digits), then the end of the string. *)
Definition match_exponent (s : string) : bool :=
  match s with
  | EmptyString => true
  | String c s1 =>
      if Ascii.eqb c "e" || Ascii.eqb c "E" then
        let s2 := match s1 with
                  | String d s' =>
                      if Ascii.eqb d "+" || Ascii.eqb d "-" then s' else s1
                  | EmptyString => s1
                  end in
        Str.is_digit (Str.head s2) && Str.is_empty (Str.skip_digits s2)
      else false
  end.

(** The mantissa of the number pattern: either one or more digits,
    optionally followed by a point and any number of digits, or a point
    followed by one or more digits.  The result is what is left of [s]
    after it, if it matches at the head of [s]. *)
Definition match_mantissa (s : string) : option string :=
  match s with
  | EmptyString => None
  | String c s1 =>
      if Str.is_digit c then
        match Str.skip_digits s1 with
        | String "." r => Some (Str.skip_digits r)
        | r => Some r
        end
      else if Ascii.eqb c "." then
        if Str.is_digit (Str.head s1) then Some (Str.skip_digits s1) else None
      else None
  end.

(** [std::regex_match(s, re)] for the pattern of a positive number: an
    optional [+], a mantissa, an optional exponent, and nothing else. *)
Definition is_positive_number_like (s : string) : bool :=
  let s1 := match s with
            | String "+" s' => s'
            | _ => s
            end in
  match match_mantissa s1 with
  | Some r => match_exponent r
  | None => false
  end.

(** ** Control flow of [parseCommandLine] *)

(** One turn of the [for] loop leaves either the state and the arguments
    still to be read, or, at a [return config] inside the loop, the state
    returned. *)
Inductive step_result :=
| Continue (s : parse_state) (rest : list string)
| Return (s : parse_state).

(** A block after the loop either falls through to the next block or
    ends in [return config]. *)
Inductive flow :=
| Next (s : parse_state)
| Done (s : parse_state).

Definition and_then (f : flow) (k : parse_state -> flow) : flow :=
  match f with
  | Next s => k s
  | Done s => Done s
  end.

Notation "f >>> k" := (and_then f k) (at level 61, left associativity).

Definition returned (f : flow) : parse_state :=
  match f with
  | Next s => s
  | Done s => s
  end.

Section Program.

Variable E : Env.

(** [inl what] is the [std::runtime_error] thrown; [inr out] is the
    vector [out] on return. *)
Definition append_checked_positive_ascending
    (v : double) (out : list double) : string + list double :=
  if negb (Double.gtb v Double.zero) then
    inl ("All --dranges values must be positive (> 0). Got: "
           ++ to_string E v)
  else
    match last out with
    | Some back =>
        if negb (Double.geb v back) then
          inl ("Values for --dranges must be ascending. Got "
                 ++ to_string E v ++ " after " ++ to_string E back)
        else inr out
    | None => inr out
    end.

(** [append_checked_positive_ascending(std::stod(t), out)] inside a
    [try] whose handler stores [ex.what()] in [err]: the vector and [err]
    afterwards ([err] empty when nothing was thrown). *)
Definition checked_append (t : string) (out : list double)
  : list double * string :=
  match stod E t with
  | inl what => (out, what)
  | inr v =>
      match append_checked_positive_ascending v out with
      | inl what => (out, what)
      | inr out' => (out', EmptyString)
      end
  end.

(** The [while (std::getline(ss, piece, ','))] loop of
    [consume_drange_token] over the pieces still to be read. *)
Fixpoint consume_pieces (pieces : list string) (out : list double)
    (saw_any : bool) : bool * list double * string :=
  match pieces with
  | [] => (saw_any, out, EmptyString)
  | piece :: pieces' =>
      let t := trim_ws piece in
      if Str.is_empty t then consume_pieces pieces' out saw_any
      else if negb (is_positive_number_like t) then
        (true, out,
         "Invalid value in --dranges: '" ++ t ++ "' (must be positive number)")
      else
        match stod E t with
        | inl what => (true, out, what)
        | inr v =>
            match append_checked_positive_ascending v out with
            | inl what => (true, out, what)
            | inr out' => consume_pieces pieces' out' true
            end
        end
  end.

(** The result, the vector [out] and the string [err] afterwards. *)
Definition consume_drange_token (raw : string) (out : list double)
  : bool * list double * string :=
  let token := trim_ws raw in
  if Str.is_empty token then (false, out, EmptyString)
  else if Ascii.eqb (Str.head token) "-" then (false, out, EmptyString)
  else if Str.contains "," token then
    consume_pieces (Str.getlines "," token) out false
  else if is_positive_number_like token then
    let '(out', err) := checked_append token out in (true, out', err)
  else (false, out, EmptyString).

(** ** [parseCommandLine]: the loop over [argv] *)

(** An option that takes the next argument: [if (i + 1 < argc)] with
    [argv[++i]], else the complaint. *)
Definition with_value (s : parse_state) (rest : list string)
    (missing : string) (k : string -> parse_state) : step_result :=
  match rest with
  | v :: rest' => Continue (k v) rest'
  | [] => Continue (complain missing s) []
  end.

(** The inner loop of [--dranges] over [argv[j]], [j = i + 1 ...]. *)
Fixpoint dranges_loop (s : parse_state) (rest : list string) : step_result :=
  match rest with
  | [] => Continue s []
  | next :: rest' =>
      if negb (Str.is_empty next) && Ascii.eqb (Str.head next) "-" then
        Continue s rest
      else
        let '(was_drange_token, out, parse_err) :=
          consume_drange_token next (dranges (config s)) in
        let s' := s <|| dranges := out ||> in
        if negb was_drange_token then Continue s' rest
        else if negb (Str.is_empty parse_err) then
          Return (complain ("Error: " ++ parse_err) s')
        else dranges_loop s' rest'
  end.

(** The body of the loop for [arg = argv[i]], with [rest] the arguments
    after it. *)
Definition step (s : parse_state) (arg : string) (rest : list string)
  : step_result :=
  match classify arg with
  | OHelp => Continue (s <|| showHelp := true ||> <|| showHelpMain := true ||>) rest
  | OVersion => Continue (s <|| showVersion := true ||>) rest
  | OLicense => Continue (s <|| showLicense := true ||>) rest
  | OCredits => Continue (s <|| showCredits := true ||>) rest
  | ONoAppend => Continue (s <|| noappend := true ||>) rest
  | OOutputPath =>
      with_value s rest "Error: --output_path requires a path."
        (fun v => s <|| outputPath := v ||>)
  | OOutput =>
      with_value s rest "Error: --output requires a filename."
        (fun v => s <|| outputFile := v ||>)
  | OMetafile =>
      with_value s rest "Error: --metafile requires a filename."
        (fun _ => say "Warning: --metafile option is not implemented yet." s)
  | ORecursive => Continue (s <|| recursive := true ||>) rest
  | OVerbose => Continue (s <|| verbose := true ||>) rest
  | ORootType =>
      with_value s rest "Error: --roottype requires a value (0 or 1)."
        (fun v =>
           let val := atoi E v in
           if (val =? 0)%Z || (val =? 1)%Z then s <|| roottype := val ||>
           else complain "Error: --roottype must be 0 (whole) or 1 (broken)." s)
  | OThreshold =>
      with_value s rest "Error: --threshold requires a value."
        (fun v =>
           let val := atoi E v in
           if (0 <=? val)%Z && (val <=? 255)%Z then s <|| threshold := val ||>
           else complain "Error: --threshold must be between 0 and 255." s)
  | OInvert => Continue (s <|| invertimage := true ||>) rest
  | OKeepLargest => Continue (s <|| keepLargest := true ||>) rest
  | OBgNoise => Continue (s <|| filterbknoise := true ||>) rest
  | OFgNoise => Continue (s <|| filterfgnoise := true ||>) rest
  | OBgSize =>
      let s := s <| bgsize := true |> in
      with_value s rest "Error: --bgsize requires a value."
        (fun v => s <|| maxcompsizebk := atof E v ||>)
  | OFgSize =>
      let s := s <| fgsize := true |> in
      with_value s rest "Error: --fgsize requires a value."
        (fun v => s <|| maxcompsizefg := atof E v ||>)
  | OSmooth => Continue (s <|| enablesmooththresh := true ||>) rest
  | OSmoothThreshold =>
      let s := s <| smooththreshold := true |> in
      with_value s rest "Error: --smooththreshold requires a value."
        (fun v => s <|| smooththresh := atof E v ||>)
  | OConvert => Continue (s <|| pixelconv := true ||>) rest
  | OFactorDpi =>
      with_value s rest "Error: --factordpi requires a value."
        (fun v => s <| dpiFactor := atof E v |> <| dpi := true |>)
  | OFactorPixels =>
      with_value s rest "Error: --factorpixels requires a value."
        (fun v => s <| pixelFactor := atof E v |> <| pixels := true |>)
  | OPrune => Continue (s <|| enableRootPruning := true ||>) rest
  | OPruneThreshold =>
      let s := s <| prunethresh := true |> in
      with_value s rest "Error: --prunethreshold requires a value."
        (fun v => s <|| rootPruningThreshold := atoi E v ||>)
  | ODranges => dranges_loop (s <|| dranges := [] ||>) rest
  | OSegment => Continue (s <|| savesegmented := true ||>) rest
  | OFeature => Continue (s <|| saveprocessed := true ||>) rest
  | OSSuffix =>
      let s := s <| ssuffix := true |> in
      with_value s rest "Error: --ssuffix requires a value."
        (fun v => s <|| segsuffix := v ||>)
  | OFSuffix =>
      let s := s <| fsuffix := true |> in
      with_value s rest "Error: --fsuffix requires a value."
        (fun v => s <|| prosuffix := v ||>)
  | OConvexHull =>
      Continue (s <|| showConvexHull := true ||> <| convexhull := true |>) rest
  | OHoles => Continue (s <| holes := true |> <|| showHoles := true ||>) rest
  | ODistanceMap => Continue (s <|| showDistMap := true ||>) rest
  | OMedialAxis => Continue (s <|| showMedialAxis := true ||>) rest
  | OMedialAxisWidth =>
      with_value s rest "Error: --medialaxiswidth requires a value."
        (fun v => s <|| medialaxiswidth := atoi E v ||>)
  | OTopology => Continue (s <|| showMedialAxisDiameter := false ||>) rest
  | OContours =>
      Continue (s <|| showContours := true ||> <| contours := true |>) rest
  | OContourWidth =>
      with_value s rest "Error: --contourwidth requires a value."
        (fun v => s <|| contourwidth := atoi E v ||>)
  | Positional =>
      if Str.is_empty (inputPath (config s)) then
        Continue (s <|| inputPath := arg ||>) rest
      else Continue (complain "Error: Multiple input paths specified." s) rest
  | Unknown => Continue (complain ("Error: Unknown option " ++ arg) s) rest
  end.

(** The [for] loop, for at most [fuel] turns; [true] when it ended at a
    [return] inside the loop. *)
Fixpoint parse_loop (fuel : nat) (s : parse_state) (args : list string)
  : parse_state * bool :=
  match args with
  | [] => (s, false)
  | arg :: rest =>
      match fuel with
      | O => (s, false)
      | S fuel' =>
          match step s arg rest with
          | Continue s' rest' => parse_loop fuel' s' rest'
          | Return s' => (s', true)
          end
      end
  end.

(** ** [parseCommandLine]: after the loop

    The rest of the function is a sequence of blocks, some of which end
    in [return config]. *)

(** [if (config.inputPath.empty()) ...] *)
Definition check_input_path (s : parse_state) : flow :=
  let c := config s in
  if Str.is_empty (inputPath c) then
    if negb (showHelp c || showVersion c || showLicense c || showCredits c)
    then Done (complain "Error: No input path specified." s)
    else Done s
  else Next s.

(** [if (config.outputPath.empty()) ...] *)
Definition default_output_path (s : parse_state) : flow :=
  let c := config s in
  if Str.is_empty (outputPath c) then
    if negb (Str.is_empty (inputPath c)) then
      let inPath := inputPath c in
      if fs_is_directory E inPath then Next (s <|| outputPath := inPath ||>)
      else
        Next (s <|| outputPath :=
                 if has_parent_path E inPath
                    && negb (Str.is_empty (parent_path E inPath))
                 then parent_path E inPath
                 else parent_path E (fs_absolute E inPath) ||>)
    else Next (s <|| outputPath := current_path E ||>)
  else Next s.

(** [if (!fs::exists(config.outputPath)) ...] *)
Definition check_output_path (s : parse_state) : flow :=
  let c := config s in
  if negb (fs_exists E (outputPath c)) then
    Done (complain ("Error: Output path " ++ outputPath c ++ " does not exist.") s)
  else Next s.

(** A [path] sent to a stream goes through [std::quoted]: a backslash
    before every double quote and every backslash of the text, and the
    whole between double quotes. *)
Fixpoint escaped (p : string) : string :=
  match p with
  | EmptyString => EmptyString
  | String c p' =>
      if Ascii.eqb c Str.dquote || Ascii.eqb c Str.backslash
      then String Str.backslash (String c (escaped p'))
      else String c (escaped p')
  end.

Definition quoted (p : string) : string := Str.quote ++ escaped p ++ Str.quote.

(** The block that settles [config.outputFile]. *)
Definition resolve_output_file (s : parse_state) : flow :=
  let c := config s in
  let outFilePath := outputFile c in
  if negb (Str.is_empty (outputFile c)) then
    if fs_is_directory E outFilePath then
      Done (complain ("Error: Output file " ++ outputFile c ++ " is a directory.") s)
    else if is_absolute E outFilePath then
      if has_parent_path E outFilePath
         && negb (Str.is_empty (parent_path E outFilePath))
         && negb (fs_exists E (parent_path E outFilePath))
      then
        Done (complain ("Error: Directory for output file "
                          ++ quoted (parent_path E outFilePath)
                          ++ " does not exist.") s)
      else Next (s <|| outputFile := outFilePath ||>)
    else
      let combinedPath := path_append E (outputPath c) outFilePath in
      if has_parent_path E combinedPath
         && negb (Str.is_empty (parent_path E combinedPath))
         && negb (fs_exists E (parent_path E combinedPath))
      then
        Done (complain ("Error: Directory for output file "
                          ++ quoted (parent_path E combinedPath)
                          ++ " does not exist.") s)
      else Next (s <|| outputFile := combinedPath ||>)
  else
    Next (s <|| outputFile := path_append E (outputPath c) "features.csv" ||>).

(** [if (config.roottype == 1 && (convexhull || holes || contours)) ...] *)
Definition broken_root_overlays (s : parse_state) : flow :=
  if (roottype (config s) =? 1)%Z && (convexhull s || holes s || contours s)
  then
    Next ((say "Warning: Convex hull, holes, and contours options are ignored for broken roots." s)
            <|| showConvexHull := false ||>
            <|| showHoles := false ||>
            <|| showContours := false ||>)
  else Next s.

(** [if (config.pixelconv) ... else ...] *)
Definition conversion_factor (s : parse_state) : flow :=
  if pixelconv (config s) then
    if pixels s then
      let s1 := s <|| conversion := pixelFactor s ||> <|| pixelspermm := 1%Z ||> in
      if dpi s then
        Next (say "Warning: Both --factorpixels and --factordpi are set. Using --factorpixels." s1)
      else Next s1
    else if dpi s then
      Next (s <|| conversion := dpiFactor s ||> <|| pixelspermm := 0%Z ||>)
    else
      Next (s <|| conversion := Double.one ||> <|| pixelspermm := 0%Z ||>)
  else
    let s1 :=
      if dpi s || pixels s then
        say "Warning: Conversion factor provided but --convert is not set. Ignoring conversion factor." s
      else s in
    Next (s1 <|| conversion := Double.one ||> <|| pixelspermm := 0%Z ||>).

(** [if (config.dranges.size() > 0 && !std::is_sorted(...)) ...] *)
Definition check_dranges_sorted (s : parse_state) : flow :=
  let d := dranges (config s) in
  if (0 <? length d)%nat && negb (Double.is_sorted d) then
    Done (complain "Error: Diameter ranges (--dranges) must be in ascending order." s)
  else Next s.

(** The loop [for (size_t k = 0; k < config.dranges.size(); ++k)] from
    index [k] on, with [prev] the element before it when [k > 0]: the
    message of the first element it stops at, if it stops. *)
Fixpoint dranges_error (prev : option double) (d : list double)
  : option string :=
  match d with
  | [] => None
  | x :: d' =>
      if negb (Double.gtb x Double.zero) then
        Some ("Error: --dranges must contain positive values. Got "
                ++ show_double E 6%Z x)
      else
        match prev with
        | Some p =>
            if negb (Double.geb x p) then
              Some "Error: --dranges must be ascending."
            else dranges_error (Some x) d'
        | None => dranges_error (Some x) d'
        end
  end.

(** The validation loop: at the first failure, the message,
    [config.showHelp = true] and [return config]. *)
Definition validate_dranges (s : parse_state) : flow :=
  match dranges_error None (dranges (config s)) with
  | Some msg => Done (complain msg s)
  | None => Next s
  end.

(** [if (cond) std::cerr << msg << std::endl;] *)
Definition warn_if (cond : bool) (msg : string) (s : parse_state)
  : parse_state :=
  if cond then say msg s else s.

(** The six warnings before the last [return config]. *)
Definition dependent_option_warnings (s : parse_state) : flow :=
  let s := warn_if (fgsize s && negb (filterfgnoise (config s)))
    "Warning: --fgsize is set but --fgnoise is not enabled. Ignoring --fgsize." s in
  let s := warn_if (bgsize s && negb (filterbknoise (config s)))
    "Warning: --bgsize is set but --bgnoise is not enabled. Ignoring --bgsize." s in
  let s := warn_if (smooththreshold s && negb (enablesmooththresh (config s)))
    "Warning: --smooththreshold is set but --smooth is not enabled. Ignoring --smooththreshold." s in
  let s := warn_if (prunethresh s && negb (enableRootPruning (config s)))
    "Warning: --prunethreshold is set but --prune is not enabled. Ignoring --prunethreshold." s in
  let s := warn_if (ssuffix s && negb (savesegmented (config s)))
    "Warning: --ssuffix is set but --segment is not enabled. Ignoring --ssuffix." s in
  let s := warn_if (fsuffix s && negb (saveprocessed (config s)))
    "Warning: --fsuffix is set but --feature is not enabled. Ignoring --fsuffix." s in
  Done s.

(** Everything after the loop. *)
Definition after_loop (s : parse_state) : flow :=
  check_input_path s
    >>> default_output_path
    >>> check_output_path
    >>> resolve_output_file
    >>> broken_root_overlays
    >>> conversion_factor
    >>> check_dranges_sorted
    >>> validate_dranges
    >>> dependent_option_warnings.

(** The function from a state [s] of the loop that has the arguments
    [args] still to read: the state at its [return]. *)
Definition parse_from (s : parse_state) (args : list string) : parse_state :=
  match parse_loop (length args) s args with
  | (s', true) => s'
  | (s', false) => returned (after_loop s')
  end.

(** [parseCommandLine(argc, argv)], with the state it ends in: its
    [config] is the value returned and its [cerr] what was written.  The
    loop starts at [argv[1]]. *)
Definition parse (argv : list string) : parse_state :=
  parse_from parse_state_init (tl argv).

(** The loop, started in [s0] on [args], comes to stand in state [s]
    before the arguments [rest]. *)
Inductive reaches : parse_state -> list string -> parse_state -> list string -> Prop :=
| reaches_here s args : reaches s args s args
| reaches_step s a r s1 r1 s2 r2 :
    step s a r = Continue s1 r1 ->
    reaches s1 r1 s2 r2 ->
    reaches s (a :: r) s2 r2.

(** The command line was accepted: [parseCommandLine] ran to its last
    [return] without asking for the usage text. *)
Definition accepted (c : feature_config) : bool :=
  negb (showHelp c) && negb (Str.is_empty (inputPath c)).

Definition parseCommandLine (argv : list string) : feature_config :=
  config (parse argv).

(** ** Collecting the images *)

Definition isSupportedImageFile (filename : string) : bool :=
  let ext := Str.map Str.tolower (extension E filename) in
  (ext =? ".png") || (ext =? ".jpg") || (ext =? ".jpeg")
  || (ext =? ".bmp") || (ext =? ".tif") || (ext =? ".tiff").

(** What the program does to the world outside, in order. *)
Inductive event :=
| Stderr (line : string)
| Stdout (line : string)
| Usage (programName : string)
| Progress (i n : nat) (name : string)
| Load (path : string)
| Extract (path : string)
| Save (path : string).

(** The image files found and what was written to [std::cerr]. *)
Definition collectImageFiles (inputPath : string) (recursive : bool)
  : list string * list event :=
  if fs_is_regular_file E inputPath then
    if isSupportedImageFile inputPath then ([inputPath], [])
    else ([], [Stderr ("Error: " ++ inputPath ++ " is not a supported image file.")])
  else if fs_is_directory E inputPath then
    let '(entries, error) :=
      if recursive then recursive_directory_iterator E inputPath
      else directory_iterator E inputPath in
    let imageFiles :=
      List.filter (fun entry => fs_is_regular_file E entry && isSupportedImageFile entry)
        entries in
    match error with
    | Some what => (imageFiles, [Stderr ("Filesystem error: " ++ what)])
    | None => (imageFiles, [])
    end
  else ([], [Stderr ("Error: " ++ inputPath ++ " is not a valid file or directory.")]).

(** ** [analyzeImage] *)

(** The handler of the [try] block: the message, and [false]. *)
Definition analysis_failed (c : feature_config) (what : string)
    (done : list event) : bool * feature_config * list event :=
  (false, c,
   (done ++ [Stderr ("Error processing " ++ inputPath c ++ ": "
                       ++ Str.nl ++ String Str.tab what)])%list).

(** A disk maps the path of a regular file to its contents. *)
Definition disk_state : Type := gmap string string.

(** [cv::imwrite(target, image)] on a disk. *)
Definition imwrite_on (target : string) (image : Mat) (disk : disk_state)
  : disk_state :=
  match imwrite_bytes E target image with
  | Some bytes => <[target := bytes]> disk
  | None => disk
  end.

(** Saving one of the two images when it was asked for and is there:
    [Some what] when [cv::imwrite] throws, the events, and the disk
    afterwards. *)
Definition save_image (c : feature_config) (wanted : bool) (image : Mat)
    (suffix : string) (label : string) (disk : disk_state)
  : option string * list event * disk_state :=
  if wanted && negb (empty image) then
    let savefile := stem E (inputPath c) ++ suffix ++ ".png" in
    let target := path_append E (outputPath c) savefile in
    match imwrite E target image with
    | Some what => (Some what, [Save target], imwrite_on target image disk)
    | None =>
        (None,
         Save target ::
           (if verbose c then [Stdout ("  " ++ label ++ " image saved as " ++ savefile)]
            else []),
         imwrite_on target image disk)
    end
  else (None, [], disk).

(** The result, the configuration [*config] afterwards, the events, and
    the disk afterwards. *)
Definition analyzeImage (c : feature_config) (disk : disk_state)
  : bool * feature_config * list event * disk_state :=
  let input0 := imread E (inputPath c) in
  if empty input0 then
    (false, c,
     [Load (inputPath c);
      Stderr ("Error: Could not load image " ++ inputPath c)],
     disk)
  else
    let input1 :=
      if (channels input0 =? 3)%Z then cvtColor_BGR2RGB E input0 else input0 in
    let c := c <| imagefilename := filename E (inputPath c) |> in
    let c := c <| input := input1 |> <| features := [] |> in
    let ev := [Load (inputPath c); Extract (inputPath c)] in
    match feature_extractor E c with
    | inl what => (analysis_failed c what ev, disk)
    | inr x =>
        let c := c <| features := ex_features x |>
                   <| seg := ex_seg x |> <| processed := ex_processed x |> in
        match save_image c (savesegmented c) (seg c) (segsuffix c) "Segmented" disk with
        | (Some what, ev1, disk1) => (analysis_failed c what (ev ++ ev1), disk1)
        | (None, ev1, disk1) =>
            match save_image c (saveprocessed c) (processed c) (prosuffix c)
                    "Processed" disk1 with
            | (Some what, ev2, disk2) =>
                (analysis_failed c what (ev ++ ev1 ++ ev2), disk2)
            | (None, ev2, disk2) => (true, c, (ev ++ ev1 ++ ev2)%list, disk2)
            end
        end
    end.

(** ** The CSV file *)

(** One [for (int k = 0; k <= config.dranges.size(); k++)] loop of the
    header. *)
Definition range_columns (c : feature_config) (label unit : string) : string :=
  Str.concat
    (map (fun k => "," ++ label ++ Str.of_nat (k + 1) ++ unit)
       (seq 0 (length (dranges c) + 1))).

(** The text [writeCsvHeader] sends to the stream. *)
Definition writeCsvHeader (c : feature_config) : string :=
  let unitlength := if pixelconv c then ".mm" else ".px" in
  let unitarea := if pixelconv c then ".mm2" else ".px2" in
  let unitvolume := if pixelconv c then ".mm3" else ".px3" in
  let perunitlength := if pixelconv c then ".per.mm" else ".per.px" in
  if (roottype c =? 0)%Z then
    "File.Name,Region.of.Interest,Median.Number.of.Roots,Maximum.Number.of.Roots,Number.of.Root.Tips,"
    ++ "Total.Root.Length" ++ unitlength ++ ",Depth" ++ unitlength
    ++ ",Maximum.Width" ++ unitlength ++ ",Width-to-Depth.Ratio,Network.Area"
    ++ unitarea ++ ","
    ++ "Convex.Area" ++ unitarea ++ ",Solidity,Lower.Root.Area" ++ unitarea
    ++ ",Average.Diameter" ++ unitlength ++ ",Median.Diameter" ++ unitlength ++ ","
    ++ "Maximum.Diameter" ++ unitlength ++ ",Perimeter" ++ unitlength
    ++ ",Volume" ++ unitvolume ++ ",Surface.Area" ++ unitarea
    ++ ",Holes,Average.Hole.Size" ++ unitarea ++ ","
    ++ "Computation.Time.s,Average.Root.Orientation.deg,Shallow.Angle.Frequency,Medium.Angle.Frequency,"
    ++ "Steep.Angle.Frequency"
    ++ range_columns c "Root.Length.Diameter.Range." unitlength
    ++ range_columns c "Projected.Area.Diameter.Range." unitarea
    ++ range_columns c "Surface.Area.Diameter.Range." unitarea
    ++ range_columns c "Volume.Diameter.Range." unitvolume
    ++ Str.nl
  else
    "File.Name,Region.of.Interest,Number.of.Root.Tips,Number.of.Branch.Points,"
    ++ "Total.Root.Length" ++ unitlength ++ ",Branching.frequency" ++ perunitlength
    ++ ",Network.Area" ++ unitarea ++ ","
    ++ "Average.Diameter" ++ unitlength ++ ",Median.Diameter" ++ unitlength ++ ","
    ++ "Maximum.Diameter" ++ unitlength ++ ",Perimeter" ++ unitlength
    ++ ",Volume" ++ unitvolume ++ ",Surface.Area" ++ unitarea ++ ","
    ++ "Computation.Time.s"
    ++ range_columns c "Root.Length.Diameter.Range." unitlength
    ++ range_columns c "Projected.Area.Diameter.Range." unitarea
    ++ range_columns c "Surface.Area.Diameter.Range." unitarea
    ++ range_columns c "Volume.Diameter.Range." unitvolume
    ++ Str.nl.

(** What is written for one feature after the comma: the token [NA], or
    the value at a stream precision. *)
Inductive cell :=
| NA
| Number (precision : Z) (value : double).

(** The three-way [if] on a feature in [writeResultsToCsv]. *)
Definition feature_cell (feature : double) : cell :=
  if negb (Double.isnan feature || Double.isinf feature
           || Double.eqb feature Double.zero) then
    Number (Double.to_int
              (Double.add (ceil E (log10 E (Double.abs feature))) (Double.of_Z 6)))
      feature
  else if Double.eqb feature Double.zero then Number 6 feature
  else NA.

Definition show_cell (x : cell) : string :=
  match x with
  | NA => "NA"
  | Number precision value => show_double E precision value
  end.

(** One line of the file. *)
Definition csv_row (imageFile : string) (roiname : string)
    (features : list double) : string :=
  filename E imageFile ++ "," ++ roiname
  ++ Str.concat (map (fun feature => "," ++ show_cell (feature_cell feature)) features)
  ++ Str.nl.

(** [allFeatures[i]] and [roiNames[i]] for the index [i] of each image
    file. *)
Fixpoint csv_rows (imageFiles : list string) (allFeatures : list (list double))
    (roiNames : list string) : string :=
  match imageFiles, allFeatures, roiNames with
  | f :: imageFiles', x :: allFeatures', r :: roiNames' =>
      csv_row f r x ++ csv_rows imageFiles' allFeatures' roiNames'
  | _, _, _ => EmptyString
  end.

(** The result is the disk afterwards and what was written to
    [std::cerr]. *)
Definition writeResultsToCsv (c : feature_config) (imageFiles : list string)
    (allFeatures : list (list double)) (roiNames : list string)
    (disk : gmap string string) : gmap string string * list event :=
  let csvFullPath := outputFile c in
  let fileExists := bool_decide (is_Some (disk !! csvFullPath)) in
  let ev :=
    if negb (noappend c) && fileExists && verbose c then
      [Stderr ("Warning: Output file " ++ quoted csvFullPath
                 ++ " already exists. Appending results.")]
    else [] in
  if ofstream_open E csvFullPath then
    let before := default EmptyString (disk !! csvFullPath) in
    let header :=
      if negb fileExists || noappend c then writeCsvHeader c else EmptyString in
    (<[csvFullPath := before ++ header ++ csv_rows imageFiles allFeatures roiNames]> disk,
     ev)
  else (disk, ev).

(** ** [main] *)

(** The three vectors [main] fills, index by index. *)
Record batch := {
  allFeatures : list (list double);
  processedFiles : list string;
  roinames : list string
}.

Definition batch_empty : batch :=
  {| allFeatures := []; processedFiles := []; roinames := [] |}.

(** The three [push_back] calls after a successful [analyzeImage]. *)
Definition batch_push (b : batch) (c : feature_config) (imageFile : string)
  : batch :=
  {| allFeatures := (allFeatures b ++ [features c])%list;
     processedFiles := (processedFiles b ++ [imageFile])%list;
     roinames := (roinames b ++ ["Full"])%list |}.

(** The lines printed under [--verbose] before the images are processed. *)
Definition configuration_report (c : feature_config) (found : nat)
  : list event :=
  ([Stdout "RhizoVision Command Line Interface";
    Stdout ("Found " ++ Str.of_nat found ++ " image file(s) to process.");
    Stdout "Configuration:";
    Stdout ("  Root type: "
              ++ if (roottype c =? 0)%Z then "whole root" else "broken roots");
    Stdout ("  Threshold: " ++ Str.of_Z (threshold c));
    Stdout ("  Invert image: " ++ if invertimage c then "yes" else "no");
    Stdout ("  Pixel conversion: "
              ++ if pixelconv c then "enabled" else "disabled");
    Stdout ("  Input path: " ++ inputPath c);
    Stdout ("  Output file: " ++ outputFile c);
    Stdout ("  Output path: " ++ outputPath c)]
   ++ (if pixelconv c then
         [Stdout ("  Conversion factor: " ++ show_double E 6%Z (conversion c))]
       else []))%list.

(** The loop [for (int i = 0; i < imgcount; ++i)] from index [i] on, over
    the image files still to be processed.  The progress line (under
    [--verbose]) or the tick of the progress bar (without it, for more
    than one image) is one [Progress] event; the times they show come
    from the clock and are left out. *)
Fixpoint process_images (imgcount i : nat) (imageFiles : list string)
    (c : feature_config) (b : batch) (disk : disk_state)
  : feature_config * batch * list event * disk_state :=
  match imageFiles with
  | [] => (c, b, [], disk)
  | imageFile :: imageFiles' =>
      let c := c <| inputPath := imageFile |> in
      let progress :=
        if verbose c || (1 <? imgcount)%nat then
          [Progress (i + 1) imgcount (filename E (inputPath c))]
        else [] in
      let '(ok, c, ev, disk) := analyzeImage c disk in
      let b := if ok then batch_push b c imageFile else b in
      let '(c', b', ev', disk') :=
        process_images imgcount (S i) imageFiles' c b disk in
      (c', b', (progress ++ ev ++ ev')%list, disk')
  end.

Record outcome := {
  exit_code : Z;
  events : list event;
  disk_after : gmap string string
}.

(** [main(argc, argv)] on a disk.  (The calls that set OpenCV up before
    the command line is parsed have no part in what follows and are left
    out.) *)
Definition main (argv : list string) (disk : gmap string string) : outcome :=
  let s := parse argv in
  let config := config s in
  let ev0 := map Stderr (cerr s) in
  if showHelp config then
    {| exit_code := if negb (showHelpMain config) then 1 else 0;
       events := (ev0 ++ [Usage (hd EmptyString argv)])%list;
       disk_after := disk |}
  else if showVersion config then
    {| exit_code := 0;
       events := (ev0 ++ [Stdout "RhizoVision Explorer CLI Version 2.5.0 Beta"])%list;
       disk_after := disk |}
  else if showLicense config then
    {| exit_code := 0;
       events :=
         (ev0 ++ [Stdout "RhizoVision Explorer is licensed under the GPL-3.0 License.";
                  Stdout "See COPYING file for details."])%list;
       disk_after := disk |}
  else if showCredits config then
    {| exit_code := 0;
       events :=
         (ev0 ++ [Stdout "RhizoVision Explorer acknowledges the contributions of:";
                  Stdout "- OpenCV library developers";
                  Stdout "- Qt framework developers";
                  Stdout "- All contributors to the RhizoVision project"])%list;
       disk_after := disk |}
  else
    let '(imageFiles, ev1) :=
      collectImageFiles (inputPath config) (recursive config) in
    if (length imageFiles =? 0)%nat then
      {| exit_code := 1;
         events :=
           (ev0 ++ ev1
              ++ [Stderr ("No supported image files found in " ++ inputPath config)])%list;
         disk_after := disk |}
    else
      let imgcount := length imageFiles in
      let ev2 :=
        if verbose config then configuration_report config imgcount else [] in
      let config := config <| consolemode := true |> in
      let '(config, b, ev3, disk3) :=
        process_images imgcount 0 imageFiles config batch_empty disk in
      if (length (processedFiles b) =? 0)%nat then
        {| exit_code := 1;
           events :=
             (ev0 ++ ev1 ++ ev2 ++ ev3
                ++ [Stderr "No images were successfully processed."])%list;
           disk_after := disk3 |}
      else
        let '(disk', ev4) :=
          writeResultsToCsv config (processedFiles b) (allFeatures b)
            (roinames b) disk3 in
        {| exit_code := 0;
           events :=
             (ev0 ++ ev1 ++ ev2 ++ ev3 ++ ev4
                ++ [Stdout ("Successfully processed "
                              ++ Str.of_nat (length (processedFiles b))
                              ++ " image(s).")])%list;
           disk_after := disk' |}.

End Program.

(** ** The times on the progress line

    [getEstimatedTimeRemaining], [printRemainingTime] and
    [printElapsedTime].  The arithmetic on [int] is that of the integers:
    it is the program's as long as no value leaves the range of [int],
    beyond which the program has no defined behaviour.  Division and
    remainder on [int] truncate towards zero. *)

(** The local variable [estRemaining] of [getEstimatedTimeRemaining]. *)
Definition estRemaining (currentImageIndex totalImages : Z)
    (elapsedTime : double) : double :=
  let avgTimePerImage :=
    Double.div elapsedTime (Double.of_Z (currentImageIndex + 1)) in
  if (0 <? currentImageIndex)%Z then
    Double.mul avgTimePerImage
      (Double.of_Z (totalImages - (currentImageIndex + 1)))
  else Double.of_Z (totalImages * 2).

Definition getEstimatedTimeRemaining (currentImageIndex totalImages : Z)
    (elapsedTime : double) : Z * Z * Z :=
  let estRemaining := estRemaining currentImageIndex totalImages elapsedTime in
  let estMin := (Double.to_int estRemaining ÷ 60)%Z in
  let estSec := Z.rem (Double.to_int estRemaining) 60 in
  let estHour := (estMin ÷ 60)%Z in
  let estMin := Z.rem estMin 60 in
  (estHour, estMin, estSec).

(** What [printRemainingTime] sends to [std::cout]. *)
Definition printRemainingTime (currentImageIndex totalImages : Z)
    (elapsedTime : double) : string :=
  let '(estHour, estMin, estSec) :=
    getEstimatedTimeRemaining currentImageIndex totalImages elapsedTime in
  "[remaining: " ++ Str.of_Z estHour ++ "h " ++ Str.of_Z estMin ++ "m "
  ++ Str.of_Z estSec ++ "s] - ".

(** What [printElapsedTime] sends to [std::cout]. *)
Definition printElapsedTime (elapsedTime : double) : string :=
  let totalSec := Double.to_int elapsedTime in
  let hours := (totalSec ÷ 3600)%Z in
  let minutes := (Z.rem totalSec 3600 ÷ 60)%Z in
  let seconds := Z.rem totalSec 60 in
  "[elapsed: " ++ Str.of_Z hours ++ "h " ++ Str.of_Z minutes ++ "m "
  ++ Str.of_Z seconds ++ "s] - ".

(** A finite [double] whose integer part is an [int]. *)
Definition fits_int (a : double) : bool :=
  match a with
  | S754_zero _ | S754_finite _ _ _ =>
      (- 2 ^ 31 <=? Double.to_int a)%Z && (Double.to_int a <? 2 ^ 31)%Z
  | _ => false
  end.

(** [h] hours, [m] minutes and [s] seconds are [n] seconds. *)
Definition clock (n h m s : Z) : Prop :=
  (h * 3600 + m * 60 + s = n /\ 0 <= h /\ 0 <= m < 60 /\ 0 <= s < 60)%Z.

(** ** [printUsage]

    The lines of the usage text; each ends in a line feed. *)
Definition usage_lines (programName : string) : list string :=
  [
    "RhizoVision Command Line Interface";
    EmptyString;
    "Usage: " ++ programName ++ " [OPTIONS] <input_path>";
    EmptyString;
    "Arguments:";
    "  --metafile FILE             Path to metadata CSV file (optional)";
    "  input_path                  Path to image file or directory containing images";
    EmptyString;
    "Output Options:";
    "  -na, --noappend             Do not append to output file if it exists. Overwrite";
    "                              it (default: appends)";
    "  -op, --output_path PATH     Output directory for processed images (default: same";
    "                              directory as input)";
    "  -o, --output FILE_NAME      Output CSV file (default: features.csv)";
    "                              If --output_path is specified, this file will be";
    "                              created in that directory. If the file path is absolute,";
    "                              it will be used as is. If it is relative, it will be";
    "                              created in the output directory (--output_path).";
    EmptyString;
    "General Options:";
    "  -h, --help                  Show this help message";
    "  -r, --recursive             Process directories recursively";
    "  -v, --verbose               Enable verbose output";
    "  --version                   Show application version";
    "  --license                   Show application license information";
    "  --credits                   Show application credits";
    EmptyString;
    "Root Analysis Options:";
    "  -rt, --roottype TYPE        Root type: 0=whole root, 1=broken roots (default: 1)";
    "  -t, --threshold VAL         Segmentation threshold 0-255 (default: 200)";
    "  -i, --invert                Invert image colors before processing. The background";
    "                              should be brighter than the roots by default.";
    EmptyString;
    "Filtering Options:";
    "  -kl, --keeplargest          Keep only the largest component";
    "  --bgnoise                   Filter background noise components.";
    "                              No filter is applied by default.";
    "  --fgnoise                   Filter foreground noise components.";
    "                              No filter is applied by default.";
    "  --bgsize VAL                Max background component size (default: 1.0)";
    "                              Components larger than this (in image area) are";
    "                              removed if --bgnoise is set.";
    "  --fgsize VAL                Max foreground component size (default: 1.0)";
    "                              Components larger than this (in image area) are";
    "                              removed if --fgnoise is set.";
    EmptyString;
    "Smoothing Options:";
    "  -s, --smooth                Enable contour smoothing. Off by default.";
    "  -st, --smooththreshold VAL  Contour smoothing threshold in pixels (default: 2.0)";
    "                              Applied to the contour when --smooth is enabled.";
    EmptyString;
    "Unit Conversion Options:";
    "  --convert                   Enable pixel to physical unit (mm) conversion.";
    "                              Off by default. When specified, the factor defaults";
    "                              to DPI conversion.";
    "  --factordpi VAL             Conversion factor in DPI (default: 1.0).";
    "  --factorpixels VAL          Use pixels per mm instead of DPI. (default: 1.0).";
    "                              --factordpi is ignored if --factorpixels is set.";
    EmptyString;
    "Analysis Options:";
    "  --prune                     Enable root pruning. Off by default.";
    "  -pt, --prunethreshold VAL   Root pruning threshold (default: 1). Roots shorter than this";
    "                              (in pixels) ignoring parent lateral root radius are pruned when";
    "                              --prune is enabled.";
    "  --dranges VALS              Comma-separated diameter ranges for statistical features";
    "                              The VALS should be in ascending order (default: 2.0,5.0)";
    "                              If --convert is specified, the values are treated as physical";
    "                              units (mm) instead of pixels.";
    "Output Options:";
    "  --segment                   Save segmented images. Off by default.";
    "  --feature                   Save processed feature images. Off by default.";
    "  --ssuffix SUFFIX            Suffix for segmented images (default: _seg), to be used when";
    "                              saving segmented images.";
    "  --fsuffix SUFFIX            Suffix for processed images (default: _features), to be used";
    "                              when saving processed images.";
    EmptyString;
    "Processed image options (Used when --feature is specified):";
    "  -ch, --convexhull           Show convex hull in processed images.";
    "                              On by default. For whole roots only. For broken roots, this";
    "                              option is ignored.";
    "  -ho, --holes                Show holes in processed images.";
    "                              On by default. For whole roots only. For broken roots, this";
    "                              option is ignored.";
    "  -dm, --distancemap          Show distance map in processed images.";
    "                              Off by default.";
    "  -ma, --medialaxis           Show medial axis in processed images.";
    "                              On by default.";
    "  -mw, --medialaxiswidth VAL  Medial axis width (default: 3)";
    "  -to, --topology             Show topology in processed images. By default (Off),";
    "                              the medial axis is colored according to diameter";
    "                              ranges specified using --dranges.";
    "  -co, --contours             Show contours in processed images.";
    "                              On by default. For whole roots only. For broken roots, this";
    "                              option is ignored.";
    "  -cw, --contourwidth VAL     Contour width (default: 1)";
    EmptyString;
    "Input can be a single image file or a directory containing images.";
    "Supported image formats: PNG, JPG, JPEG, BMP, TIF, TIFF";
    EmptyString;
    "Examples:";
    "  " ++ programName ++ " image.jpg";
    "  " ++ programName ++ " -r -o results.csv /path/to/images/";
    "  " ++ programName ++ " --verbose --threshold 150 --smooth images_folder";
    "  " ++ programName ++ " --roottype 0 --convert --factordpi 0.1 image.png";
    "  " ++ programName ++ " --feature --dranges 1.0,3.0,6.0 folder/"
  ].

(** What [printUsage] sends to [std::cout]. *)
Definition printUsage (programName : string) : string :=
  Str.concat (map (fun line => line ++ Str.nl) (usage_lines programName)).

(** The characters of [s] before its first space or comma, and the rest
    of [s]. *)
Fixpoint take_name (s : string) : string * string :=
  match s with
  | EmptyString => (EmptyString, EmptyString)
  | String c s' =>
      if Ascii.eqb c " " || Ascii.eqb c "," then (EmptyString, s)
      else let '(name, rest) := take_name s' in (String c name, rest)
  end.

(** The option names that a line of the usage text documents.  Such a
    line begins with two spaces and a [-]; a second name follows the
    first after a comma and a space. *)
Definition listed_names (line : string) : list string :=
  match line with
  | String " " (String " " (String "-" rest)) =>
      let '(first, r) := take_name (String "-" rest) in
      match r with
      | String "," (String " " (String "-" rest')) =>
          [first; fst (take_name (String "-" rest'))]
      | _ => [first]
      end
  | _ => []
  end.

Definition listed_options (programName : string) : list string :=
  flat_map listed_names (usage_lines programName).

(** [arg] is read as an option that the program knows. *)
Definition known_option (arg : string) : bool :=
  match classify arg with
  | Positional | Unknown => false
  | _ => true
  end.

(** ** A reference environment

    Decimal conversions as the GNU C library performs them ([Glibc]),
    POSIX paths compared as they are written ([Posix]), and a file system
    given by the lists of its directories and of its regular files
    ([Reference]). *)

Module Glibc.

Local Open Scope Z_scope.

Definition is_space (c : ascii) : bool :=
  let n := nat_of_ascii c in ((9 <=? n)%nat && (n <=? 13)%nat) || (n =? 32)%nat.

Fixpoint skip_spaces (s : string) : string :=
  match s with
  | EmptyString => EmptyString
  | String c s' => if is_space c then skip_spaces s' else s
  end.

(** An optional sign: [true] for [-]. *)
Definition read_sign (s : string) : bool * string :=
  match s with
  | String "-" s' => (true, s')
  | String "+" s' => (false, s')
  | _ => (false, s)
  end.

Definition atoi (s : string) : Z :=
  let '(neg, s1) := read_sign (skip_spaces s) in
  let '(v, _, _) := Str.read_digits 0 0 s1 in
  if neg then - v else v.

(** The longest decimal floating-point literal at the head of [s], after
    white space: its sign, and [m] and [e] with value [m * 10 ^ e].
    (The hexadecimal, infinity and NaN spellings that [strtod] also reads
    are not part of this environment.) *)
Definition read_decimal (s : string) : option (bool * Z * Z) :=
  let '(neg, s1) := read_sign (skip_spaces s) in
  let '(m1, n1, s2) := Str.read_digits 0 0 s1 in
  let '(m2, n2, s3) :=
    match s2 with
    | String "." r =>
        let '(m, n, r') := Str.read_digits m1 0 r in (m, n, r')
    | _ => (m1, 0, s2)
    end in
  if (n1 + n2 =? 0) then None
  else
    let exponent :=
      match s3 with
      | String c r =>
          if Ascii.eqb c "e" || Ascii.eqb c "E" then
            let '(eneg, r1) := read_sign r in
            let '(x, n, _) := Str.read_digits 0 0 r1 in
            if n =? 0 then 0 else if eneg then - x else x
          else 0
      | EmptyString => 0
      end in
    Some (neg, m2, exponent - n2).

Definition signed (neg : bool) (v : double) : double :=
  if neg then SFopp v else v.

(** [atof]: zero when there is no number to read. *)
Definition atof (s : string) : double :=
  match read_decimal s with
  | Some (neg, m, e) => signed neg (Double.of_decimal m e)
  | None => Double.zero
  end.

(** [std::stod] throws [std::invalid_argument] when there is no number
    and [std::out_of_range] when [strtod] reports [ERANGE]: on overflow
    and on a non-zero literal whose value is below the normal range.  The
    [what()] of both is the name of the function. *)
Definition stod (s : string) : string + double :=
  match read_decimal s with
  | None => inl "stod"
  | Some (neg, m, e) =>
      let v := Double.of_decimal m e in
      if negb (m =? 0)
         && (Double.isinf v || Double.is_subnormal v || Double.eqb v Double.zero)
      then inl "stod"
      else inr (signed neg v)
  end.

(** [round (num / den * 10 ^ k)] to the nearest integer, ties to even,
    for positive [num] and [den]. *)
Definition round_scaled (num den k : Z) : Z :=
  let '(n, d) := if 0 <=? k then (num * 10 ^ k, den) else (num, den * 10 ^ (- k)) in
  let q := n / d in
  let r := n mod d in
  match 2 * r ?= d with
  | Lt => q
  | Gt => q + 1
  | Eq => if Z.even q then q else q + 1
  end.

(** The magnitude of a finite non-zero value as a fraction. *)
Definition fraction (m : positive) (e : Z) : Z * Z :=
  match e with
  | Zneg p => (Zpos m, 2 ^ Zpos p)
  | _ => (Zpos m * 2 ^ e, 1)
  end.

(** The number of decimal digits of a positive integer. *)
Definition decimal_digits (z : Z) : Z := Z.of_nat (String.length (Str.of_Z z)).

(** The least [k >= 1] with [den <= num * 10 ^ k], searched upwards. *)
Fixpoint first_scale (fuel : nat) (num den k : Z) : Z :=
  match fuel with
  | O => k
  | S fuel' => if den <=? num * 10 ^ k then k else first_scale fuel' num den (k + 1)
  end.

(** [floor (log10 (num / den))] *)
Definition floor_log10 (num den : Z) : Z :=
  if den <=? num then decimal_digits (num / den) - 1
  else - first_scale 400 num den 1.

Definition pad_left (width : nat) (s : string) : string :=
  Str.concat (repeat "0"%string (width - String.length s)) ++ s.

(** The decimal digits of [n] with a point before the last [places]. *)
Definition fixed_point (n : Z) (places : Z) : string :=
  if places <=? 0 then Str.of_Z n
  else
    let unit := 10 ^ places in
    Str.of_Z (n / unit) ++ "." ++ pad_left (Z.to_nat places) (Str.of_Z (n mod unit)).

Fixpoint strip_zeros_rev (s : list ascii) : list ascii :=
  match s with
  | c :: s' => if Ascii.eqb c "0" then strip_zeros_rev s' else s
  | [] => []
  end.

(** Trailing zeros of the fraction, and the point itself when nothing
    follows it, are removed, as [%g] does. *)
Definition strip_fraction (s : string) : string :=
  if Str.contains "." s then
    let r := strip_zeros_rev (rev (list_ascii_of_string s)) in
    let r := match r with
             | c :: r' => if Ascii.eqb c "." then r' else r
             | [] => r
             end in
    string_of_list_ascii (rev r)
  else s.

(** [printf("%.*g", precision, v)], which is what [operator<<] does to a
    [double] on a stream in its default format. *)
Definition show_double (precision : Z) (v : double) : string :=
  let p := if precision <? 0 then 6 else if precision =? 0 then 1 else precision in
  match v with
  | S754_nan => "nan"
  | S754_infinity s => if s then "-inf" else "inf"
  | S754_zero s => if s then "-0" else "0"
  | S754_finite s m e =>
      let '(num, den) := fraction m e in
      let x0 := floor_log10 num den in
      let d0 := round_scaled num den (p - 1 - x0) in
      let x := if 10 ^ p <=? d0 then x0 + 1 else x0 in
      let d := round_scaled num den (p - 1 - x) in
      let body :=
        if (-4 <=? x) && (x <? p) then strip_fraction (fixed_point d (p - 1 - x))
        else
          strip_fraction (fixed_point d (p - 1))
          ++ "e" ++ (if x <? 0 then "-" else "+")
          ++ pad_left 2 (Str.of_Z (Z.abs x)) in
      (if s then "-" else "") ++ body
  end.

(** [std::to_string(double)], that is [printf("%f", v)]. *)
Definition to_string (v : double) : string :=
  match v with
  | S754_nan => "nan"
  | S754_infinity s => if s then "-inf" else "inf"
  | S754_zero s => if s then "-0.000000" else "0.000000"
  | S754_finite s m e =>
      let '(num, den) := fraction m e in
      (if s then "-" else "") ++ fixed_point (round_scaled num den 6) 6
  end.

(** [ceil] *)
Definition ceil (v : double) : double :=
  match v with
  | S754_finite s m (Zneg p) =>
      let q := Z.shiftr (Zpos m) (Zpos p) in
      let exact := Zpos m =? Z.shiftl q (Zpos p) in
      if s then binary_normalize Double.prec Double.emax (- q) 0 true
      else Double.of_Z (if exact then q else q + 1)
  | _ => v
  end.

(** [log2] of a positive integer, in units of [2 ^ (-64)] and rounded
    down: the integer part is [Z.log2], the fraction is read off bit by
    bit by squaring a fixed-point number of 200 fractional bits. *)
Fixpoint log2_bits (n : nat) (y acc : Z) : Z :=
  match n with
  | O => acc
  | S n' =>
      let y2 := Z.shiftr (y * y) 200 in
      if Z.shiftl 2 200 <=? y2 then log2_bits n' (Z.shiftr y2 1) (2 * acc + 1)
      else log2_bits n' y2 (2 * acc)
  end.

Definition log2_fixed (m : positive) : Z :=
  let k := Z.log2 (Zpos m) in
  let y := Z.shiftl (Zpos m) (200 - k) in
  k * 2 ^ 64 + log2_bits 64 y 0.

(** [log10], as the quotient of two binary logarithms rounded to the
    nearest [double]. *)
Definition log10 (v : double) : double :=
  match v with
  | S754_nan => S754_nan
  | S754_zero _ => S754_infinity true
  | S754_infinity s => if s then S754_nan else v
  | S754_finite true _ _ => S754_nan
  | S754_finite false m e =>
      let n := e * 2 ^ 64 + log2_fixed m in
      match n with
      | Z0 => Double.zero
      | _ =>
          let '(q, e', l) :=
            SFdiv_core_binary Double.prec Double.emax (Z.abs n) 0 (log2_fixed 10) 0 in
          binary_round_aux Double.prec Double.emax (n <? 0) q e' l
      end
  end.

End Glibc.

Module Posix.

(** [s] cut at its last [sep]. *)
Fixpoint split_last (sep : ascii) (s : string) : option (string * string) :=
  match s with
  | EmptyString => None
  | String c s' =>
      match split_last sep s' with
      | Some (a, b) => Some (String c a, b)
      | None => if Ascii.eqb c sep then Some (EmptyString, s') else None
      end
  end.

Definition filename (p : string) : string :=
  match split_last "/" p with
  | Some (_, b) => b
  | None => p
  end.

Definition parent_path (p : string) : string :=
  match split_last "/" p with
  | Some (EmptyString, _) => "/"
  | Some (a, _) => a
  | None => EmptyString
  end.

Definition has_parent_path (p : string) : bool :=
  negb (Str.is_empty (parent_path p)).

Definition is_absolute (p : string) : bool := Ascii.eqb (Str.head p) "/".

Definition extension (p : string) : string :=
  let f := filename p in
  if (f =? ".")%string || (f =? "..")%string then EmptyString
  else
    match split_last "." f with
    | Some (EmptyString, _) => EmptyString
    | Some (_, b) => String "." b
    | None => EmptyString
    end.

Definition stem (p : string) : string :=
  let f := filename p in
  if (f =? ".")%string || (f =? "..")%string then f
  else
    match split_last "." f with
    | Some (EmptyString, _) => f
    | Some (a, _) => a
    | None => f
    end.

Definition path_append (a b : string) : string :=
  if is_absolute b then b
  else if Str.is_empty a then b
  else
    match split_last "/" a with
    | Some (_, EmptyString) => a ++ b
    | _ => a ++ "/" ++ b
    end.

End Posix.

Module Reference.

(** A file system, the images in its files, and a pipeline. *)
Record world := {
  directories : list string;
  files : list string;
  cwd : string;
  (** the image stored in a file, if it is one *)
  image_of : string -> Mat;
  (** the pipeline *)
  extractor : feature_config -> string + extraction
}.

Definition mem (p : string) (l : list string) : bool :=
  existsb (String.eqb p) l.

Definition children (w : world) (d : string) : list string :=
  List.filter (fun p => (Posix.parent_path p =? d)%string)
    (directories w ++ files w)%list.

Definition descendants (w : world) (d : string) : list string :=
  List.filter (fun p => Str.starts_with (Posix.path_append d EmptyString) p
                   && negb (p =? Posix.path_append d EmptyString)%string)
    (directories w ++ files w)%list.

(** What stands for the encoding of an image as a PNG file: its
    dimensions and its samples, in decimal. *)
Definition png (m : Mat) : string :=
  "PNG " ++ Str.of_Z (rows m) ++ "x" ++ Str.of_Z (cols m) ++ "x"
    ++ Str.of_Z (channels m) ++ ":"
    ++ Str.concat (map (fun x => " " ++ Str.of_Z x) (samples m)).

(** Blue, green, red to red, green, blue, sample by sample. *)
Fixpoint swap_channels (l : list Z) : list Z :=
  match l with
  | b :: g :: r :: l' => r :: g :: b :: swap_channels l'
  | _ => l
  end.

Definition swap_red_blue (m : Mat) : Mat :=
  {| rows := rows m; cols := cols m; channels := channels m;
     samples := swap_channels (samples m) |}.

Definition env (w : world) : Env := {|
  atoi := Glibc.atoi;
  atof := Glibc.atof;
  stod := Glibc.stod;
  to_string := Glibc.to_string;
  log10 := Glibc.log10;
  ceil := Glibc.ceil;
  show_double := Glibc.show_double;
  fs_exists := fun p => mem p (directories w) || mem p (files w);
  fs_is_directory := fun p => mem p (directories w);
  fs_is_regular_file := fun p => mem p (files w);
  fs_absolute :=
    fun p => if Posix.is_absolute p then p else Posix.path_append (cwd w) p;
  current_path := cwd w;
  directory_iterator := fun d => (children w d, None);
  recursive_directory_iterator := fun d => (descendants w d, None);
  parent_path := Posix.parent_path;
  has_parent_path := Posix.has_parent_path;
  is_absolute := Posix.is_absolute;
  filename := Posix.filename;
  stem := Posix.stem;
  extension := Posix.extension;
  path_append := Posix.path_append;
  ofstream_open := fun p => mem (Posix.parent_path p) (directories w);
  imread := image_of w;
  cvtColor_BGR2RGB := swap_red_blue;
  imwrite := fun _ _ => None;
  imwrite_bytes :=
    fun p m => if mem (Posix.parent_path p) (directories w) then Some (png m)
               else None;
  feature_extractor := extractor w
|}.

End Reference.

(** ** Reading a [--dranges] list

    What the words of the documentation mean for the tokens after
    [--dranges]: the numbers written in a token, and when one of them is
    positive, zero or negative. *)

(** The numbers written in one token: the token itself, or the non-empty
    pieces between its commas. *)
Definition token_pieces (tok : string) : list string :=
  let t := trim_ws tok in
  if Str.contains "," t then
    List.filter (fun p => negb (Str.is_empty p))
      (map trim_ws (Str.getlines "," t))
  else [t].

(** [t] is a number and its value is above zero. *)
Definition positive_piece (E : Env) (t : string) : bool :=
  is_positive_number_like t
  && match stod E t with
     | inr v => Double.gtb v Double.zero
     | inl _ => false
     end.

(** [t] is a number and its value is not above zero. *)
Definition zero_piece (E : Env) (t : string) : bool :=
  is_positive_number_like t
  && match stod E t with
     | inr v => negb (Double.gtb v Double.zero)
     | inl _ => false
     end.

(** [t] is a minus sign before a number. *)
Definition negative_piece (t : string) : bool :=
  match t with
  | String "-" u => is_positive_number_like u
  | _ => false
  end.

Definition nonpositive_piece (E : Env) (t : string) : bool :=
  zero_piece E t || negative_piece t.

(** The token, or the token without the white space around it, begins
    with a minus sign. *)
Definition dash_led (tok : string) : bool :=
  Ascii.eqb (Str.head tok) "-" || Ascii.eqb (Str.head (trim_ws tok)) "-".

(** The token begins with a minus sign and a digit, a point or a plus
    sign. *)
Definition starts_negative (tok : string) : bool :=
  match tok with
  | String "-" (String c _) =>
      Str.is_digit c || Ascii.eqb c "." || Ascii.eqb c "+"
  | _ => false
  end.

(** A token of one or more numbers, all positive. *)
Definition positive_token (E : Env) (tok : string) : bool :=
  negb (dash_led tok)
  && negb (length (token_pieces tok) =? 0)%nat
  && forallb (positive_piece E) (token_pieces tok).

(** Among the numbers [ps], those before the first one that is not
    positive are positive, and that one is zero or negative. *)
Fixpoint first_nonpositive (E : Env) (ps : list string) : bool :=
  match ps with
  | [] => false
  | p :: ps' =>
      nonpositive_piece E p || (positive_piece E p && first_nonpositive E ps')
  end.

(** A token with a number that is zero or negative. *)
Definition nonpositive_token (E : Env) (tok : string) : bool :=
  if dash_led tok then starts_negative tok
  else first_nonpositive E (token_pieces tok).

(** ** Options that depend on another

    The options whose value is read only when another option is given:
    their names, the member that the other option sets, the warning when
    it is not set, and the local variable that records that the option
    was given. *)

Inductive dependent :=
| DFgSize | DBgSize | DSmoothThreshold | DPruneThreshold
| DSSuffix | DFSuffix | DFactorDpi | DFactorPixels.

Definition option_names (d : dependent) : list string :=
  match d with
  | DFgSize => ["--fgsize"]
  | DBgSize => ["--bgsize"]
  | DSmoothThreshold => ["-st"; "--smooththreshold"]
  | DPruneThreshold => ["-pt"; "--prunethreshold"]
  | DSSuffix => ["--ssuffix"]
  | DFSuffix => ["--fsuffix"]
  | DFactorDpi => ["--factordpi"]
  | DFactorPixels => ["--factorpixels"]
  end.

Definition parent (d : dependent) (c : feature_config) : bool :=
  match d with
  | DFgSize => filterfgnoise c
  | DBgSize => filterbknoise c
  | DSmoothThreshold => enablesmooththresh c
  | DPruneThreshold => enableRootPruning c
  | DSSuffix => savesegmented c
  | DFSuffix => saveprocessed c
  | DFactorDpi | DFactorPixels => pixelconv c
  end.

Definition warning (d : dependent) : string :=
  match d with
  | DFgSize =>
      "Warning: --fgsize is set but --fgnoise is not enabled. Ignoring --fgsize."
  | DBgSize =>
      "Warning: --bgsize is set but --bgnoise is not enabled. Ignoring --bgsize."
  | DSmoothThreshold =>
      "Warning: --smooththreshold is set but --smooth is not enabled. Ignoring --smooththreshold."
  | DPruneThreshold =>
      "Warning: --prunethreshold is set but --prune is not enabled. Ignoring --prunethreshold."
  | DSSuffix =>
      "Warning: --ssuffix is set but --segment is not enabled. Ignoring --ssuffix."
  | DFSuffix =>
      "Warning: --fsuffix is set but --feature is not enabled. Ignoring --fsuffix."
  | DFactorDpi | DFactorPixels =>
      "Warning: Conversion factor provided but --convert is not set. Ignoring conversion factor."
  end.

Definition given (d : dependent) (s : parse_state) : bool :=
  match d with
  | DFgSize => fgsize s
  | DBgSize => bgsize s
  | DSmoothThreshold => smooththreshold s
  | DPruneThreshold => prunethresh s
  | DSSuffix => ssuffix s
  | DFSuffix => fsuffix s
  | DFactorDpi => dpi s
  | DFactorPixels => pixels s
  end.

(** The configuration [c] with the member that the option stores its
    value in taken from [from].  (A conversion factor is stored in a
    local variable and reaches the configuration only under
    [--convert].) *)
Definition stored (d : dependent) (from c : feature_config) : feature_config :=
  match d with
  | DFgSize => c <| maxcompsizefg := maxcompsizefg from |>
  | DBgSize => c <| maxcompsizebk := maxcompsizebk from |>
  | DSmoothThreshold => c <| smooththresh := smooththresh from |>
  | DPruneThreshold => c <| rootPruningThreshold := rootPruningThreshold from |>
  | DSSuffix => c <| segsuffix := segsuffix from |>
  | DFSuffix => c <| prosuffix := prosuffix from |>
  | DFactorDpi | DFactorPixels => c
  end.

(** The state without what the option leaves in it, and without the
    messages. *)
Definition forget (d : dependent) (s : parse_state) : parse_state :=
  let s := s <| cerr := [] |> in
  match d with
  | DFgSize => s <| fgsize := false |> <|| maxcompsizefg := Double.zero ||>
  | DBgSize => s <| bgsize := false |> <|| maxcompsizebk := Double.zero ||>
  | DSmoothThreshold =>
      s <| smooththreshold := false |> <|| smooththresh := Double.zero ||>
  | DPruneThreshold =>
      s <| prunethresh := false |> <|| rootPruningThreshold := 0%Z ||>
  | DSSuffix => s <| ssuffix := false |> <|| segsuffix := EmptyString ||>
  | DFSuffix => s <| fsuffix := false |> <|| prosuffix := EmptyString ||>
  | DFactorDpi => s <| dpi := false |> <| dpiFactor := Double.zero |>
  | DFactorPixels => s <| pixels := false |> <| pixelFactor := Double.zero |>
  end.

Definition step_result_map (f : parse_state -> parse_state) (x : step_result)
  : step_result :=
  match x with
  | Continue s r => Continue (f s) r
  | Return s => Return (f s)
  end.

Definition flow_map (f : parse_state -> parse_state) (x : flow) : flow :=
  match x with
  | Next s => Next (f s)
  | Done s => Done (f s)
  end.

(** ** The columns of the CSV file

    The header as the documentation describes it: a list of columns,
    each with a name and the kind of quantity it holds, whose unit is
    written after the name. *)

Inductive unit_kind := Plain | Length | Area | Volume | PerLength.

Definition unit_suffix (converted : bool) (k : unit_kind) : string :=
  match k with
  | Plain => EmptyString
  | Length => if converted then ".mm" else ".px"
  | Area => if converted then ".mm2" else ".px2"
  | Volume => if converted then ".mm3" else ".px3"
  | PerLength => if converted then ".per.mm" else ".per.px"
  end.

(** One series over the diameter ranges [1 .. n + 1]. *)
Definition range_series (label : string) (k : unit_kind) (n : nat)
  : list (string * unit_kind) :=
  map (fun i => (label ++ Str.of_nat (i + 1), k)) (seq 0 (n + 1)).

Definition binned_series (n : nat) : list (string * unit_kind) :=
  (range_series "Root.Length.Diameter.Range." Length n
   ++ range_series "Projected.Area.Diameter.Range." Area n
   ++ range_series "Surface.Area.Diameter.Range." Area n
   ++ range_series "Volume.Diameter.Range." Volume n)%list.

Definition whole_root_columns : list (string * unit_kind) :=
  [("File.Name", Plain); ("Region.of.Interest", Plain);
   ("Median.Number.of.Roots", Plain); ("Maximum.Number.of.Roots", Plain);
   ("Number.of.Root.Tips", Plain); ("Total.Root.Length", Length);
   ("Depth", Length); ("Maximum.Width", Length);
   ("Width-to-Depth.Ratio", Plain); ("Network.Area", Area);
   ("Convex.Area", Area); ("Solidity", Plain); ("Lower.Root.Area", Area);
   ("Average.Diameter", Length); ("Median.Diameter", Length);
   ("Maximum.Diameter", Length); ("Perimeter", Length); ("Volume", Volume);
   ("Surface.Area", Area); ("Holes", Plain); ("Average.Hole.Size", Area);
   ("Computation.Time.s", Plain); ("Average.Root.Orientation.deg", Plain);
   ("Shallow.Angle.Frequency", Plain); ("Medium.Angle.Frequency", Plain);
   ("Steep.Angle.Frequency", Plain)].

Definition broken_root_columns : list (string * unit_kind) :=
  [("File.Name", Plain); ("Region.of.Interest", Plain);
   ("Number.of.Root.Tips", Plain); ("Number.of.Branch.Points", Plain);
   ("Total.Root.Length", Length); ("Branching.frequency", PerLength);
   ("Network.Area", Area); ("Average.Diameter", Length);
   ("Median.Diameter", Length); ("Maximum.Diameter", Length);
   ("Perimeter", Length); ("Volume", Volume); ("Surface.Area", Area);
   ("Computation.Time.s", Plain)].

Definition header_columns (c : feature_config) : list (string * unit_kind) :=
  ((if (roottype c =? 0)%Z then whole_root_columns else broken_root_columns)
   ++ binned_series (length (dranges c)))%list.

Definition column_name (converted : bool) (col : string * unit_kind) : string :=
  fst col ++ unit_suffix converted (snd col).

(** The names with commas between them, and the end of the line. *)
Definition header_line (names : list string) : string :=
  match names with
  | [] => Str.nl
  | name :: names' =>
      name ++ Str.concat (map (fun x => "," ++ x) names') ++ Str.nl
  end.

(** ** Outcomes of a run *)

(** The run ended as a configuration error before any image was
    processed: an error was reported, the usage text was printed, the
    exit code is not zero, and no image file was loaded or analysed. *)
Definition rejected (prog : string) (o : outcome) : Prop :=
  (exists msg, In (Stderr ("Error: " ++ msg)) (events o))
  /\ In (Usage prog) (events o)
  /\ exit_code o <> 0%Z
  /\ (forall p, ~ In (Load p) (events o))
  /\ (forall p, ~ In (Extract p) (events o)).

(** The files that were loaded, in order. *)
Fixpoint loads (ev : list event) : list string :=
  match ev with
  | [] => []
  | Load p :: ev' => p :: loads ev'
  | _ :: ev' => loads ev'
  end.

(** What of a configuration the CSV file is written from, apart from
    the features. *)
Definition csv_settings (c : feature_config)
  : string * bool * bool * bool * Z * list double :=
  (outputFile c, noappend c, verbose c, pixelconv c, roottype c, dranges c).

(** ** A batch of images, as the documentation describes it

    Every image file is looked at on its own: it cannot be read, or an
    exception ends its analysis, or it is measured.  A failure is
    reported with the path of the image; the measured images give the
    rows of the table. *)

Inductive image_result :=
| Unreadable
| Aborted (what : string)
| Measured (features : list double).

Definition measured (r : image_result) : bool :=
  match r with
  | Measured _ => true
  | _ => false
  end.

(** The line that reports the failure on the image at [path]. *)
Definition failure_line (path : string) (r : image_result) : option string :=
  match r with
  | Unreadable => Some ("Error: Could not load image " ++ path)
  | Aborted what =>
      Some ("Error processing " ++ path ++ ": " ++ Str.nl ++ String Str.tab what)
  | Measured _ => None
  end.

(** The configuration the pipeline is called with for the file [f],
    when [c] is the configuration that the images before it left: the
    path and the name of the file, its image in red, green, blue order,
    and no features yet. *)
Definition pipeline_input (E : Env) (c : feature_config) (f : string)
  : feature_config :=
  let image := imread E f in
  c <| inputPath := f |> <| imagefilename := filename E f |>
    <| input := if (channels image =? 3)%Z then cvtColor_BGR2RGB E image
                else image |>
    <| features := [] |>.

(** The images to be saved for the file [f] once the pipeline has
    returned [x], in order, each with the path it goes to: the
    segmented image under [--segment] and the processed image under
    [--feature], when they are not empty. *)
Definition requested_images (E : Env) (c : feature_config) (f : string)
    (x : extraction) : list (string * Mat) :=
  let target suffix := path_append E (outputPath c) (stem E f ++ suffix ++ ".png") in
  let segmented :=
    if savesegmented c && negb (empty (ex_seg x))
    then [(target (segsuffix c), ex_seg x)] else [] in
  let processed :=
    if saveprocessed c && negb (empty (ex_processed x))
    then [(target (prosuffix c), ex_processed x)] else [] in
  (segmented ++ processed)%list.

(** The images are written one after the other until a write throws:
    the exception, if there was one, and the disk afterwards. *)
Fixpoint write_images (E : Env) (l : list (string * Mat))
    (disk : gmap string string) : option string * gmap string string :=
  match l with
  | [] => (None, disk)
  | (target, image) :: l' =>
      let disk' := match imwrite_bytes E target image with
                   | Some bytes => <[target := bytes]> disk
                   | None => disk
                   end in
      match imwrite E target image with
      | Some what => (Some what, disk')
      | None => write_images E l' disk'
      end
  end.

(** One image file: what became of it, the configuration it leaves to
    the next one, and the disk afterwards. *)
Definition examine (E : Env) (c : feature_config) (f : string)
    (disk : gmap string string)
  : image_result * feature_config * gmap string string :=
  if empty (imread E f) then (Unreadable, c <| inputPath := f |>, disk)
  else
    match feature_extractor E (pipeline_input E c f) with
    | inl what => (Aborted what, pipeline_input E c f, disk)
    | inr x =>
        let c' := (pipeline_input E c f)
                    <| features := ex_features x |> <| seg := ex_seg x |>
                    <| processed := ex_processed x |> in
        match write_images E (requested_images E c f x) disk with
        | (Some what, disk') => (Aborted what, c', disk')
        | (None, disk') => (Measured (ex_features x), c', disk')
        end
    end.

(** The files of a batch, one after the other, whatever became of the
    ones before: each file with its result, and the disk at the end. *)
Fixpoint batch_results (E : Env) (c : feature_config) (files : list string)
    (disk : gmap string string)
  : list (string * image_result) * gmap string string :=
  match files with
  | [] => ([], disk)
  | f :: files' =>
      let '(r, c', disk') := examine E c f disk in
      let '(rs, disk'') := batch_results E c' files' disk' in
      ((f, r) :: rs, disk'')
  end.

(** The measured files with their features, in order. *)
Fixpoint measurements (rs : list (string * image_result))
  : list (string * list double) :=
  match rs with
  | [] => []
  | (f, Measured x) :: rs' => (f, x) :: measurements rs'
  | _ :: rs' => measurements rs'
  end.

(** ** The rows of the table, as the documentation describes them *)

(** The precision of a value that is neither zero nor undefined:
    [ceil(log10(|value|)) + 6], as an [int]. *)
Definition feature_precision (E : Env) (value : double) : Z :=
  Double.to_int
    (Double.add (ceil E (log10 E (Double.abs value))) (Double.of_Z 6)).

(** The text of a value: [NA] for a NaN or an infinity, the value at
    precision 6 when it is zero, else the value at its precision. *)
Definition encode_feature (E : Env) (value : double) : string :=
  if Double.isnan value || Double.isinf value then "NA"
  else if Double.eqb value Double.zero then show_double E 6 value
  else show_double E (feature_precision E value) value.

(** A row: the name of the file, the name of the region and the values,
    with commas between them, and the end of the line. *)
Definition table_row (E : Env) (path roi : string) (features : list double)
  : string :=
  String.concat "," (filename E path :: roi :: map (encode_feature E) features)
    ++ Str.nl.

(** The rows of the measured files of a batch, whose region is the
    whole image. *)
Definition table_rows (E : Env) (ms : list (string * list double)) : string :=
  Str.concat (map (fun m => table_row E (fst m) "Full" (snd m)) ms).

(** The number of significant digits that the text of a number shows:
    the digits of its mantissa from the first one that is not zero. *)
Fixpoint count_digits (started : bool) (text : string) : Z :=
  match text with
  | EmptyString => 0
  | String c text' =>
      if Ascii.eqb c "e" || Ascii.eqb c "E" then 0
      else if Str.is_digit c then
        if started || negb (Ascii.eqb c "0")
        then (1 + count_digits true text')%Z
        else count_digits false text'
      else count_digits started text'
  end.

Definition significant_digits (text : string) : Z := count_digits false text.




(** ** A small world for examples *)

Module Sample.

Definition pixel : Mat :=
  {| rows := 1; cols := 1; channels := 3; samples := [10; 20; 30]%Z |}.

Definition measured : extraction :=
  {| ex_features :=
       [Double.of_Z 3; Double.zero; S754_nan; Glibc.atof "0.001234";
        Glibc.atof "123456.7"; S754_infinity false];
     ex_seg := pixel;
     ex_processed := pixel |}.

(** A directory [/data] with two good images, one file that is not an
    image, one image file that cannot be read, and one that makes the
    pipeline throw. *)
Definition world : Reference.world := {|
  Reference.directories := ["/"; "/data"];
  Reference.files :=
    ["/data/a.png"; "/data/notes.txt"; "/data/broken.png"; "/data/odd.jpg";
     "/data/z.tif"];
  Reference.cwd := "/data";
  Reference.image_of :=
    fun p => if p =? "/data/broken.png" then Mat_default else pixel;
  Reference.extractor :=
    fun c =>
      if inputPath c =? "/data/odd.jpg" then inl "degenerate skeleton"
      else inr measured
|}.

Definition E : Env := Reference.env world.



(** A directory named [2], with one image, below the working
    directory. *)
Definition numbered_world : Reference.world := {|
  Reference.directories := ["/"; "/data"; "2"];
  Reference.files := ["2/a.png"];
  Reference.cwd := "/data";
  Reference.image_of := fun _ => pixel;
  Reference.extractor := fun _ => inr measured
|}.

Definition E_numbered : Env := Reference.env numbered_world.

End Sample.

(** ** Vocabulary of the proofs *)

(** The state after the block on broken roots. *)
Definition overlays_off (s : parse_state) : parse_state :=
  (say "Warning: Convex hull, holes, and contours options are ignored for broken roots." s)
    <|| showConvexHull := false ||>
    <|| showHoles := false ||>
    <|| showContours := false ||>.

(** The three overlays are on for as long as the loop runs. *)
Definition overlays_on (s : parse_state) : Prop :=
  showConvexHull (config s) = true
  /\ showHoles (config s) = true
  /\ showContours (config s) = true.

(** The argument asks for the convex hull, the holes or the contours:
    [-ch], [-ho], [-co] or one of their long names. *)
Definition asks_overlay (a : string) : bool :=
  match classify a with
  | OConvexHull | OHoles | OContours => true
  | _ => false
  end.

(** The loop has read such an argument, or it has not. *)
Definition overlay_asked (s : parse_state) : Prop :=
  convexhull s || holes s || contours s = true.

Definition no_overlay_asked (s : parse_state) : Prop :=
  convexhull s || holes s || contours s = false.

Definition overlay_warning : string :=
  "Warning: Convex hull, holes, and contours options are ignored for broken roots.".

(** None of the three was asked for, and the warning about them was not
    written unless the usage text is asked for. *)
Definition overlays_untouched (s : parse_state) : Prop :=
  no_overlay_asked s
  /\ (showHelp (config s) = true \/ ~ In overlay_warning (cerr s)).

(** Once set, [showHelp] stays set, and what was written to [std::cerr]
    stays written. *)
Definition complained (msg : string) (s : parse_state) : Prop :=
  showHelp (config s) = true /\ In msg (cerr s).

(** A block commutes with forgetting, from a state in which the option
    that the dependent one needs was not given. *)
Definition commutes (d : dependent) (f : parse_state -> flow) : Prop :=
  forall s, parent d (config s) = false ->
    flow_map (forget d) (f s) = flow_map (forget d) (f (forget d s)).

Definition keeps_parent (d : dependent) (f : parse_state -> flow) : Prop :=
  forall s, parent d (config (returned (f s))) = parent d (config s).

(** The three vectors of [main] after the measured files [ms] were
    added to them. *)
Definition batch_extend (b : batch) (ms : list (string * list double)) : batch :=
  {| allFeatures := (allFeatures b ++ map snd ms)%list;
     processedFiles := (processedFiles b ++ map fst ms)%list;
     roinames := (roinames b ++ repeat "Full" (length ms))%list |}.

(** The rows that [writeResultsToCsv] is given, one for each index. *)
Definition row_data (imageFiles roiNames : list string)
    (allFeatures : list (list double)) : list (string * string * list double) :=
  combine (combine imageFiles roiNames) allFeatures.

(** The disk after the rows of the measured files [ms] were sent to
    the file of results: when the stream opens, the file holds what it
    held, then the header when the file was not there or [--noappend]
    is set, then the rows. *)
Definition results_written (E : Env) (c : feature_config)
    (ms : list (string * list double)) (disk : gmap string string)
  : gmap string string :=
  if ofstream_open E (outputFile c) then
    <[outputFile c :=
        default EmptyString (disk !! outputFile c)
        ++ (if negb (bool_decide (is_Some (disk !! outputFile c)))
               || noappend c
            then writeCsvHeader c else EmptyString)
        ++ table_rows E ms]> disk
  else disk.

(** ** Lines on [std::cerr] and runs that end at the command line *)

(** The line reports an error. *)
Definition is_error (line : string) : bool := Str.starts_with "Error: " line.

(** The usage text is asked for exactly when an error was reported or
    help was asked for: [l] is what was written to [std::cerr], [h] and
    [hm] are [showHelp] and [showHelpMain]. *)
Definition explained_of (l : list string) (h hm : bool) : Prop :=
  ((exists line, In line l /\ is_error line = true) -> h = true)
  /\ (h = true -> hm = true \/ exists line, In line l /\ is_error line = true).

Definition explained (s : parse_state) : Prop :=
  explained_of (cerr s) (showHelp (config s)) (showHelpMain (config s)).

(** The run ended at the command line: [msg] was written to [std::cerr]
    and the usage text printed, no image was loaded or analysed, the disk
    is as it was, and the exit code is 1, or 0 when [-h] or [--help] is
    among the arguments. *)
Definition refused (msg : string) (argv : list string)
    (disk : gmap string string) (o : outcome) : Prop :=
  In (Stderr msg) (events o)
  /\ In (Usage (hd EmptyString argv)) (events o)
  /\ loads (events o) = []
  /\ (forall p, ~ In (Extract p) (events o))
  /\ disk_after o = disk
  /\ (exit_code o = 1%Z
      \/ exit_code o = 0%Z /\ (In "-h" (tl argv) \/ In "--help" (tl argv))).

(** The options that read the argument after them, and the name by
    which the complaint about a missing argument calls them. *)
Definition takes_value (k : option_kind) : bool :=
  match k with
  | OOutputPath | OOutput | OMetafile | ORootType | OThreshold
  | OBgSize | OFgSize | OSmoothThreshold | OFactorDpi | OFactorPixels
  | OPruneThreshold | OSSuffix | OFSuffix | OMedialAxisWidth
  | OContourWidth => true
  | _ => false
  end.

Definition long_name (k : option_kind) : string :=
  match k with
  | OOutputPath => "--output_path"
  | OOutput => "--output"
  | OMetafile => "--metafile"
  | ORootType => "--roottype"
  | OThreshold => "--threshold"
  | OBgSize => "--bgsize"
  | OFgSize => "--fgsize"
  | OSmoothThreshold => "--smooththreshold"
  | OFactorDpi => "--factordpi"
  | OFactorPixels => "--factorpixels"
  | OPruneThreshold => "--prunethreshold"
  | OSSuffix => "--ssuffix"
  | OFSuffix => "--fsuffix"
  | OMedialAxisWidth => "--medialaxiswidth"
  | OContourWidth => "--contourwidth"
  | _ => EmptyString
  end.

(** The members that [parseCommandLine] checks before it stores them. *)
Definition in_range (s : parse_state) : Prop :=
  (roottype (config s) = 0%Z \/ roottype (config s) = 1%Z)
  /\ (0 <= threshold (config s) <= 255)%Z.

(** Help was asked for. *)
Definition helped (s : parse_state) : Prop :=
  showHelp (config s) = true /\ showHelpMain (config s) = true.

(** ** Where the results go *)

(** The directory of the input: the input path itself when it is a
    directory, else the directory it lies in. *)
Definition input_directory (E : Env) (inPath : string) : string :=
  if fs_is_directory E inPath then inPath
  else if has_parent_path E inPath && negb (Str.is_empty (parent_path E inPath))
       then parent_path E inPath
       else parent_path E (fs_absolute E inPath).

(** A configuration without the members that [main] and [analyzeImage]
    assign once the command line is parsed. *)
Definition settings (c : feature_config) : feature_config :=
  c <| consolemode := false |>
    <| inputPath := EmptyString |> <| imagefilename := EmptyString |>
    <| input := Mat_default |> <| features := [] |>
    <| seg := Mat_default |> <| processed := Mat_default |>.

(** Where [analyzeImage] writes an image of the file [f]. *)
Definition image_target (E : Env) (c : feature_config) (f suffix : string)
  : string :=
  path_append E (outputPath c) (stem E f ++ suffix ++ ".png").

(** [p] is where the segmented or the processed image of [f] goes, and
    that image was asked for. *)
Definition saves_of (E : Env) (c : feature_config) (f p : string) : Prop :=
  (savesegmented c = true /\ p = image_target E c f (segsuffix c))
  \/ (saveprocessed c = true /\ p = image_target E c f (prosuffix c)).

(** The cut points are the initial ones or none. *)
Definition initial_or_no_cut_points (s : parse_state) : Prop :=
  dranges (config s) = [] \/ dranges (config s) = [Double.of_Z 2; Double.of_Z 5].

(** The paths that [cv::imwrite] was called on, in order. *)
Fixpoint saved (ev : list event) : list string :=
  match ev with
  | [] => []
  | Save p :: ev' => p :: saved ev'
  | _ :: ev' => saved ev'
  end.

(** ** White space around a token *)

(** [c] is one of the four characters that [trim_ws] removes. *)
Definition is_ws (c : ascii) : bool := Str.contains c ws.

Fixpoint all_ws (s : string) : bool :=
  match s with
  | EmptyString => true
  | String c s' => is_ws c && all_ws s'
  end.

(** The last character of a string; as for [Str.head], the terminating
    zero when there is none. *)
Fixpoint last_char (s : string) : ascii :=
  match s with
  | EmptyString => zero
  | String c EmptyString => c
  | String _ s' => last_char s'
  end.

(** ** The pattern of a positive number

    The regular expression of [is_positive_number_like], as a term, and
    what it is for a string to match one. *)

Inductive regex :=
| Eps
| Chr (c : ascii)
| Digit
| Seq (r1 r2 : regex)
| Alt (r1 r2 : regex)
| Star (r : regex).

Inductive matches : regex -> string -> Prop :=
| matches_eps : matches Eps EmptyString
| matches_chr c : matches (Chr c) (String c EmptyString)
| matches_digit c :
    Str.is_digit c = true -> matches Digit (String c EmptyString)
| matches_seq r1 r2 s1 s2 :
    matches r1 s1 -> matches r2 s2 -> matches (Seq r1 r2) (s1 ++ s2)
| matches_alt_l r1 r2 s : matches r1 s -> matches (Alt r1 r2) s
| matches_alt_r r1 r2 s : matches r2 s -> matches (Alt r1 r2) s
| matches_star_nil r : matches (Star r) EmptyString
| matches_star_cons r s1 s2 :
    matches r s1 -> matches (Star r) s2 -> matches (Star r) (s1 ++ s2).

(** [r?] and [r+] *)
Definition Opt (r : regex) : regex := Alt r Eps.
Definition Plus (r : regex) : regex := Seq r (Star r).

(** The mantissa: digits with an optional point and more digits after
    them, or a point and digits. *)
Definition mantissa_pattern : regex :=
  Alt (Seq (Plus Digit) (Opt (Seq (Chr ".") (Star Digit))))
      (Seq (Chr ".") (Plus Digit)).

(** The exponent: [e] or [E], an optional sign, digits. *)
Definition exponent_pattern : regex :=
  Seq (Alt (Chr "e") (Chr "E"))
      (Seq (Opt (Alt (Chr "+") (Chr "-"))) (Plus Digit)).

(** The whole pattern, between the anchors: an optional [+], the
    mantissa, an optional exponent. *)
Definition number_pattern : regex :=
  Seq (Opt (Chr "+")) (Seq mantissa_pattern (Opt exponent_pattern)).

(** A token that cannot belong to a [--dranges] list: it begins with a
    minus sign, or it has no comma and is not written like a number. *)
Definition ends_list (tok : string) : bool :=
  dash_led tok
  || (negb (Str.contains "," (trim_ws tok))
      && negb (is_positive_number_like (trim_ws tok))).

(** ** The names in the header *)

(** The names of one series of columns over the diameter ranges. *)
Definition series_names (converted : bool) (label : string) (k : unit_kind)
    (n : nat) : list string :=
  map (column_name converted) (range_series label k n).

(** The name is one of a series over the diameter ranges. *)
Definition is_binned (name : string) : bool :=
  Str.starts_with "Root.Length.Diameter.Range." name
  || Str.starts_with "Projected.Area.Diameter.Range." name
  || Str.starts_with "Surface.Area.Diameter.Range." name
  || Str.starts_with "Volume.Diameter.Range." name.

(** ** The conversion factor *)

(** What the block on the conversion factor assigns to [conversion] and
    [pixelspermm]. *)
Definition chosen_conversion (s : parse_state) : double * Z :=
  if pixelconv (config s) then
    if pixels s then (pixelFactor s, 1%Z)
    else if dpi s then (dpiFactor s, 0%Z)
    else (Double.one, 0%Z)
  else (Double.one, 0%Z).

(** A factor in pixels per millimetre was read and is [v]. *)
Definition pixel_factor_is (v : double) (s : parse_state) : Prop :=
  pixels s = true /\ pixelFactor s = v.

(** A factor in dots per inch was read and is [v], and none in pixels
    per millimetre. *)
Definition dpi_factor_is (v : double) (s : parse_state) : Prop :=
  pixels s = false /\ dpi s = true /\ dpiFactor s = v.

(** * Properties *)

(** ** The loop over the arguments *)

Section Loop.

Variable E : Env.

Lemma dranges_loop_suffix r : forall s s' r',
  dranges_loop E s r = Continue s' r' -> exists pre, r = (pre ++ r')%list.
Proof.
  induction r as [|next r IH]; intros s s' r' H; cbn [dranges_loop] in H.
  - inversion H; subst. now exists [].
  - destruct (negb (Str.is_empty next) && Ascii.eqb (Str.head next) "-").
    + inversion H; subst. now exists [].
    + destruct (consume_drange_token E next (dranges (config s)))
        as [[was out] err].
      destruct (negb was).
      * inversion H; subst. now exists [].
      * destruct (negb (Str.is_empty err)); [discriminate|].
        apply IH in H as [pre ->]. now exists (next :: pre).
Qed.

(** A turn of the loop leaves a suffix of the arguments it was given. *)
Lemma step_suffix s a r s' r' :
  step E s a r = Continue s' r' -> exists pre, r = (pre ++ r')%list.
Proof.
  unfold step, with_value.
  destruct (classify a); try (intros H; inversion H; subst; now exists []);
    try (destruct r as [|v r]; intros H; inversion H; subst;
         [now exists [] | now exists [v]]).
  - apply dranges_loop_suffix.
  - destruct (Str.is_empty _); intros H; inversion H; subst; now exists [].
Qed.

Lemma step_shrinks s a r s' r' :
  step E s a r = Continue s' r' -> (length r' <= length r)%nat.
Proof.
  intros H. apply step_suffix in H as [pre ->]. rewrite length_app. lia.
Qed.

(** The loop never runs out of fuel: any two amounts that cover the
    arguments give the same result. *)
Lemma parse_loop_fuel n : forall m s args,
  (length args <= n)%nat -> (length args <= m)%nat ->
  parse_loop E n s args = parse_loop E m s args.
Proof.
  induction n as [|n IH]; intros m s args Hn Hm.
  - destruct args; [destruct m; reflexivity | simpl in Hn; lia].
  - destruct args as [|a r]; [destruct m; reflexivity|].
    destruct m as [|m]; [simpl in Hm; lia|].
    simpl in *. destruct (step E s a r) as [s' r'|s'] eqn:Hs; [|reflexivity].
    pose proof (step_shrinks _ _ _ _ _ Hs). apply IH; lia.
Qed.

Lemma reaches_parse_loop s args s' rest :
  reaches E s args s' rest ->
  (length rest <= length args)%nat
  /\ parse_loop E (length args) s args = parse_loop E (length rest) s' rest.
Proof.
  induction 1 as [|s a r s1 r1 s2 r2 Hs _ [Hle IH]];
    [split; [lia|reflexivity]|].
  pose proof (step_shrinks _ _ _ _ _ Hs). split; [simpl; lia|].
  simpl. rewrite Hs, <- IH. apply parse_loop_fuel; lia.
Qed.

(** Where the loop stands, the function goes on from. *)
Lemma reaches_parse_from s args s' rest :
  reaches E s args s' rest -> parse_from E s args = parse_from E s' rest.
Proof.
  intros H. unfold parse_from.
  now destruct (reaches_parse_loop _ _ _ _ H) as [_ ->].
Qed.

Lemma reaches_suffix s args s' rest :
  reaches E s args s' rest -> exists pre, args = (pre ++ rest)%list.
Proof.
  induction 1 as [|s a r s1 r1 s2 r2 Hs _ [pre IH]]; [now exists []|].
  apply step_suffix in Hs as [pre' ->]. exists (a :: pre' ++ pre)%list.
  rewrite IH. simpl. now rewrite app_assoc.
Qed.

(** An invariant of the turns of the loop is an invariant of the loop;
    [A] is any property of the arguments. *)
Lemma parse_loop_inv (P : parse_state -> Prop) (A : string -> Prop) :
  (forall s a r, P s -> A a ->
     match step E s a r with
     | Continue s' _ => P s'
     | Return s' => P s'
     end) ->
  forall fuel s args, Forall A args -> P s -> P (fst (parse_loop E fuel s args)).
Proof.
  intros Hstep. induction fuel as [|fuel IH]; intros s args HA HP.
  - destruct args; exact HP.
  - destruct args as [|a r]; [exact HP|]. simpl.
    inversion HA as [|? ? Ha Hr]; subst.
    specialize (Hstep s a r HP Ha).
    destruct (step E s a r) as [s' r'|s'] eqn:Hs; [|exact Hstep].
    apply IH; [|exact Hstep].
    apply step_suffix in Hs as [pre ->]. now apply Forall_app in Hr as [_ ?].
Qed.

(** What [--dranges] does to the state: it assigns the vector and, on an
    error, complains and returns. *)
Lemma dranges_loop_effect r : forall s,
  exists out,
    (exists r', dranges_loop E s r = Continue (s <|| dranges := out ||>) r')
    \/ (exists msg,
          dranges_loop E s r = Return (complain msg (s <|| dranges := out ||>))).
Proof.
  induction r as [|next r IH]; intros s; cbn [dranges_loop].
  - exists (dranges (config s)). left. exists [].
    destruct s as [c]; destruct c; reflexivity.
  - destruct (negb (Str.is_empty next) && Ascii.eqb (Str.head next) "-").
    + exists (dranges (config s)). left. exists (next :: r).
      destruct s as [c]; destruct c; reflexivity.
    + destruct (consume_drange_token E next (dranges (config s)))
        as [[was out] err].
      destruct (negb was); [exists out; left; eauto|].
      destruct (negb (Str.is_empty err)); [exists out; right; eauto|].
      destruct (IH (s <|| dranges := out ||>)) as [out' [[r' H]|[msg H]]];
        exists out'; [left; exists r'|right; exists msg]; rewrite H; reflexivity.
Qed.

(** A [return] inside the loop is a complaint. *)
Lemma step_return_showHelp s a r s' :
  step E s a r = Return s' -> showHelp (config s') = true.
Proof.
  unfold step, with_value.
  destruct (classify a); try discriminate;
    try (destruct r; discriminate).
  - destruct (dranges_loop_effect r (s <|| dranges := [] ||>))
      as [out [[r' ->]|[msg ->]]]; [discriminate|].
    intros H; inversion H; subst. reflexivity.
  - destruct (Str.is_empty _); discriminate.
Qed.

Lemma parse_loop_return_showHelp fuel : forall s args s',
  parse_loop E fuel s args = (s', true) -> showHelp (config s') = true.
Proof.
  induction fuel as [|fuel IH]; intros s args s' H.
  - destruct args; discriminate.
  - destruct args as [|a r]; [discriminate|]. simpl in H.
    destruct (step E s a r) as [s1 r1|s1] eqn:Hs; [eauto|].
    inversion H; subst. eapply step_return_showHelp; eauto.
Qed.

End Loop.

(** Case analysis on a turn of the loop. *)
Ltac step_cases E s a r :=
  unfold step, with_value;
  destruct (classify a);
  try (destruct (dranges_loop_effect E r (s <|| dranges := [] ||>))
         as [? [[? ->]|[? ->]]]);
  try destruct r;
  repeat match goal with
         | |- context [if ?b then _ else _] => destruct b
         end.

(** ** After the loop *)

Section AfterLoop.

Variable E : Env.

Lemma put_config_same s : s <| config := config s |> = s.
Proof. destruct s; reflexivity. Qed.

Lemma check_input_path_effect s :
  (Str.is_empty (inputPath (config s)) = false /\ check_input_path s = Next s)
  \/ (Str.is_empty (inputPath (config s)) = true
      /\ (check_input_path s = Done s
          \/ check_input_path s
             = Done (complain "Error: No input path specified." s))).
Proof.
  unfold check_input_path. destruct (Str.is_empty _); [right|left]; split; auto.
  destruct (negb _); auto.
Qed.

Lemma default_output_path_effect s :
  exists p, default_output_path E s = Next (s <|| outputPath := p ||>).
Proof.
  unfold default_output_path.
  destruct (Str.is_empty (outputPath (config s))).
  - destruct (negb _); [destruct (fs_is_directory E _)|]; eauto.
  - exists (outputPath (config s)). destruct s as [c]; destruct c; reflexivity.
Qed.

Lemma check_output_path_effect s :
  check_output_path E s = Next s
  \/ exists msg, check_output_path E s = Done (complain msg s).
Proof.
  unfold check_output_path. destruct (negb _); eauto.
Qed.

Lemma resolve_output_file_effect s :
  (exists f, resolve_output_file E s = Next (s <|| outputFile := f ||>))
  \/ exists msg, resolve_output_file E s = Done (complain msg s).
Proof.
  unfold resolve_output_file.
  destruct (negb (Str.is_empty _)); [|eauto].
  destruct (fs_is_directory E _); [eauto|].
  destruct (is_absolute E _);
    match goal with |- context [if ?b then _ else _] => destruct b end; eauto.
Qed.

Lemma broken_root_overlays_effect s :
  ((roottype (config s) =? 1)%Z && (convexhull s || holes s || contours s) = true
   /\ broken_root_overlays s = Next (overlays_off s))
  \/ ((roottype (config s) =? 1)%Z && (convexhull s || holes s || contours s) = false
      /\ broken_root_overlays s = Next s).
Proof.
  unfold broken_root_overlays. destruct (_ && _); auto.
Qed.

Lemma put_cerr_nil s : s <| cerr := (cerr s ++ [])%list |> = s.
Proof. destruct s; cbn. now rewrite app_nil_r. Qed.

Lemma say_appended msg s : say msg s = s <| cerr := (cerr s ++ [msg])%list |>.
Proof. reflexivity. Qed.

(** The block on the conversion factor assigns [conversion] and
    [pixelspermm] and may write a warning; without [--convert] the
    factor is 1, and a factor that was given is warned about. *)
Lemma conversion_factor_effect s :
  exists l v k,
    conversion_factor s
    = Next (s <| cerr := (cerr s ++ l)%list |>
              <|| conversion := v ||> <|| pixelspermm := k ||>)
    /\ (pixelconv (config s) = false ->
        v = Double.one /\ k = 0%Z
        /\ (dpi s || pixels s = true -> In (warning DFactorDpi) l)).
Proof.
  unfold conversion_factor.
  destruct (pixelconv (config s)).
  - destruct (pixels s); [destruct (dpi s)|destruct (dpi s)].
    + eexists [_], _, _. split; [reflexivity | discriminate].
    + eexists [], _, _. rewrite put_cerr_nil. split; [reflexivity | discriminate].
    + eexists [], _, _. rewrite put_cerr_nil. split; [reflexivity | discriminate].
    + eexists [], _, _. rewrite put_cerr_nil. split; [reflexivity | discriminate].
  - destruct (dpi s || pixels s).
    + eexists [_], _, _. split; [reflexivity|].
      intros _. repeat split. intros _. now left.
    + eexists [], _, _. rewrite put_cerr_nil. split; [reflexivity|].
      intros _. repeat split. discriminate.
Qed.

Lemma check_dranges_sorted_effect s :
  check_dranges_sorted s = Next s
  \/ exists msg, check_dranges_sorted s = Done (complain msg s).
Proof.
  unfold check_dranges_sorted. destruct (_ && _); eauto.
Qed.

Lemma validate_dranges_effect s :
  validate_dranges E s = Next s
  \/ exists msg, validate_dranges E s = Done (complain msg s).
Proof.
  unfold validate_dranges. destruct (dranges_error _ _ _); eauto.
Qed.

Lemma warn_if_appended b msg s :
  warn_if b msg s = s <| cerr := (cerr s ++ if b then [msg] else [])%list |>.
Proof.
  destruct b; [reflexivity|]. cbn [warn_if]. now rewrite put_cerr_nil.
Qed.

(** The six warnings leave everything but [std::cerr] as it is, and an
    option that was given without the one it depends on is warned
    about. *)
Lemma dependent_option_warnings_effect s :
  exists l,
    dependent_option_warnings s = Done (s <| cerr := (cerr s ++ l)%list |>)
    /\ forall d, given d s = true -> parent d (config s) = false ->
                 d <> DFactorDpi -> d <> DFactorPixels ->
                 In (warning d) l.
Proof.
  unfold dependent_option_warnings. cbv zeta.
  rewrite !warn_if_appended. cbn.
  rewrite <- !app_assoc. eexists. split; [reflexivity|].
  intros d Hg Hp Hd1 Hd2. rewrite !in_app_iff.
  destruct d; cbn in Hg, Hp; try congruence; rewrite Hg, Hp; cbn; tauto.
Qed.

End AfterLoop.

(** Case analysis on the blocks after the loop, one block at a time. *)
Ltac after_loop_step E :=
  cbn [and_then returned];
  match goal with
  | |- context [check_input_path ?x] =>
      destruct (check_input_path_effect x) as [[? ->]|[? [-> | ->]]]
  | |- context [default_output_path E ?x] =>
      destruct (default_output_path_effect E x) as [? ->]
  | |- context [check_output_path E ?x] =>
      destruct (check_output_path_effect E x) as [-> | [? ->]]
  | |- context [resolve_output_file E ?x] =>
      destruct (resolve_output_file_effect E x) as [[? ->] | [? ->]]
  | |- context [broken_root_overlays ?x] =>
      destruct (broken_root_overlays_effect x) as [[? ->] | [? ->]]
  | |- context [conversion_factor ?x] =>
      destruct (conversion_factor_effect x) as (? & ? & ? & -> & ?)
  | |- context [check_dranges_sorted ?x] =>
      destruct (check_dranges_sorted_effect x) as [-> | [? ->]]
  | |- context [validate_dranges E ?x] =>
      destruct (validate_dranges_effect E x) as [-> | [? ->]]
  | |- context [dependent_option_warnings ?x] =>
      destruct (dependent_option_warnings_effect x) as (? & -> & ?)
  end.

Ltac after_loop_cases E := unfold after_loop; repeat after_loop_step E.

(** ** The largest component *)

Section KeepLargest.

Variable E : Env.

Lemma step_keepLargest s a r :
  keepLargest (config s) = true ->
  match step E s a r with
  | Continue s' _ => keepLargest (config s') = true
  | Return s' => keepLargest (config s') = true
  end.
Proof.
  intros H. step_cases E s a r; cbn; auto.
Qed.

Lemma after_loop_keepLargest s :
  keepLargest (config (returned (after_loop E s))) = keepLargest (config s).
Proof.
  after_loop_cases E; reflexivity.
Qed.

(** C10.  Whatever the command line, the configuration that
    [parseCommandLine] returns has [keepLargest] set: the member starts
    out [true] and the one option that assigns it, [-kl] or
    [--keeplargest], assigns [true]. *)
Theorem keepLargest_always_set (argv : list string) :
  keepLargest (parseCommandLine E argv) = true.
Proof.
  unfold parseCommandLine, parse, parse_from.
  pose proof (parse_loop_inv E
                (fun s => keepLargest (config s) = true) (fun _ => True)
                (fun s a r H _ => step_keepLargest s a r H)
                (length (tl argv)) parse_state_init (tl argv)) as Hinv.
  destruct (parse_loop E (length (tl argv)) parse_state_init (tl argv))
    as [s [|]]; cbn [fst] in Hinv.
  - apply Hinv; [apply Forall_forall; auto | reflexivity].
  - rewrite after_loop_keepLargest.
    apply Hinv; [apply Forall_forall; auto | reflexivity].
Qed.

End KeepLargest.
(** ** Overlays for broken roots *)

Section Overlays.

Variable E : Env.

Lemma step_overlays_on s a r :
  overlays_on s ->
  match step E s a r with
  | Continue s' _ => overlays_on s'
  | Return s' => overlays_on s'
  end.
Proof.
  unfold overlays_on. intros (H1 & H2 & H3).
  step_cases E s a r; cbn; auto.
Qed.

Lemma parse_loop_overlays_on fuel args :
  overlays_on (fst (parse_loop E fuel parse_state_init args)).
Proof.
  apply (parse_loop_inv E overlays_on (fun _ => True)).
  - intros s a r H _. now apply step_overlays_on.
  - apply Forall_forall; auto.
  - repeat split.
Qed.

(** What the function returns, by the three local variables at its
    end. *)
Lemma overlays_follow_locals (argv : list string) :
  let s := parse E argv in
  let c := config s in
  accepted c = true ->
  roottype c = 1%Z ->
  if convexhull s || holes s || contours s then
    showConvexHull c = false /\ showHoles c = false /\ showContours c = false
    /\ In overlay_warning (cerr s)
  else
    showConvexHull c = true /\ showHoles c = true /\ showContours c = true.
Proof.
  unfold parse, parse_from, accepted.
  pose proof (parse_loop_overlays_on (length (tl argv)) (tl argv)) as Hon.
  destruct (parse_loop E (length (tl argv)) parse_state_init (tl argv))
    as [s [|]] eqn:Hloop; cbn [fst] in Hon; cbv zeta.
  - apply parse_loop_return_showHelp in Hloop. rewrite Hloop. discriminate.
  - destruct Hon as (H1 & H2 & H3).
    after_loop_cases E; cbn; intros Hacc Hrt.
    all: try discriminate.
    all: try (match goal with
              | Hi : Str.is_empty _ = true |- _ =>
                  rewrite Hi, andb_false_r in Hacc; discriminate
              end).
    all: match goal with
         | Hf : (_ =? 1)%Z && _ = _ |- _ =>
             cbn in Hf; rewrite Hrt in Hf; cbn [Z.eqb Pos.eqb andb] in Hf;
             rewrite Hf
         end.
    all: repeat split; auto.
    all: rewrite ?in_app_iff; simpl; tauto.
Qed.

(** The three local variables are set by the three options and by
    nothing else, and never cleared. *)
Lemma step_overlay_asked s a r :
  overlay_asked s ->
  match step E s a r with
  | Continue s' _ => overlay_asked s'
  | Return s' => overlay_asked s'
  end.
Proof.
  unfold overlay_asked. intros H.
  step_cases E s a r; cbn; rewrite ?orb_true_r; auto.
Qed.

Lemma step_asks_overlay s a r :
  asks_overlay a = true ->
  exists s', step E s a r = Continue s' r /\ overlay_asked s'.
Proof.
  unfold asks_overlay, overlay_asked, step.
  destruct (classify a); try discriminate; intros _;
    eexists; (split; [reflexivity|]); cbn; now rewrite ?orb_true_r.
Qed.

Lemma step_no_overlay_asked s a r :
  asks_overlay a = false ->
  no_overlay_asked s ->
  match step E s a r with
  | Continue s' _ => no_overlay_asked s'
  | Return s' => no_overlay_asked s'
  end.
Proof.
  unfold asks_overlay, no_overlay_asked. intros Ha H.
  unfold step, with_value.
  destruct (classify a); try discriminate;
    try (destruct (dranges_loop_effect E r (s <|| dranges := [] ||>))
           as [? [[? ->]|[? ->]]]);
    try destruct r;
    repeat match goal with
           | |- context [if ?b then _ else _] => destruct b
           end; exact H.
Qed.

Lemma after_loop_locals s :
  convexhull (returned (after_loop E s)) = convexhull s
  /\ holes (returned (after_loop E s)) = holes s
  /\ contours (returned (after_loop E s)) = contours s.
Proof.
  after_loop_cases E; repeat split; reflexivity.
Qed.

(** An invariant of the turns of the loop on the arguments that the
    loop reads as options is an invariant of the loop. *)
Lemma parse_loop_inv_read (P : parse_state -> Prop) (A : string -> Prop) :
  (forall s a r, P s -> A a ->
     match step E s a r with
     | Continue s' _ => P s'
     | Return s' => P s'
     end) ->
  forall fuel s args,
    (forall s0 a rest, reaches E s args s0 (a :: rest) -> A a) ->
    P s -> P (fst (parse_loop E fuel s args)).
Proof.
  intros Hstep. induction fuel as [|fuel IH]; intros s args HA HP.
  - destruct args; exact HP.
  - destruct args as [|a r]; [exact HP|]. simpl.
    specialize (Hstep s a r HP (HA s a r (reaches_here E s (a :: r)))).
    destruct (step E s a r) as [s' r'|s'] eqn:Hs; [|exact Hstep].
    apply IH; [|exact Hstep].
    intros s0 a0 rest Hr. apply (HA s0 a0 rest).
    eapply reaches_step; eassumption.
Qed.

(** An argument that the loop reads is one of the arguments. *)
Lemma reaches_read s args s0 a rest :
  reaches E s args s0 (a :: rest) -> In a args.
Proof.
  intros H. destruct (reaches_suffix E _ _ _ _ H) as [pre ->].
  apply in_or_app. right. now left.
Qed.

Ltac keep_untouched H :=
  destruct H as [Hno [Hh|Hw]];
  (split; [exact Hno|]);
  [left; exact Hh
  |try (left; reflexivity);
   right; cbn; rewrite ?in_app_iff; cbn;
   intros Hin; repeat destruct Hin as [Hin|Hin];
   try discriminate; auto].

Lemma step_overlays_untouched s a r :
  asks_overlay a = false ->
  overlays_untouched s ->
  match step E s a r with
  | Continue s' _ => overlays_untouched s'
  | Return s' => overlays_untouched s'
  end.
Proof.
  unfold asks_overlay, overlays_untouched, no_overlay_asked. intros Ha H.
  unfold step, with_value.
  destruct (classify a); try discriminate;
    try (destruct (dranges_loop_effect E r (s <|| dranges := [] ||>))
           as [? [[? ->]|[? ->]]]);
    try destruct r;
    repeat match goal with
           | |- context [if ?b then _ else _] => destruct b
           end;
    try exact H; try (split; [apply H | left; reflexivity]).
  all: keep_untouched H.
Qed.

Lemma untouched_and_then (f g : parse_state -> flow) :
  (forall s, overlays_untouched s -> overlays_untouched (returned (f s))) ->
  (forall s, overlays_untouched s -> overlays_untouched (returned (g s))) ->
  forall s, overlays_untouched s -> overlays_untouched (returned (f s >>> g)).
Proof.
  intros Hf Hg s H. specialize (Hf s H). unfold and_then.
  destruct (f s) as [s1|s1]; cbn [returned] in *; auto.
Qed.

Lemma untouched_appended s l :
  ~ In overlay_warning l ->
  overlays_untouched s -> overlays_untouched (s <| cerr := (cerr s ++ l)%list |>).
Proof.
  intros Hl [Hno [Hh|Hw]]; (split; [exact Hno|]); [now left|right].
  cbn. rewrite in_app_iff. tauto.
Qed.

Lemma after_loop_overlays_untouched s :
  overlays_untouched s -> overlays_untouched (returned (after_loop E s)).
Proof.
  revert s. unfold after_loop.
  repeat (apply untouched_and_then; [|]).
  - intros s H. unfold check_input_path.
    repeat match goal with
           | |- context [if ?b then _ else _] => destruct b
           end; cbn [returned]; try exact H.
    split; [apply H | left; reflexivity].
  - intros s H. destruct (default_output_path_effect E s) as [p ->]. exact H.
  - intros s H. unfold check_output_path.
    destruct (negb _); cbn [returned]; [|exact H].
    split; [apply H | left; reflexivity].
  - intros s H.
    destruct (resolve_output_file_effect E s) as [[f ->]|[msg ->]];
      cbn [returned]; [exact H|].
    split; [apply H | left; reflexivity].
  - intros s H. unfold broken_root_overlays.
    destruct H as [Hno Hq]. unfold no_overlay_asked in Hno.
    rewrite Hno, andb_false_r. cbn [returned]. now split.
  - intros s H. unfold conversion_factor.
    repeat match goal with
           | |- context [if ?b then _ else _] => destruct b
           end; cbn [returned]; try exact H; keep_untouched H.
  - intros s H. unfold check_dranges_sorted.
    destruct (_ && _); cbn [returned]; [|exact H].
    split; [apply H | left; reflexivity].
  - intros s H. unfold validate_dranges.
    destruct (dranges_error _ _ _); cbn [returned]; [|exact H].
    split; [apply H | left; reflexivity].
  - intros s H. unfold dependent_option_warnings. cbv zeta.
    rewrite !warn_if_appended. cbn [returned].
    repeat (apply untouched_appended;
            [match goal with
             | |- context [if ?b then _ else _] => destruct b
             end; cbn; intros Hin; repeat destruct Hin as [Hin|Hin];
             try discriminate; auto|]).
    exact H.
Qed.

(** C3, as the program has it.  On an accepted command line with root
    type 1 (broken roots): when the loop has read [-ch], [-ho], [-co] or
    one of their long names as an option, all three members are [false]
    on return and the warning was written; when it has read none of
    them, all three keep their initial value [true] and the warning was
    not written. *)
Theorem broken_root_overlays_forced_off (argv : list string) :
  let s := parse E argv in
  let c := config s in
  accepted c = true ->
  roottype c = 1%Z ->
  ((exists s0 a rest,
      reaches E parse_state_init (tl argv) s0 (a :: rest)
      /\ asks_overlay a = true) ->
   showConvexHull c = false /\ showHoles c = false /\ showContours c = false
   /\ In overlay_warning (cerr s))
  /\ ((forall s0 a rest,
         reaches E parse_state_init (tl argv) s0 (a :: rest) ->
         asks_overlay a = false) ->
      showConvexHull c = true /\ showHoles c = true /\ showContours c = true
      /\ ~ In overlay_warning (cerr s)).
Proof.
  intros s c Hacc Hrt.
  pose proof (overlays_follow_locals argv Hacc Hrt) as Hloc.
  fold s c in Hloc.
  split.
  - intros (s0 & a & rest & Hreach & Ha).
    assert (Hasked : overlay_asked s).
    { unfold s, parse. rewrite (reaches_parse_from E _ _ _ _ Hreach).
      destruct (step_asks_overlay s0 a rest Ha) as (s1 & Hstep & H1).
      assert (Hgo : parse_from E s0 (a :: rest) = parse_from E s1 rest).
      { apply reaches_parse_from.
        eapply reaches_step; [exact Hstep | apply reaches_here]. }
      rewrite Hgo. unfold parse_from.
      pose proof (parse_loop_inv E overlay_asked (fun _ => True)
                    (fun s a r H _ => step_overlay_asked s a r H)
                    (length rest) s1 rest) as Hinv.
      destruct (parse_loop E (length rest) s1 rest) as [s' [|]];
        cbn [fst] in Hinv.
      - apply Hinv; [apply List.Forall_forall; auto | exact H1].
      - unfold overlay_asked.
        destruct (after_loop_locals s') as (-> & -> & ->).
        apply Hinv; [apply List.Forall_forall; auto | exact H1]. }
    unfold overlay_asked in Hasked. rewrite Hasked in Hloc. exact Hloc.
  - intros Hnone.
    assert (Hun : overlays_untouched s).
    { unfold s, parse, parse_from.
      pose proof (parse_loop_inv_read overlays_untouched
                    (fun a => asks_overlay a = false)
                    (fun s a r H Ha => step_overlays_untouched s a r Ha H)
                    (length (tl argv)) parse_state_init (tl argv) Hnone)
        as Hinv.
      assert (H0 : overlays_untouched parse_state_init).
      { split; [reflexivity|]. right. intros []. }
      specialize (Hinv H0).
      destruct (parse_loop E (length (tl argv)) parse_state_init (tl argv))
        as [s' [|]]; cbn [fst] in Hinv; [exact Hinv|].
      now apply after_loop_overlays_untouched. }
    destruct Hun as [Hno Hq]. unfold no_overlay_asked in Hno.
    rewrite Hno in Hloc. destruct Hloc as (H1 & H2 & H3).
    repeat split; try assumption.
    destruct Hq as [Hh|Hw]; [|exact Hw].
    unfold accepted in Hacc. fold c in Hh. rewrite Hh in Hacc. discriminate.
Qed.

End Overlays.

(** ** The tokens after [--dranges] *)

Section Dranges.

Variable E : Env.

(** [append_checked_positive_ascending] checks its value and returns the
    vector as it got it. *)
Lemma append_checked_unchanged v out out' :
  append_checked_positive_ascending E v out = inr out' -> out' = out.
Proof.
  unfold append_checked_positive_ascending.
  destruct (negb _); [discriminate|].
  destruct (last out); [destruct (negb _); [discriminate|]|];
    intros H; now inversion H.
Qed.

Lemma consume_pieces_unchanged pieces : forall out saw,
  snd (fst (consume_pieces E pieces out saw)) = out.
Proof.
  induction pieces as [|p pieces IH]; intros out saw; cbn [consume_pieces];
    [reflexivity|].
  destruct (Str.is_empty _); [apply IH|].
  destruct (negb _); [reflexivity|].
  destruct (stod E _); [reflexivity|].
  destruct (append_checked_positive_ascending E _ _) eqn:Ha; [reflexivity|].
  apply append_checked_unchanged in Ha. subst. apply IH.
Qed.

(** No token ever adds a value to the vector. *)
Lemma consume_drange_token_unchanged raw out :
  snd (fst (consume_drange_token E raw out)) = out.
Proof.
  unfold consume_drange_token, checked_append.
  destruct (Str.is_empty _); [reflexivity|].
  destruct (Ascii.eqb _ _); [reflexivity|].
  destruct (Str.contains _ _); [apply consume_pieces_unchanged|].
  destruct (is_positive_number_like _); [|reflexivity].
  destruct (stod E _); [reflexivity|].
  destruct (append_checked_positive_ascending E _ _) eqn:Ha; [reflexivity|].
  now apply append_checked_unchanged in Ha.
Qed.

Lemma negative_not_number_like t :
  negative_piece t = true -> is_positive_number_like t = false.
Proof.
  destruct t as [|c t]; [discriminate|].
  unfold negative_piece.
  destruct c as [[] [] [] [] [] [] [] []]; try discriminate.
  reflexivity.
Qed.

Lemma number_like_nonempty t :
  is_positive_number_like t = true -> Str.is_empty t = false.
Proof. destruct t; [discriminate | reflexivity]. Qed.

Lemma number_like_no_dash t :
  is_positive_number_like t = true -> Ascii.eqb (Str.head t) "-" = false.
Proof.
  destruct t as [|c t]; [reflexivity|].
  destruct c as [[] [] [] [] [] [] [] []]; try reflexivity.
  discriminate.
Qed.

(** A positive number passes the check against an empty vector. *)
Lemma positive_piece_passes t :
  positive_piece E t = true ->
  is_positive_number_like t = true
  /\ exists v, stod E t = inr v
               /\ append_checked_positive_ascending E v [] = inr [].
Proof.
  unfold positive_piece. intros H. apply andb_prop in H as [Hn Hv].
  split; [exact Hn|].
  destruct (stod E t) as [|v]; [discriminate|].
  exists v. split; [reflexivity|].
  unfold append_checked_positive_ascending. now rewrite Hv.
Qed.

(** A number that is zero is refused with a message. *)
Lemma zero_piece_refused t out :
  zero_piece E t = true ->
  is_positive_number_like t = true
  /\ exists v msg, stod E t = inr v
       /\ append_checked_positive_ascending E v out = inl msg
       /\ Str.is_empty msg = false.
Proof.
  unfold zero_piece. intros H. apply andb_prop in H as [Hn Hv].
  split; [exact Hn|].
  destruct (stod E t) as [|v]; [discriminate|].
  exists v. unfold append_checked_positive_ascending. rewrite Hv.
  eexists. split; [reflexivity|]. split; reflexivity.
Qed.

Lemma consume_pieces_positive raw : forall saw,
  forallb (positive_piece E)
    (List.filter (fun p => negb (Str.is_empty p)) (map trim_ws raw)) = true ->
  consume_pieces E raw [] saw
  = (saw || negb (length (List.filter (fun p => negb (Str.is_empty p))
                            (map trim_ws raw)) =? 0)%nat,
     [], EmptyString).
Proof.
  induction raw as [|p raw IH]; intros saw H; cbn [consume_pieces map List.filter].
  - now rewrite orb_false_r.
  - cbn [map List.filter] in H.
    destruct (Str.is_empty (trim_ws p)); cbn [negb] in *; [now apply IH|].
    cbn [forallb] in H. apply andb_prop in H as [Hp Hrest].
    apply positive_piece_passes in Hp as (Hn & v & Hv & Ha).
    rewrite Hn, Hv, Ha. cbn [negb]. rewrite (IH true Hrest).
    cbn. now rewrite orb_true_r.
Qed.

Lemma consume_pieces_nonpositive raw : forall saw,
  first_nonpositive E
    (List.filter (fun p => negb (Str.is_empty p)) (map trim_ws raw)) = true ->
  exists msg,
    consume_pieces E raw [] saw = (true, [], msg) /\ Str.is_empty msg = false.
Proof.
  induction raw as [|p raw IH]; intros saw H; cbn [consume_pieces map List.filter] in *.
  - discriminate.
  - destruct (Str.is_empty (trim_ws p)); cbn [negb] in *; [now apply IH|].
    cbn [first_nonpositive] in H.
    apply orb_prop in H as [H|H].
    + apply orb_prop in H as [H|H].
      * destruct (zero_piece_refused _ [] H) as (Hn & v & msg & Hv & Ha & Hm).
        rewrite Hn, Hv, Ha. cbn. eauto.
      * rewrite (negative_not_number_like _ H). cbn. eauto.
    + apply andb_prop in H as [Hp Hrest].
      apply positive_piece_passes in Hp as (Hn & v & Hv & Ha).
      rewrite Hn, Hv, Ha. cbn [negb]. now apply IH.
Qed.

(** A token of positive numbers is taken, with no error. *)
Lemma positive_token_consumed tok :
  positive_token E tok = true ->
  (negb (Str.is_empty tok) && Ascii.eqb (Str.head tok) "-") = false
  /\ consume_drange_token E tok [] = (true, [], EmptyString).
Proof.
  unfold positive_token, dash_led, token_pieces, consume_drange_token.
  intros H. apply andb_prop in H as [H Hall]. apply andb_prop in H as [Hd Hlen].
  apply negb_true_iff, orb_false_elim in Hd as [Hd1 Hd2].
  split; [rewrite Hd1; apply andb_false_r|].
  rewrite Hd2.
  destruct (Str.contains "," (trim_ws tok)) eqn:Hc.
  - destruct (Str.is_empty (trim_ws tok)) eqn:He.
    { destruct (trim_ws tok); [discriminate Hc | discriminate He]. }
    rewrite (consume_pieces_positive _ false Hall). now rewrite Hlen.
  - cbn [forallb] in Hall. rewrite andb_true_r in Hall.
    apply positive_piece_passes in Hall as (Hn & v & Hv & Ha).
    rewrite (number_like_nonempty _ Hn), Hn.
    unfold checked_append. now rewrite Hv, Ha.
Qed.

(** A token with a zero or a negative number that does not begin with a
    minus sign is taken, with an error. *)
Lemma nonpositive_token_refused tok :
  dash_led tok = false ->
  nonpositive_token E tok = true ->
  (negb (Str.is_empty tok) && Ascii.eqb (Str.head tok) "-") = false
  /\ exists msg, consume_drange_token E tok [] = (true, [], msg)
                 /\ Str.is_empty msg = false.
Proof.
  unfold nonpositive_token, token_pieces, consume_drange_token.
  intros Hd. rewrite Hd. unfold dash_led in Hd.
  apply orb_false_elim in Hd as [Hd1 Hd2]. intros H.
  split; [rewrite Hd1; apply andb_false_r|].
  rewrite Hd2.
  destruct (Str.contains "," (trim_ws tok)) eqn:Hc.
  - destruct (Str.is_empty (trim_ws tok)) eqn:He.
    { destruct (trim_ws tok); [discriminate Hc | discriminate He]. }
    now apply consume_pieces_nonpositive.
  - cbn [first_nonpositive] in H. rewrite andb_false_r, orb_false_r in H.
    apply orb_prop in H as [H|H].
    + destruct (zero_piece_refused _ [] H) as (Hn & v & msg & Hv & Ha & Hm).
      rewrite (number_like_nonempty _ Hn), Hn.
      unfold checked_append. rewrite Hv, Ha. eauto.
    + destruct (trim_ws tok) as [|c t]; [discriminate|].
      unfold negative_piece in H. cbn in Hd2.
      destruct c as [[] [] [] [] [] [] [] []]; try discriminate.
Qed.

(** A token that begins like a negative number is no option of the
    program. *)
Lemma starts_negative_unknown tok :
  starts_negative tok = true -> classify tok = Unknown.
Proof.
  destruct tok as [|c1 [|c2 t]]; try discriminate;
    destruct c1 as [[] [] [] [] [] [] [] []]; try discriminate.
  destruct c2 as [[] [] [] [] [] [] [] []]; try discriminate;
    intros _; reflexivity.
Qed.

End Dranges.

(** ** A configuration error ends the run *)

Section Refusal.

Variable E : Env.

Lemma put_dranges_nil s :
  dranges (config s) = [] -> s <|| dranges := [] ||> = s.
Proof.
  destruct s as [c]; destruct c; cbn. intros ->. reflexivity.
Qed.

Lemma dranges_loop_refuses good : forall s bad more,
  dranges (config s) = [] ->
  forallb (positive_token E) good = true ->
  dash_led bad = false ->
  nonpositive_token E bad = true ->
  exists msg,
    dranges_loop E s (good ++ bad :: more)
    = Return (complain ("Error: " ++ msg) s).
Proof.
  induction good as [|tok good IH]; intros s bad more Hnil Hgood Hd Hbad;
    cbn [app dranges_loop]; rewrite Hnil.
  - destruct (nonpositive_token_refused E bad Hd Hbad)
      as (-> & msg & -> & Hmsg).
    rewrite Hmsg. cbn [negb]. rewrite (put_dranges_nil s Hnil). eauto.
  - cbn [forallb] in Hgood. apply andb_prop in Hgood as [Htok Hgood].
    destruct (positive_token_consumed E tok Htok) as (-> & ->).
    cbn [negb Str.is_empty]. rewrite (put_dranges_nil s Hnil). now apply IH.
Qed.

Lemma dranges_loop_stops good : forall s bad more,
  dranges (config s) = [] ->
  forallb (positive_token E) good = true ->
  starts_negative bad = true ->
  dranges_loop E s (good ++ bad :: more) = Continue s (bad :: more).
Proof.
  induction good as [|tok good IH]; intros s bad more Hnil Hgood Hbad;
    cbn [app dranges_loop]; rewrite ?Hnil.
  - destruct bad as [|c bad]; [discriminate|].
    destruct c as [[] [] [] [] [] [] [] []]; try discriminate. reflexivity.
  - cbn [forallb] in Hgood. apply andb_prop in Hgood as [Htok Hgood].
    destruct (positive_token_consumed E tok Htok) as (-> & ->).
    cbn [negb Str.is_empty]. rewrite (put_dranges_nil s Hnil). now apply IH.
Qed.

Lemma step_complained msg s a r :
  complained msg s ->
  match step E s a r with
  | Continue s' _ => complained msg s'
  | Return s' => complained msg s'
  end.
Proof.
  unfold complained. intros [H1 H2].
  step_cases E s a r; cbn; rewrite ?in_app_iff; auto.
Qed.

Lemma after_loop_complained msg s :
  complained msg s -> complained msg (returned (after_loop E s)).
Proof.
  unfold complained. intros [H1 H2].
  after_loop_cases E; cbn; rewrite ?in_app_iff; auto.
Qed.

Lemma parse_from_complained msg s args :
  complained msg s -> complained msg (parse_from E s args).
Proof.
  intros H. unfold parse_from.
  pose proof (parse_loop_inv E (complained msg) (fun _ => True)
                (fun s a r H _ => step_complained msg s a r H)
                (length args) s args) as Hinv.
  destruct (parse_loop E (length args) s args) as [s' [|]]; cbn [fst] in Hinv.
  - apply Hinv; [apply Forall_forall|]; auto.
  - apply after_loop_complained. apply Hinv; [apply Forall_forall|]; auto.
Qed.

(** [showHelpMain] is set by [-h] and [--help] only. *)
Lemma classify_help a : classify a = OHelp -> a = "-h" \/ a = "--help".
Proof.
  unfold classify.
  destruct (a =? "-h") eqn:H1; [apply String.eqb_eq in H1; auto|].
  destruct (a =? "--help") eqn:H2; [apply String.eqb_eq in H2; auto|].
  cbn [orb].
  repeat match goal with
         | |- context [if ?b then _ else _] => destruct b
         end; discriminate.
Qed.

Lemma step_showHelpMain (Q : Prop) s a r :
  (a = "-h" \/ a = "--help" -> Q) ->
  (showHelpMain (config s) = true -> Q) ->
  match step E s a r with
  | Continue s' _ => showHelpMain (config s') = true -> Q
  | Return s' => showHelpMain (config s') = true -> Q
  end.
Proof.
  intros Ha H. pose proof (classify_help a) as Hc.
  unfold step, with_value.
  destruct (classify a);
    try (destruct (dranges_loop_effect E r (s <|| dranges := [] ||>))
           as [? [[? ->]|[? ->]]]);
    try destruct r;
    repeat match goal with
           | |- context [if ?b then _ else _] => destruct b
           end; cbn; auto.
Qed.

Lemma after_loop_showHelpMain s :
  showHelpMain (config (returned (after_loop E s))) = showHelpMain (config s).
Proof.
  after_loop_cases E; reflexivity.
Qed.

Lemma showHelpMain_requested argv :
  showHelpMain (parseCommandLine E argv) = true ->
  In "-h" (tl argv) \/ In "--help" (tl argv).
Proof.
  unfold parseCommandLine, parse, parse_from.
  set (args := tl argv).
  pose proof (parse_loop_inv E
    (fun s => showHelpMain (config s) = true -> In "-h" args \/ In "--help" args)
    (fun a => In a args)) as Hinv.
  specialize (Hinv (fun s a r H Ha =>
    step_showHelpMain _ s a r
      (fun Hh => match Hh with
                 | or_introl e => or_introl (eq_ind a (fun x => In x args) Ha _ e)
                 | or_intror e => or_intror (eq_ind a (fun x => In x args) Ha _ e)
                 end) H)
    (length args) parse_state_init args).
  destruct (parse_loop E (length args) parse_state_init args) as [s [|]];
    cbn [fst] in Hinv; rewrite ?after_loop_showHelpMain;
    apply Hinv; try (apply List.Forall_forall; auto); cbn; discriminate.
Qed.

(** What [main] does when the usage text is asked for. *)
Lemma main_usage argv disk :
  showHelp (parseCommandLine E argv) = true ->
  main E argv disk
  = {| exit_code := if negb (showHelpMain (parseCommandLine E argv)) then 1 else 0;
       events := (map Stderr (cerr (parse E argv))
                    ++ [Usage (hd EmptyString argv)])%list;
       disk_after := disk |}.
Proof.
  unfold main, parseCommandLine. intros ->. reflexivity.
Qed.

Lemma dranges_cleared s : dranges (config (s <|| dranges := [] ||>)) = [].
Proof. reflexivity. Qed.

Lemma step_dranges s rest :
  step E s "--dranges" rest = dranges_loop E (s <|| dranges := [] ||>) rest.
Proof. reflexivity. Qed.

Lemma step_unknown s a rest :
  classify a = Unknown ->
  step E s a rest = Continue (complain ("Error: Unknown option " ++ a) s) rest.
Proof. unfold step. now intros ->. Qed.

(** From a state that stands before [--dranges] and a list with a zero
    or a negative number, the function returns with a complaint. *)
Lemma parse_from_dranges_nonpositive s good bad more :
  forallb (positive_token E) good = true ->
  nonpositive_token E bad = true ->
  exists msg,
    complained ("Error: " ++ msg)
      (parse_from E s ("--dranges" :: good ++ bad :: more)).
Proof.
  intros Hgood Hbad. unfold parse_from.
  cbn [length parse_loop]. rewrite step_dranges.
  destruct (dash_led bad) eqn:Hd.
  - unfold nonpositive_token in Hbad. rewrite Hd in Hbad.
    rewrite (dranges_loop_stops good (s <|| dranges := [] ||>) bad more
               (dranges_cleared s) Hgood Hbad).
    rewrite (parse_loop_fuel E _ (S (length more)))
      by (rewrite ?length_app; simpl; lia).
    cbn [parse_loop].
    rewrite (step_unknown _ _ _ (starts_negative_unknown bad Hbad)).
    exists ("Unknown option " ++ bad).
    apply (parse_from_complained _ _ more).
    split; [reflexivity|]. cbn. rewrite in_app_iff. right. now left.
  - destruct (dranges_loop_refuses good (s <|| dranges := [] ||>) bad more
                (dranges_cleared s) Hgood Hd Hbad) as [msg ->].
    exists msg. split; [reflexivity|].
    cbn. rewrite in_app_iff. right. now left.
Qed.

(** C2, as the program has it.  Let the loop stand before [--dranges],
    and let the tokens after it be numbers of which those before the
    first non-positive one are positive and that one is zero or negative.
    Then an error is reported and the usage text printed, no image is
    loaded or analysed, nothing is written, and the exit code is 1, or 0
    when [-h] or [--help] was given as well.  (Nothing is said of a list
    of positive numbers that is out of order; a number equal to the one
    before it is accepted.) *)
Theorem dranges_nonpositive_refused
    (prog : string) (args : list string) (s : parse_state)
    (good : list string) (bad : string) (more : list string)
    (disk : gmap string string) :
  reaches E parse_state_init args s ("--dranges" :: good ++ bad :: more) ->
  forallb (positive_token E) good = true ->
  nonpositive_token E bad = true ->
  let o := main E (prog :: args) disk in
  (exists msg, In (Stderr ("Error: " ++ msg)) (events o))
  /\ In (Usage prog) (events o)
  /\ (forall p, ~ In (Load p) (events o))
  /\ (forall p, ~ In (Extract p) (events o))
  /\ disk_after o = disk
  /\ (exit_code o = 1%Z
      \/ exit_code o = 0%Z /\ (In "-h" args \/ In "--help" args)).
Proof.
  intros Hreach Hgood Hbad.
  destruct (parse_from_dranges_nonpositive s good bad more Hgood Hbad)
    as [msg [Hhelp Hmsg]].
  rewrite <- (reaches_parse_from E _ _ _ _ Hreach) in Hhelp, Hmsg.
  change (parse_from E parse_state_init args) with (parse E (prog :: args))
    in Hhelp, Hmsg.
  cbv zeta. rewrite (main_usage (prog :: args) disk Hhelp). cbn [events exit_code disk_after hd].
  repeat split.
  - exists msg. apply in_or_app. left. now apply in_map.
  - apply in_or_app. right. now left.
  - intros p Hin. apply in_app_or in Hin as [Hin|[Hin|[]]]; [|discriminate].
    apply in_map_iff in Hin as (x & Hx & _). discriminate.
  - intros p Hin. apply in_app_or in Hin as [Hin|[Hin|[]]]; [|discriminate].
    apply in_map_iff in Hin as (x & Hx & _). discriminate.
  - destruct (showHelpMain (parseCommandLine E (prog :: args))) eqn:Hm.
    + right. split; [reflexivity|].
      exact (showHelpMain_requested (prog :: args) Hm).
    + now left.
Qed.

End Refusal.

(** ** Options given without the option they depend on *)

Ltac block_cases :=
  repeat match goal with
         | |- context [if ?b then _ else _] => destruct b
         end.

Section Dependent.

Variable E : Env.

Lemma forget_idem d s : forget d (forget d s) = forget d s.
Proof. destruct d; reflexivity. Qed.

Lemma forget_cerr d s l : forget d (s <| cerr := l |>) = forget d s.
Proof. destruct d; reflexivity. Qed.

Lemma parent_forget d s : parent d (config (forget d s)) = parent d (config s).
Proof. destruct d; reflexivity. Qed.

Lemma dranges_loop_forget d r : forall s,
  step_result_map (forget d) (dranges_loop E s r)
  = step_result_map (forget d) (dranges_loop E (forget d s) r).
Proof.
  induction r as [|next r IH]; intros s; cbn [dranges_loop].
  - cbn. now rewrite forget_idem.
  - destruct (negb (Str.is_empty next) && Ascii.eqb (Str.head next) "-").
    + cbn. now rewrite forget_idem.
    + replace (dranges (config (forget d s))) with (dranges (config s))
        by (destruct d; reflexivity).
      destruct (consume_drange_token E next (dranges (config s)))
        as [[was out] err].
      destruct (negb was); [destruct d; reflexivity|].
      destruct (negb (Str.is_empty err)); [destruct d; reflexivity|].
      rewrite IH. symmetry. rewrite IH. f_equal. f_equal.
      destruct d; reflexivity.
Qed.

(** A turn of the loop does not look at what the option left. *)
Lemma step_forget d s a r :
  step_result_map (forget d) (step E s a r)
  = step_result_map (forget d) (step E (forget d s) a r).
Proof.
  unfold step, with_value.
  destruct (classify a);
    try (rewrite dranges_loop_forget; symmetry; rewrite dranges_loop_forget;
         destruct d; reflexivity);
    try destruct r;
    try (destruct d; reflexivity).
  all: replace (inputPath (config (forget d s))) with (inputPath (config s))
      by (destruct d; reflexivity).
  all: repeat match goal with
         | |- context [if ?b then _ else _] => destruct b
         end; destruct d; reflexivity.
Qed.

Lemma parse_loop_forget d fuel : forall s1 s2 args,
  forget d s1 = forget d s2 ->
  forget d (fst (parse_loop E fuel s1 args))
  = forget d (fst (parse_loop E fuel s2 args))
  /\ snd (parse_loop E fuel s1 args) = snd (parse_loop E fuel s2 args).
Proof.
  induction fuel as [|fuel IH]; intros s1 s2 args H.
  - destruct args; now split.
  - destruct args as [|a r]; [now split|]. cbn [parse_loop].
    pose proof (step_forget d s1 a r) as H1.
    pose proof (step_forget d s2 a r) as H2.
    rewrite H, <- H2 in H1. clear H2.
    destruct (step E s1 a r) as [t1 r1|t1], (step E s2 a r) as [t2 r2|t2];
      cbn in H1; inversion H1; subst.
    + now apply IH.
    + now split.
Qed.

Lemma commutes_and_then d f g :
  commutes d f -> keeps_parent d f -> commutes d g ->
  commutes d (fun s => f s >>> g).
Proof.
  intros Cf Kf Cg s Hp. unfold and_then.
  pose proof (Cf s Hp) as Hf.
  pose proof (Kf s) as K1. pose proof (Kf (forget d s)) as K2.
  rewrite parent_forget in K2.
  destruct (f s) as [s1|s1], (f (forget d s)) as [s2|s2];
    cbn in Hf, K1, K2; try discriminate; injection Hf as Hs.
  - rewrite (Cg s1) by congruence. rewrite (Cg s2) by congruence.
    now rewrite Hs.
  - cbn. now rewrite Hs.
Qed.

Lemma keeps_parent_and_then d f g :
  keeps_parent d f -> keeps_parent d g -> keeps_parent d (fun s => f s >>> g).
Proof.
  intros Kf Kg s. unfold and_then. pose proof (Kf s) as K1.
  destruct (f s) as [s1|s1]; cbn in K1; [rewrite Kg|]; exact K1.
Qed.


Lemma commutes_check_input_path d : commutes d check_input_path.
Proof.
  intros s _. unfold check_input_path.
  replace (config (forget d s)) with (config (forget d s)) by reflexivity.
  destruct d; cbn; block_cases; reflexivity.
Qed.

Lemma commutes_default_output_path d : commutes d (default_output_path E).
Proof.
  intros s _. unfold default_output_path.
  destruct d; cbn; block_cases; reflexivity.
Qed.

Lemma commutes_check_output_path d : commutes d (check_output_path E).
Proof.
  intros s _. unfold check_output_path.
  destruct d; cbn; block_cases; reflexivity.
Qed.

Lemma commutes_resolve_output_file d : commutes d (resolve_output_file E).
Proof.
  intros s _. unfold resolve_output_file.
  destruct d; cbn; block_cases; reflexivity.
Qed.

Lemma commutes_broken_root_overlays d : commutes d broken_root_overlays.
Proof.
  intros s _. unfold broken_root_overlays.
  destruct d; cbn; block_cases; reflexivity.
Qed.

Lemma commutes_conversion_factor d : commutes d conversion_factor.
Proof.
  intros s Hp. unfold conversion_factor.
  destruct d; cbn in *; try rewrite Hp; block_cases; reflexivity.
Qed.

Lemma commutes_check_dranges_sorted d : commutes d check_dranges_sorted.
Proof.
  intros s _. unfold check_dranges_sorted.
  destruct d; cbn; block_cases; reflexivity.
Qed.

Lemma commutes_validate_dranges d : commutes d (validate_dranges E).
Proof.
  intros s _. unfold validate_dranges.
  destruct d; cbn; destruct (dranges_error _ _ _); reflexivity.
Qed.

Lemma commutes_dependent_option_warnings d :
  commutes d dependent_option_warnings.
Proof.
  intros s _.
  destruct (dependent_option_warnings_effect s) as (l & -> & _).
  destruct (dependent_option_warnings_effect (forget d s)) as (l' & -> & _).
  cbn [flow_map]. now rewrite !forget_cerr, forget_idem.
Qed.

Lemma after_loop_parent d s :
  parent d (config (returned (after_loop E s))) = parent d (config s).
Proof.
  after_loop_cases E; destruct d; reflexivity.
Qed.

Lemma returned_flow_map f x : returned (flow_map f x) = f (returned x).
Proof. now destruct x. Qed.

Lemma commutes_after_loop d : commutes d (after_loop E).
Proof.
  unfold after_loop.
  repeat (apply commutes_and_then; [| |]).
  all: try apply commutes_check_input_path.
  all: try apply commutes_default_output_path.
  all: try apply commutes_check_output_path.
  all: try apply commutes_resolve_output_file.
  all: try apply commutes_broken_root_overlays.
  all: try apply commutes_conversion_factor.
  all: try apply commutes_check_dranges_sorted.
  all: try apply commutes_validate_dranges.
  all: try apply commutes_dependent_option_warnings.
  all: intros s; repeat after_loop_step E; destruct d; reflexivity.
Qed.

Lemma parse_from_forget d s1 s2 args :
  forget d s1 = forget d s2 ->
  parent d (config (parse_from E s1 args)) = false ->
  forget d (parse_from E s1 args) = forget d (parse_from E s2 args).
Proof.
  intros H Hp. unfold parse_from in *.
  destruct (parse_loop_forget d (length args) s1 s2 args H) as [Hs Hb].
  destruct (parse_loop E (length args) s1 args) as [t1 b1],
           (parse_loop E (length args) s2 args) as [t2 b2].
  cbn in Hs, Hb. subst b2. destruct b1; [exact Hs|].
  rewrite after_loop_parent in Hp.
  assert (Hp2 : parent d (config t2) = false).
  { rewrite <- parent_forget, <- Hs, parent_forget. exact Hp. }
  rewrite <- !returned_flow_map.
  rewrite (commutes_after_loop d t1 Hp), (commutes_after_loop d t2 Hp2).
  now rewrite Hs.
Qed.

Lemma stored_of_forget d s1 s2 :
  forget d s1 = forget d s2 -> stored d (config s1) (config s2) = config s1.
Proof.
  intros H. apply (f_equal config) in H.
  destruct s1 as [c1], s2 as [c2]. destruct c1, c2.
  destruct d; cbn in *; injection H; intros; subst; reflexivity.
Qed.

Lemma accepted_forget d s :
  accepted (config (forget d s)) = accepted (config s).
Proof. destruct d; reflexivity. Qed.

(** The turn of the loop on a dependent option and its value. *)
Lemma step_dependent d opt v s post :
  In opt (option_names d) ->
  exists s1,
    step E s opt (v :: post) = Continue s1 post
    /\ forget d s1 = forget d s
    /\ given d s1 = true.
Proof.
  destruct d; cbn; intros Hopt;
    repeat (destruct Hopt as [<-|Hopt]); try contradiction;
    eexists; (split; [reflexivity|]); split; reflexivity.
Qed.

Lemma step_given d s a r :
  given d s = true ->
  match step E s a r with
  | Continue s' _ => given d s' = true
  | Return s' => given d s' = true
  end.
Proof.
  intros H. step_cases E s a r; destruct d; cbn in *; auto.
Qed.

Lemma parse_loop_given d fuel s args :
  given d s = true -> given d (fst (parse_loop E fuel s args)) = true.
Proof.
  intros H.
  apply (parse_loop_inv E (fun s => given d s = true) (fun _ => True));
    [|apply List.Forall_forall; auto|exact H].
  intros s0 a r H0 _. now apply step_given.
Qed.

(** On an accepted command line the warning is written. *)
Lemma after_loop_warns d s :
  given d s = true ->
  accepted (config (returned (after_loop E s))) = true ->
  parent d (config s) = false ->
  In (warning d) (cerr (returned (after_loop E s))).
Proof.
  intros Hg. unfold accepted. after_loop_cases E; cbn; intros Hacc Hp.
  all: try discriminate.
  all: try (match goal with
            | Hi : Str.is_empty _ = true |- _ =>
                rewrite Hi, andb_false_r in Hacc; discriminate
            end).
  all: rewrite !in_app_iff.
  all: match goal with
       | Hc : pixelconv _ = false -> _,
         Hw : forall d, given d _ = true -> _ |- _ =>
           specialize (Hw d); destruct d; cbn in Hg, Hp, Hc, Hw;
           try (right; apply Hw; auto; discriminate);
           destruct (Hc Hp) as (_ & _ & Hl); rewrite Hg, ?orb_true_r in Hl;
           auto
       end.
Qed.

Lemma parse_from_step s a r s1 r1 :
  step E s a r = Continue s1 r1 -> parse_from E s (a :: r) = parse_from E s1 r1.
Proof.
  intros H. apply reaches_parse_from.
  eapply reaches_step; [exact H | apply reaches_here].
Qed.

(** A turn of the loop on an argument other than [--dranges] either
    looks at no later argument or takes the next one as its value. *)
Lemma step_shape s a :
  classify a <> ODranges ->
  (exists s', forall r, step E s a r = Continue s' r)
  \/ (exists s0 msg k, forall r, step E s a r = with_value s0 r msg k).
Proof.
  intros Ha. unfold step.
  destruct (classify a); try contradiction;
    try (left; eexists; intros r; reflexivity);
    try (right; eexists _, _, _; intros r; reflexivity).
  left. destruct (Str.is_empty _); eexists; intros r; reflexivity.
Qed.

(** Without [--dranges] among them, the arguments before a place that
    the loop comes to stand at are read in the same way whatever
    follows that place. *)
Lemma reaches_whatever_follows (Y : list string) :
  forall s0 args s X,
    reaches E s0 args s X ->
    forall pre, args = (pre ++ X)%list -> X <> [] ->
      Forall (fun x => classify x <> ODranges) pre ->
      reaches E s0 (pre ++ Y)%list s Y.
Proof.
  induction 1 as [s args|s a r s1 r1 s2 X Hs Hr IH]; intros pre Hpre HX Hno.
  - assert (pre = []) as ->.
    { apply (f_equal (@length string)) in Hpre. rewrite length_app in Hpre.
      destruct pre; [reflexivity | cbn [length app] in Hpre; lia]. }
    apply reaches_here.
  - destruct (reaches_suffix E _ _ _ _ Hr) as [pre1 Hr1].
    destruct (step_suffix E _ _ _ _ _ Hs) as [used Hused].
    destruct pre as [|a' pre'].
    { exfalso. simpl in Hpre. subst X.
      apply (f_equal (@length string)) in Hr1, Hused.
      rewrite length_app in Hr1, Hused. cbn [length] in Hr1, Hused. lia. }
    simpl in Hpre. injection Hpre as <- Hpre.
    inversion Hno as [|? ? Ha Hno']; subst.
    assert (Hsplit : pre' = (used ++ pre1)%list).
    { apply (app_inv_tail X). rewrite <- app_assoc. congruence. }
    subst pre'. apply Forall_app in Hno' as [_ Hno1].
    specialize (IH pre1 eq_refl HX Hno1).
    apply (reaches_step E s a ((used ++ pre1) ++ Y)%list s1 (pre1 ++ Y)%list);
      [|exact IH].
    destruct (step_shape s a Ha) as [[s' Hsh]|(s' & msg & k & Hsh)].
    + rewrite Hsh in Hs |- *. injection Hs as <- Hs.
      assert (used = []) as ->.
      { apply (f_equal (@length string)) in Hs.
        rewrite !length_app in Hs. destruct used; [reflexivity | cbn [length app] in Hs; lia]. }
      reflexivity.
    + rewrite Hsh in Hs |- *. unfold with_value in *.
      destruct used as [|v used].
      * simpl in *. destruct pre1 as [|v pre1]; simpl in *.
        -- destruct X as [|x X]; [contradiction|].
           injection Hs as _ Hs.
           apply (f_equal (@length string)) in Hs. cbn [length] in Hs.
           exfalso. lia.
        -- injection Hs as _ Hs.
           apply (f_equal (@length string)) in Hs.
           cbn [length] in Hs. rewrite !length_app in Hs. exfalso. lia.
      * simpl in *. injection Hs as <- Hs.
        assert (used = []) as ->.
        { apply (f_equal (@length string)) in Hs.
          rewrite !length_app in Hs. destruct used; [reflexivity | cbn [length app] in Hs; lia]. }
        reflexivity.
Qed.

(** C8, as the program has it.  Let the loop stand before a dependent
    option and its value, and compare the command line with the one from
    which the two arguments are taken out, on which the arguments before
    them are to be read in the same way: the loop comes to stand behind
    them in the same state.  (This is so whenever no [--dranges] stands
    before the option, by [reaches_whatever_follows]; it fails when the
    option ends a [--dranges] list that the argument behind its value
    would go on with.)  If the command line is accepted and the option
    that the dependent one needs was not given, then the warning is
    written, the configuration returned is the one returned without the
    two arguments except for the member that stores the value (a
    conversion factor leaves no trace at all), and the command line
    without them is accepted as well: the option alone does not end the
    run. *)
Theorem dependent_option_without_parent
    (d : dependent) (opt v prog : string) (pre post : list string)
    (s : parse_state) :
  In opt (option_names d) ->
  reaches E parse_state_init (pre ++ opt :: v :: post) s (opt :: v :: post) ->
  reaches E parse_state_init (pre ++ post) s post ->
  let given_ := parse E (prog :: pre ++ opt :: v :: post) in
  let without := parse E (prog :: pre ++ post) in
  accepted (config given_) = true ->
  parent d (config given_) = false ->
  In (warning d) (cerr given_)
  /\ stored d (config given_) (config without) = config given_
  /\ accepted (config without) = true.
Proof.
  intros Hopt Hwith Hwithout. unfold parse. cbn [tl].
  rewrite (reaches_parse_from E _ _ _ _ Hwith).
  rewrite (reaches_parse_from E _ _ _ _ Hwithout).
  destruct (step_dependent d opt v s post Hopt) as (s1 & Hstep & Hf & Hg).
  rewrite (parse_from_step _ _ _ _ _ Hstep). cbv zeta. intros Hacc Hp.
  pose proof (parse_from_forget d s1 s post Hf Hp) as Hsame.
  split; [|split].
  - unfold parse_from in *.
    pose proof (parse_loop_given d (length post) s1 post Hg) as Hg'.
    destruct (parse_loop E (length post) s1 post) as [t [|]] eqn:Hloop;
      cbn [fst] in Hg'.
    + apply parse_loop_return_showHelp in Hloop.
      unfold accepted in Hacc. rewrite Hloop in Hacc. discriminate.
    + rewrite after_loop_parent in Hp. now apply after_loop_warns.
  - now apply stored_of_forget.
  - rewrite <- (accepted_forget d), <- Hsame, accepted_forget. exact Hacc.
Qed.

End Dependent.

(** ** The cut points after [--dranges] *)

Section CutPoints.

Variable E : Env.

Lemma dranges_loop_dranges r : forall s,
  match dranges_loop E s r with
  | Continue s' _ => dranges (config s') = dranges (config s)
  | Return s' => dranges (config s') = dranges (config s)
  end.
Proof.
  induction r as [|next r IH]; intros s; cbn [dranges_loop]; [reflexivity|].
  destruct (negb (Str.is_empty next) && Ascii.eqb (Str.head next) "-");
    [reflexivity|].
  pose proof (consume_drange_token_unchanged E next (dranges (config s))) as Hu.
  destruct (consume_drange_token E next (dranges (config s)))
    as [[was out] err].
  cbn in Hu. subst out.
  destruct (negb was); [reflexivity|].
  destruct (negb (Str.is_empty err)); [reflexivity|].
  specialize (IH (s <|| dranges := dranges (config s) ||>)).
  destruct (dranges_loop E _ r); exact IH.
Qed.

(** Once empty, the vector stays empty. *)
Lemma step_dranges_nil s a r :
  dranges (config s) = [] ->
  match step E s a r with
  | Continue s' _ => dranges (config s') = []
  | Return s' => dranges (config s') = []
  end.
Proof.
  intros H. unfold step, with_value.
  destruct (classify a);
    try (pose proof (dranges_loop_dranges r (s <|| dranges := [] ||>)) as Hd;
         destruct (dranges_loop E _ r); exact Hd);
    try destruct r;
    repeat match goal with
           | |- context [if ?b then _ else _] => destruct b
           end; cbn; auto.
Qed.

Lemma after_loop_dranges s :
  dranges (config (returned (after_loop E s))) = dranges (config s).
Proof.
  after_loop_cases E; reflexivity.
Qed.

Lemma parse_from_dranges_nil s args :
  dranges (config s) = [] -> dranges (config (parse_from E s args)) = [].
Proof.
  intros H. unfold parse_from.
  pose proof (parse_loop_inv E (fun s => dranges (config s) = [])
                (fun _ => True)
                (fun s a r H _ => step_dranges_nil s a r H)
                (length args) s args) as Hinv.
  destruct (parse_loop E (length args) s args) as [s' [|]]; cbn [fst] in Hinv;
    rewrite ?after_loop_dranges; apply Hinv;
    try (apply List.Forall_forall; auto); exact H.
Qed.

(** C1, as the program has it.  Whatever tokens follow [--dranges], the
    configuration returned has no cut points: the option clears the
    vector and [append_checked_positive_ascending] checks each value
    without adding it. *)
Theorem dranges_option_leaves_no_cut_points
    (prog : string) (args : list string) (s : parse_state)
    (rest : list string) :
  reaches E parse_state_init args s ("--dranges" :: rest) ->
  dranges (parseCommandLine E (prog :: args)) = [].
Proof.
  intros Hreach. unfold parseCommandLine, parse. cbn [tl].
  rewrite (reaches_parse_from E _ _ _ _ Hreach).
  unfold parse_from. cbn [length parse_loop]. rewrite step_dranges.
  pose proof (dranges_loop_dranges rest (s <|| dranges := [] ||>)) as Hd.
  destruct (dranges_loop E _ rest) as [s1 r1|s1] eqn:Hloop; [|exact Hd].
  assert (Hle : (length r1 <= length rest)%nat).
  { apply (step_shrinks E s "--dranges" rest s1 r1).
    now rewrite step_dranges. }
  pose proof (parse_from_dranges_nil s1 r1 Hd) as Hnil.
  unfold parse_from in Hnil.
  now rewrite (parse_loop_fuel E (length rest) (length r1)) by lia.
Qed.

End CutPoints.

(** ** The CSV file *)

Section Csv.

Variable E : Env.

(** What the file holds after [writeResultsToCsv]. *)
Lemma writeResultsToCsv_contents
    (c : feature_config) (imageFiles : list string)
    (allFeatures : list (list double)) (roiNames : list string)
    (disk : gmap string string) :
  ofstream_open E (outputFile c) = true ->
  fst (writeResultsToCsv E c imageFiles allFeatures roiNames disk)
    !! outputFile c
  = Some (default EmptyString (disk !! outputFile c)
            ++ (if negb (bool_decide (is_Some (disk !! outputFile c)))
                   || noappend c
                then writeCsvHeader c else EmptyString)
            ++ csv_rows E imageFiles allFeatures roiNames).
Proof.
  intros Hopen. unfold writeResultsToCsv. rewrite Hopen. cbn [fst].
  now rewrite lookup_insert_eq.
Qed.

(** C9.  When the output file exists and [--noappend] is set, the file
    afterwards begins with what it held before, and no other file
    changes; when the file can be opened, what follows is a header and
    the rows. *)
Theorem noappend_keeps_existing_contents
    (c : feature_config) (imageFiles : list string)
    (allFeatures : list (list double)) (roiNames : list string)
    (disk : gmap string string) (old : string) :
  disk !! outputFile c = Some old ->
  noappend c = true ->
  let disk' := fst (writeResultsToCsv E c imageFiles allFeatures roiNames disk) in
  (exists added,
     disk' !! outputFile c = Some (old ++ added)
     /\ (ofstream_open E (outputFile c) = true ->
         added = writeCsvHeader c ++ csv_rows E imageFiles allFeatures roiNames))
  /\ forall p, p <> outputFile c -> disk' !! p = disk !! p.
Proof.
  intros Hold Hna. cbv zeta.
  destruct (ofstream_open E (outputFile c)) eqn:Hopen.
  - split.
    + eexists. split; [|intros _; reflexivity].
      rewrite (writeResultsToCsv_contents _ _ _ _ _ Hopen).
      now rewrite Hold, Hna, orb_true_r.
    + intros p Hp. unfold writeResultsToCsv. rewrite Hopen. cbn [fst].
      now rewrite lookup_insert_ne by congruence.
  - unfold writeResultsToCsv. rewrite Hopen. cbn [fst]. split; [|reflexivity].
    exists EmptyString. split; [|discriminate].
    rewrite Hold. f_equal. clear. induction old as [|x old IH]; [reflexivity|].
    change (String x old = String x (old ++ EmptyString)). now rewrite <- IH.
Qed.

End Csv.

(** ** The header *)

Section Header.

Lemma append_assoc (a b c : string) : (a ++ b) ++ c = a ++ b ++ c.
Proof.
  induction a as [|x a IH]; [reflexivity|].
  change (String x ((a ++ b) ++ c) = String x (a ++ b ++ c)).
  now rewrite IH.
Qed.

Lemma concat_app (l1 l2 : list string) :
  Str.concat (l1 ++ l2)%list = Str.concat l1 ++ Str.concat l2.
Proof.
  induction l1 as [|x l1 IH]; [reflexivity|].
  change (Str.concat ((x :: l1) ++ l2)%list)
    with (x ++ Str.concat (l1 ++ l2)%list).
  change (Str.concat (x :: l1)) with (x ++ Str.concat l1).
  now rewrite IH, append_assoc.
Qed.

(** One loop of the header writes one series of columns. *)
Lemma range_columns_series (c : feature_config) (label : string)
    (k : unit_kind) (converted : bool) :
  range_columns c label (unit_suffix converted k)
  = Str.concat
      (map (fun x => "," ++ x)
         (map (column_name converted)
            (range_series label k (length (dranges c))))).
Proof.
  unfold range_columns, range_series. rewrite !map_map. f_equal.
  apply map_ext. intros i. unfold column_name. cbn [fst snd].
  now rewrite append_assoc.
Qed.

Lemma binned_columns (c : feature_config) (converted : bool) (tail : string) :
  range_columns c "Root.Length.Diameter.Range." (unit_suffix converted Length)
  ++ range_columns c "Projected.Area.Diameter.Range." (unit_suffix converted Area)
  ++ range_columns c "Surface.Area.Diameter.Range." (unit_suffix converted Area)
  ++ range_columns c "Volume.Diameter.Range." (unit_suffix converted Volume)
  ++ tail
  = Str.concat
      (map (fun x => "," ++ x)
         (map (column_name converted) (binned_series (length (dranges c)))))
    ++ tail.
Proof.
  unfold binned_series. rewrite !map_app, !concat_app, !append_assoc.
  now rewrite <- !range_columns_series.
Qed.

Lemma header_line_app (name : string) (names more : list string) :
  header_line ((name :: names) ++ more)%list
  = name ++ Str.concat (map (fun x => "," ++ x) names)
    ++ Str.concat (map (fun x => "," ++ x) more) ++ Str.nl.
Proof.
  unfold header_line. cbn [app]. now rewrite map_app, concat_app, append_assoc.
Qed.

(** C6.  The header is the line of the columns of the root type and of
    the four series over the diameter ranges, each name followed by the
    suffix of its kind of quantity; the suffix depends on [pixelconv]
    and on nothing else: [.px], [.px2], [.px3] and [.per.px] for a
    length, an area, a volume and a frequency per length when it is
    off, [.mm], [.mm2], [.mm3] and [.per.mm] when it is on. *)
Theorem header_units_follow_conversion (c : feature_config) :
  writeCsvHeader c
  = header_line (map (column_name (pixelconv c)) (header_columns c))
  /\ (unit_suffix false Length = ".px" /\ unit_suffix false Area = ".px2"
      /\ unit_suffix false Volume = ".px3"
      /\ unit_suffix false PerLength = ".per.px")
  /\ (unit_suffix true Length = ".mm" /\ unit_suffix true Area = ".mm2"
      /\ unit_suffix true Volume = ".mm3"
      /\ unit_suffix true PerLength = ".per.mm").
Proof.
  split; [|repeat split].
  unfold writeCsvHeader, header_columns.
  rewrite map_app.
  destruct (roottype c =? 0)%Z;
    unfold whole_root_columns, broken_root_columns; cbn [map];
    rewrite header_line_app, <- binned_columns;
    destruct (pixelconv c); reflexivity.
Qed.

End Header.

(** ** The rows *)

Section Rows.

Variable E : Env.

Lemma show_cell_encode (value : double) :
  show_cell E (feature_cell E value) = encode_feature E value.
Proof.
  unfold feature_cell, encode_feature, feature_precision, show_cell.
  destruct value as [[]|[]| |[] m e]; reflexivity.
Qed.

(** Commas between the cells are commas before all cells but the
    first. *)
Lemma concat_commas (l : list string) : forall x,
  String.concat "," (x :: l) = x ++ Str.concat (map (fun y => "," ++ y) l).
Proof.
  induction l as [|y l IH]; intros x.
  - cbn. clear. induction x as [|a x IH]; [reflexivity|].
    change (String a x = String a (x ++ EmptyString)). now rewrite <- IH.
  - change (String.concat "," (x :: y :: l))
      with (x ++ "," ++ String.concat "," (y :: l)).
    rewrite IH. change (map (fun y0 => "," ++ y0) (y :: l))
      with (("," ++ y) :: map (fun y0 => "," ++ y0) l).
    change (Str.concat (("," ++ y) :: map (fun y0 => "," ++ y0) l))
      with (("," ++ y) ++ Str.concat (map (fun y0 => "," ++ y0) l)).
    reflexivity.
Qed.

(** The line that the inner loop writes is the documented row. *)
Lemma csv_row_table_row (imageFile roiname : string) (features : list double) :
  csv_row E imageFile roiname features = table_row E imageFile roiname features.
Proof.
  unfold csv_row, table_row.
  change (String.concat "," (filename E imageFile :: roiname
                               :: map (encode_feature E) features))
    with (filename E imageFile ++ ","
            ++ String.concat "," (roiname :: map (encode_feature E) features)).
  rewrite concat_commas, map_map, !append_assoc.
  do 3 f_equal.
  replace (map (fun x => "," ++ encode_feature E x) features)
    with (map (fun feature => "," ++ show_cell E (feature_cell E feature))
            features); [reflexivity|].
  apply map_ext. intros v. now rewrite show_cell_encode.
Qed.

Lemma csv_rows_row_data (imageFiles : list string) :
  forall (allFeatures : list (list double)) (roiNames : list string),
    csv_rows E imageFiles allFeatures roiNames
    = Str.concat
        (map (fun t => table_row E (fst (fst t)) (snd (fst t)) (snd t))
           (row_data imageFiles roiNames allFeatures)).
Proof.
  unfold row_data.
  induction imageFiles as [|f imageFiles IH]; intros [|x allFeatures] [|r roiNames];
    try reflexivity.
  cbn [csv_rows combine map fst snd]. rewrite IH, csv_row_table_row. reflexivity.
Qed.

(** C5, as the program has it.  When the stream opens, the file holds
    what it held, the header when one is due, and one documented row for
    each index: the name of the file, the name of the region, and every
    feature as [NA] when it is a NaN or an infinity, at precision 6 when
    it is zero, and else at the precision [ceil(log10(|value|)) + 6]
    converted to [int], whatever the sign of that number. *)
Theorem feature_cell_encoding
    (c : feature_config) (imageFiles : list string)
    (allFeatures : list (list double)) (roiNames : list string)
    (disk : gmap string string) :
  ofstream_open E (outputFile c) = true ->
  let before := default EmptyString (disk !! outputFile c) in
  let header :=
    if negb (bool_decide (is_Some (disk !! outputFile c))) || noappend c
    then writeCsvHeader c else EmptyString in
  let rows :=
    map (fun t => table_row E (fst (fst t)) (snd (fst t)) (snd t))
      (row_data imageFiles roiNames allFeatures) in
  fst (writeResultsToCsv E c imageFiles allFeatures roiNames disk)
    !! outputFile c
  = Some (before ++ header ++ Str.concat rows).
Proof.
  intros Hopen. cbv zeta.
  rewrite (writeResultsToCsv_contents E _ _ _ _ _ Hopen).
  now rewrite csv_rows_row_data.
Qed.

End Rows.

(** ** A batch of images *)

Section Batch.

Variable E : Env.

Lemma loads_app ev1 ev2 : loads (ev1 ++ ev2)%list = (loads ev1 ++ loads ev2)%list.
Proof.
  induction ev1 as [|e ev1 IH]; [reflexivity|].
  destruct e; cbn; now rewrite ?IH.
Qed.

Lemma loads_stderr l : loads (map Stderr l) = [].
Proof. induction l; [reflexivity | exact IHl]. Qed.

Lemma save_image_loads c wanted image suffix label disk :
  loads (snd (fst (save_image E c wanted image suffix label disk))) = [].
Proof.
  unfold save_image. destruct (wanted && negb (empty image)); [|reflexivity].
  destruct (imwrite E _ image); [reflexivity|].
  destruct (verbose c); reflexivity.
Qed.

(** What [save_image] does, apart from the lines it prints: nothing
    when the image is not asked for or is empty, and else one call of
    [cv::imwrite]. *)
Lemma save_image_effect c wanted image suffix label disk :
  let target :=
    path_append E (outputPath c) (stem E (inputPath c) ++ suffix ++ ".png") in
  exists ev,
    loads ev = []
    /\ save_image E c wanted image suffix label disk
       = if wanted && negb (empty image)
         then (imwrite E target image, ev,
               match imwrite_bytes E target image with
               | Some bytes => <[target := bytes]> disk
               | None => disk
               end)
         else (None, ev, disk).
Proof.
  cbv zeta. unfold save_image, imwrite_on.
  destruct (wanted && negb (empty image)); [|now exists []].
  destruct (imwrite E _ image); eexists; (split; [|reflexivity]);
    [reflexivity | now destruct (verbose c)].
Qed.

(** A path whose contents [save_image] has changed is the path it
    called [cv::imwrite] on. *)
Lemma save_image_disk c wanted image suffix label disk p :
  snd (save_image E c wanted image suffix label disk) !! p <> disk !! p ->
  In (Save p) (snd (fst (save_image E c wanted image suffix label disk))).
Proof.
  unfold save_image, imwrite_on.
  destruct (wanted && negb (empty image));
    [|cbn [fst snd]; intros H; now destruct H].
  match goal with
  | |- context [imwrite_bytes E ?t image] =>
      destruct (decide (p = t)) as [->|Hne];
      [destruct (imwrite E t image); cbn [fst snd]; intros _; now left|];
      destruct (imwrite_bytes E t image), (imwrite E t image); cbn [fst snd];
      intros H; exfalso; apply H; try reflexivity;
      apply lookup_insert_ne; intros Heq; apply Hne; now symmetry
  end.
Qed.

Lemma analyzeImage_disk c disk p :
  snd (analyzeImage E c disk) !! p <> disk !! p ->
  In (Save p) (snd (fst (analyzeImage E c disk))).
Proof.
  unfold analyzeImage.
  destruct (empty (imread E (inputPath c)));
    [cbn [fst snd]; intros H; now destruct H|].
  destruct (feature_extractor E _) as [what|x];
    [cbn [fst snd]; intros H; now destruct H|].
  match goal with
  | |- context [save_image E ?a ?b ?i ?s ?l disk] =>
      pose proof (save_image_disk a b i s l disk p) as D1;
      destruct (save_image E a b i s l disk) as [[[what|] ev1] disk1]
  end; cbn [fst snd] in *.
  { unfold analysis_failed. cbn [fst snd]. intros H. rewrite !in_app_iff.
    left. right. now apply D1. }
  match goal with
  | |- context [save_image E ?a ?b ?i ?s ?l disk1] =>
      pose proof (save_image_disk a b i s l disk1 p) as D2;
      destruct (save_image E a b i s l disk1) as [[[what|] ev2] disk2]
  end; cbn [fst snd] in *.
  all: unfold analysis_failed; cbn [fst snd]; intros H; rewrite !in_app_iff.
  all: destruct (decide (disk1 !! p = disk !! p)) as [He|Hn];
    [rewrite <- He in H; pose proof (D2 H) | pose proof (D1 Hn)]; tauto.
Qed.

(** The loop over the images changes the disk only where an image was
    saved. *)
Lemma process_images_disk imageFiles : forall imgcount i c b disk p,
  snd (process_images E imgcount i imageFiles c b disk) !! p <> disk !! p ->
  In (Save p) (snd (fst (process_images E imgcount i imageFiles c b disk))).
Proof.
  induction imageFiles as [|f imageFiles IH]; intros imgcount i c b disk p;
    cbn [process_images]; [cbn [fst snd]; intros H; now destruct H|].
  pose proof (analyzeImage_disk (c <| inputPath := f |>) disk p) as D1.
  destruct (analyzeImage E (c <| inputPath := f |>) disk)
    as [[[ok c1] ev1] disk1].
  specialize (IH imgcount (S i) c1 (if ok then batch_push b c1 f else b) disk1 p).
  destruct (process_images E imgcount (S i) imageFiles c1 _ disk1)
    as [[[c2 b2] ev2] disk2].
  cbn [fst snd] in *. intros H. rewrite !in_app_iff.
  destruct (decide (disk1 !! p = disk !! p)) as [He|Hn].
  - rewrite <- He in H. right. right. now apply IH.
  - right. left. now apply D1.
Qed.

(** One image: the function does to it what the documentation says. *)
Lemma analyzeImage_examine c f disk :
  exists ev,
    analyzeImage E (c <| inputPath := f |>) disk
    = (measured (fst (fst (examine E c f disk))),
       snd (fst (examine E c f disk)), ev, snd (examine E c f disk))
    /\ loads ev = [f]
    /\ (forall line,
          failure_line f (fst (fst (examine E c f disk))) = Some line ->
          In (Stderr line) ev).
Proof.
  unfold analyzeImage, examine.
  change (imread E (inputPath (c <| inputPath := f |>))) with (imread E f).
  destruct (empty (imread E f)).
  { eexists. split; [reflexivity|]. split; [reflexivity|].
    cbn. intros line [= <-]. right. now left. }
  repeat match goal with
         | |- context [feature_extractor E ?x] =>
             lazymatch x with
             | pipeline_input _ _ _ => fail
             | _ => change x with (pipeline_input E c f)
             end
         end.
  destruct (feature_extractor E (pipeline_input E c f)) as [what|x].
  { unfold analysis_failed. eexists. split; [reflexivity|].
    split; [reflexivity|].
    cbn [fst snd failure_line]. intros line [= <-]. apply in_or_app. right. now left. }
  unfold requested_images. cbv zeta.
  set (c2 := (pipeline_input E c f) <| features := ex_features x |>
               <| seg := ex_seg x |> <| processed := ex_processed x |>).
  change (savesegmented c2) with (savesegmented c).
  change (saveprocessed c2) with (saveprocessed c).
  change (seg c2) with (ex_seg x). change (processed c2) with (ex_processed x).
  change (segsuffix c2) with (segsuffix c).
  change (prosuffix c2) with (prosuffix c).
  destruct (save_image_effect c2 (savesegmented c) (ex_seg x) (segsuffix c)
              "Segmented" disk) as (ev1 & L1 & ->).
  change (inputPath c2) with f. change (outputPath c2) with (outputPath c).
  destruct (savesegmented c && negb (empty (ex_seg x))).
  - cbn [app write_images].
    destruct (imwrite E _ (ex_seg x)) as [what|].
    + unfold analysis_failed. eexists. split; [reflexivity|].
      split; [cbn [app loads]; now rewrite ?loads_app, ?L1, ?L2|].
      cbn [fst snd failure_line]. intros line [= <-]. apply in_or_app. right. now left.
    + match goal with
      | |- context [save_image E c2 _ _ _ _ ?d] =>
          destruct (save_image_effect c2 (saveprocessed c) (ex_processed x)
                      (prosuffix c) "Processed" d) as (ev2 & L2 & ->)
      end.
      change (inputPath c2) with f. change (outputPath c2) with (outputPath c).
      destruct (saveprocessed c && negb (empty (ex_processed x))).
      * cbn [app write_images].
        destruct (imwrite E _ (ex_processed x)) as [what|].
        -- unfold analysis_failed. eexists. split; [reflexivity|].
           split; [cbn [app loads]; now rewrite ?loads_app, ?L1, ?L2|].
           cbn [fst snd failure_line]. intros line [= <-]. apply in_or_app. right. now left.
        -- eexists. split; [reflexivity|].
           split; [cbn [app loads]; now rewrite ?loads_app, ?L1, ?L2 | discriminate].
      * cbn [app write_images]. eexists. split; [reflexivity|].
        split; [cbn [app loads]; now rewrite ?loads_app, ?L1, ?L2 | discriminate].
  - cbn [app].
    destruct (save_image_effect c2 (saveprocessed c) (ex_processed x)
                (prosuffix c) "Processed" disk) as (ev2 & L2 & ->).
    change (inputPath c2) with f. change (outputPath c2) with (outputPath c).
    destruct (saveprocessed c && negb (empty (ex_processed x))).
    + cbn [app write_images].
      destruct (imwrite E _ (ex_processed x)) as [what|].
      * unfold analysis_failed. eexists. split; [reflexivity|].
        split; [cbn [app loads]; now rewrite ?loads_app, ?L1, ?L2|].
        cbn [fst snd failure_line]. intros line [= <-]. apply in_or_app. right. now left.
      * eexists. split; [reflexivity|].
        split; [cbn [app loads]; now rewrite ?loads_app, ?L1, ?L2 | discriminate].
    + cbn [write_images]. eexists. split; [reflexivity|].
      split; [cbn [app loads]; now rewrite ?loads_app, ?L1, ?L2 | discriminate].
Qed.

(** What an image leaves of the configuration: the settings that the
    file of results is written from stay, and a measured image leaves
    its features. *)
Lemma examine_config c f disk :
  csv_settings (snd (fst (examine E c f disk))) = csv_settings c
  /\ forall x, fst (fst (examine E c f disk)) = Measured x ->
               features (snd (fst (examine E c f disk))) = x.
Proof.
  unfold examine.
  destruct (empty (imread E f)); [split; [reflexivity | discriminate]|].
  destruct (feature_extractor E (pipeline_input E c f)) as [what|x];
    [split; [reflexivity | discriminate]|].
  destruct (write_images E _ disk) as [[what|] disk'];
    (split; [reflexivity|]); [discriminate|].
  cbn. now intros ? [= <-].
Qed.

Lemma batch_extend_nil b : batch_extend b [] = b.
Proof.
  destruct b. unfold batch_extend. cbn. now rewrite !app_nil_r.
Qed.

Lemma batch_extend_cons b c f x ms :
  features c = x ->
  batch_extend (batch_push b c f) ms = batch_extend b ((f, x) :: ms).
Proof.
  intros <-. unfold batch_extend, batch_push. cbn.
  now rewrite <- !app_assoc.
Qed.

(** Every file of the batch has its result. *)
Lemma batch_results_files files : forall c disk,
  map fst (fst (batch_results E c files disk)) = files.
Proof.
  induction files as [|f files IH]; intros c disk; [reflexivity|].
  cbn [batch_results]. specialize (IH (snd (fst (examine E c f disk)))
                                     (snd (examine E c f disk))).
  destruct (examine E c f disk) as [[r c1] disk1]. cbn [fst snd] in IH.
  destruct (batch_results E c1 files disk1) as [rs disk2].
  cbn [fst snd map] in *. now rewrite IH.
Qed.

(** The loop over the images: it goes through all the files, in order,
    whatever becomes of each; what it leaves in the three vectors are
    the measured files, their features and the region ["Full"]; every
    failure is reported. *)
Lemma process_images_results imageFiles : forall imgcount i c b disk,
  exists c' ev,
    process_images E imgcount i imageFiles c b disk
    = (c', batch_extend b (measurements (fst (batch_results E c imageFiles disk))),
       ev, snd (batch_results E c imageFiles disk))
    /\ csv_settings c' = csv_settings c
    /\ loads ev = imageFiles
    /\ (forall f r line,
          In (f, r) (fst (batch_results E c imageFiles disk)) ->
          failure_line f r = Some line -> In (Stderr line) ev).
Proof.
  induction imageFiles as [|f imageFiles IH]; intros imgcount i c b disk;
    cbn [process_images batch_results].
  { exists c, []. rewrite batch_extend_nil.
    split; [reflexivity|]. split; [reflexivity|]. split; [reflexivity|].
    intros ? ? ? []. }
  destruct (analyzeImage_examine c f disk) as (ev1 & -> & L1 & R1).
  destruct (examine_config c f disk) as [S1 F1].
  destruct (examine E c f disk) as [[r c1] disk1]. cbn [fst snd] in *.
  destruct (IH imgcount (S i) c1 (if measured r then batch_push b c1 f else b)
              disk1) as (c2 & ev2 & -> & S2 & L2 & R2).
  destruct (batch_results E c1 imageFiles disk1) as [rs disk2].
  cbn [fst snd] in *.
  exists c2. eexists. split; [|split; [|split]].
  - f_equal. f_equal. f_equal.
    destruct r as [|what|x]; cbn [measured measurements]; try reflexivity.
    apply batch_extend_cons. now apply F1.
  - now rewrite S2, S1.
  - rewrite !loads_app, L1, L2.
    now destruct (verbose _ || (1 <? imgcount)%nat).
  - intros g r' line [[= <- <-]|Hin] Hline; rewrite !in_app_iff.
    + right. left. now apply R1.
    + right. right. now apply (R2 g r').
Qed.

Lemma process_images_loads imageFiles imgcount i c b disk :
  loads (snd (fst (process_images E imgcount i imageFiles c b disk)))
  = imageFiles.
Proof.
  destruct (process_images_results imageFiles imgcount i c b disk)
    as (c' & ev & -> & _ & Hl & _).
  exact Hl.
Qed.

Lemma collectImageFiles_loads inputPath recursive :
  loads (snd (collectImageFiles E inputPath recursive)) = [].
Proof.
  unfold collectImageFiles.
  destruct (fs_is_regular_file E inputPath);
    [destruct (isSupportedImageFile E inputPath); reflexivity|].
  destruct (fs_is_directory E inputPath); [|reflexivity].
  destruct (if recursive then _ else _) as [entries [what|]]; reflexivity.
Qed.

Lemma configuration_report_loads c found :
  loads (configuration_report E c found) = [].
Proof.
  unfold configuration_report. rewrite loads_app.
  now destruct (pixelconv c).
Qed.

(** Writing the file looks at [csv_settings] only. *)
Lemma writeResultsToCsv_settings c c' imageFiles allFeatures roiNames disk :
  csv_settings c' = csv_settings c ->
  writeResultsToCsv E c' imageFiles allFeatures roiNames disk
  = writeResultsToCsv E c imageFiles allFeatures roiNames disk.
Proof.
  unfold csv_settings. intros H. injection H as H1 H2 H3 H4 H5 H6.
  unfold writeResultsToCsv, writeCsvHeader, range_columns.
  now rewrite H1, H2, H3, H4, H5, H6.
Qed.

Lemma writeResultsToCsv_loads c imageFiles allFeatures roiNames disk :
  loads (snd (writeResultsToCsv E c imageFiles allFeatures roiNames disk)) = [].
Proof.
  unfold writeResultsToCsv.
  destruct (negb (noappend c) && _ && verbose c), (ofstream_open E _);
    reflexivity.
Qed.

(** The rows of the three vectors are the rows of the measured files. *)
Lemma csv_rows_measurements (ms : list (string * list double)) :
  csv_rows E (map fst ms) (map snd ms) (repeat "Full" (length ms))
  = table_rows E ms.
Proof.
  unfold table_rows.
  induction ms as [|[f x] ms IH]; [reflexivity|].
  cbn [map fst snd length repeat csv_rows]. rewrite IH, csv_row_table_row.
  reflexivity.
Qed.

(** A run that gets to the images, as a whole. *)
Lemma main_batch (argv : list string) (disk : gmap string string) :
  let c := parseCommandLine E argv in
  showHelp c = false -> showVersion c = false ->
  showLicense c = false -> showCredits c = false ->
  let imageFiles := fst (collectImageFiles E (inputPath c) (recursive c)) in
  let batch := batch_results E (c <| consolemode := true |>) imageFiles disk in
  let o := main E argv disk in
  loads (events o) = imageFiles
  /\ (forall f r line,
        In (f, r) (fst batch) -> failure_line f r = Some line ->
        In (Stderr line) (events o))
  /\ match measurements (fst batch) with
     | [] => exit_code o = 1%Z /\ disk_after o = snd batch
     | ms => exit_code o = 0%Z
             /\ disk_after o = results_written E c ms (snd batch)
     end.
Proof.
  cbv zeta. unfold main, parseCommandLine. intros -> -> -> ->.
  pose proof (collectImageFiles_loads (inputPath (config (parse E argv)))
                (recursive (config (parse E argv)))) as Hc.
  destruct (collectImageFiles E _ _) as [imageFiles ev1]. cbn [fst snd] in *.
  destruct imageFiles as [|f imageFiles].
  { cbn [length Nat.eqb batch_results fst snd measurements events exit_code
          disk_after].
    rewrite !loads_app, loads_stderr, Hc.
    split; [reflexivity|]. split; [intros ? ? ? []|]. now split. }
  cbn [length Nat.eqb].
  destruct (process_images_results (f :: imageFiles) (S (length imageFiles)) 0
              ((config (parse E argv)) <| consolemode := true |>)
              batch_empty disk) as (c' & ev3 & -> & Hset & Hl & Hrep).
  destruct (batch_results E _ (f :: imageFiles) disk) as [rs disk1].
  cbn [fst snd] in *.
  assert (Hev2 : loads (if verbose (config (parse E argv))
                        then configuration_report E (config (parse E argv))
                               (S (length imageFiles))
                        else []) = []).
  { destruct (verbose _); [apply configuration_report_loads | reflexivity]. }
  unfold batch_extend, batch_empty.
  cbn [processedFiles allFeatures roinames app].
  rewrite length_map.
  destruct (measurements rs) as [|m ms] eqn:Hms.
  - cbn [length Nat.eqb events exit_code disk_after].
    rewrite !loads_app, loads_stderr, Hc, Hev2, Hl.
    split; [now rewrite app_nil_r|]. split; [|now split].
    intros g r line Hin Hline. rewrite !in_app_iff.
    do 3 right. left. now apply (Hrep g r).
  - cbn [length Nat.eqb].
    rewrite (writeResultsToCsv_settings (config (parse E argv)) c') by exact Hset.
    pose proof (writeResultsToCsv_loads (config (parse E argv))
                  (map fst (m :: ms)) (map snd (m :: ms))
                  (repeat "Full" (length (m :: ms))) disk1) as Hw.
    assert (Hd : fst (writeResultsToCsv E (config (parse E argv))
                        (map fst (m :: ms)) (map snd (m :: ms))
                        (repeat "Full" (length (m :: ms))) disk1)
                 = results_written E (config (parse E argv)) (m :: ms) disk1).
    { unfold writeResultsToCsv, results_written.
      rewrite csv_rows_measurements.
      now destruct (ofstream_open E _). }
    cbn [length] in Hw, Hd.
    destruct (writeResultsToCsv E (config (parse E argv)) _ _ _ disk1)
      as [disk' ev4].
    cbn [fst snd events exit_code disk_after] in *.
    rewrite !loads_app, loads_stderr, Hc, Hev2, Hl, Hw.
    split; [now rewrite app_nil_r|]. split; [|now split].
    intros g r line Hin Hline. rewrite !in_app_iff.
    do 3 right. left. now apply (Hrep g r).
Qed.

(** C4.  On a command line that starts a run, [main] goes through all
    the image files it collected, in order, whatever became of the files
    before: an image that cannot be read and an image whose analysis
    throws are reported on [std::cerr] with their path, and the loop
    goes on.  When no image was measured the exit code is 1 and no file
    of results is written; otherwise the exit code is 0 and the file of
    results receives, after what it held and after the header when one
    is due, one row for each measured image, in order, with the features
    that the pipeline returned for it ([results_written]; the rows go
    through a [std::ofstream], and nothing is written when it does not
    open).  The disk that the rows are written on is the one that the
    images saved on the way have left. *)
Theorem batch_survives_failures (argv : list string) (disk : gmap string string) :
  let c := parseCommandLine E argv in
  showHelp c = false -> showVersion c = false ->
  showLicense c = false -> showCredits c = false ->
  let imageFiles := fst (collectImageFiles E (inputPath c) (recursive c)) in
  let batch := batch_results E (c <| consolemode := true |>) imageFiles disk in
  let ms := measurements (fst batch) in
  let o := main E argv disk in
  loads (events o) = imageFiles
  /\ map fst (fst batch) = imageFiles
  /\ (forall f r line,
        In (f, r) (fst batch) -> failure_line f r = Some line ->
        In (Stderr line) (events o))
  /\ exit_code o = (if (length ms =? 0)%nat then 1 else 0)%Z
  /\ disk_after o
     = (if (length ms =? 0)%nat then snd batch
        else results_written E c ms (snd batch)).
Proof.
  intros c H1 H2 H3 H4 imageFiles batch ms o.
  destruct (main_batch argv disk H1 H2 H3 H4) as (Hl & Hrep & Hend).
  fold c imageFiles batch o in Hl, Hrep, Hend. fold ms in Hend.
  split; [exact Hl|]. split; [apply batch_results_files|].
  split; [exact Hrep|].
  destruct ms as [|m ms']; cbn [length Nat.eqb]; exact Hend.
Qed.

Lemma append_nil_r (s : string) : s ++ EmptyString = s.
Proof.
  induction s as [|a s IH]; [reflexivity|].
  change (String a (s ++ EmptyString) = String a s). now rewrite IH.
Qed.




Lemma starts_with_append (p rest : string) : Str.starts_with p (p ++ rest) = true.
Proof.
  induction p as [|a p IH]; [reflexivity|].
  change (String a p ++ rest) with (String a (p ++ rest)).
  cbn [Str.starts_with]. now rewrite Ascii.eqb_refl, IH.
Qed.


End Batch.

(** ** Errors and the usage text *)

Section Errors.

Variable E : Env.

Lemma explained_error l hm msg :
  is_error msg = true -> explained_of (l ++ [msg]) true hm.
Proof.
  intros He. split; [reflexivity|]. intros _. right. exists msg.
  split; [apply in_or_app; right; now left | exact He].
Qed.

Lemma explained_warning l h hm msg :
  is_error msg = false -> explained_of l h hm -> explained_of (l ++ [msg]) h hm.
Proof.
  intros Hw [H1 H2]. split.
  - intros (line & Hin & He). apply in_app_or in Hin as [Hin|[<-|[]]].
    + apply H1. eauto.
    + congruence.
  - intros Hh. destruct (H2 Hh) as [?|(line & Hin & He)]; [now left|].
    right. exists line. split; [apply in_or_app; now left | exact He].
Qed.

Lemma explained_help l : explained_of l true true.
Proof. split; [reflexivity | now left]. Qed.

Lemma explained_appended l l' h hm :
  Forall (fun msg => is_error msg = false) l' ->
  explained_of l h hm -> explained_of (l ++ l') h hm.
Proof.
  induction l' as [|msg l' IH] using rev_ind; intros Hall H.
  - now rewrite app_nil_r.
  - apply Forall_app in Hall as [Hl' Hmsg]. inversion Hmsg; subst.
    rewrite app_assoc. apply explained_warning; auto.
Qed.

(** The inner loop of [--dranges] returns with a line that reports an
    error. *)
Lemma dranges_loop_error r : forall s,
  exists out,
    (exists r', dranges_loop E s r = Continue (s <|| dranges := out ||>) r')
    \/ (exists msg,
          dranges_loop E s r
          = Return (complain ("Error: " ++ msg) (s <|| dranges := out ||>))).
Proof.
  induction r as [|next r IH]; intros s; cbn [dranges_loop].
  - exists (dranges (config s)). left. exists [].
    destruct s as [c]; destruct c; reflexivity.
  - destruct (negb (Str.is_empty next) && Ascii.eqb (Str.head next) "-").
    + exists (dranges (config s)). left. exists (next :: r).
      destruct s as [c]; destruct c; reflexivity.
    + destruct (consume_drange_token E next (dranges (config s)))
        as [[was out] err].
      destruct (negb was); [exists out; left; eauto|].
      destruct (negb (Str.is_empty err)); [exists out; right; eauto|].
      destruct (IH (s <|| dranges := out ||>)) as [out' [[r' H]|[msg H]]];
        exists out'; [left; exists r'|right; exists msg]; rewrite H; reflexivity.
Qed.

Ltac explain H :=
  first [ exact H
        | apply explained_help
        | apply explained_error; reflexivity
        | apply explained_warning; [reflexivity | exact H] ].

Lemma step_explained s a r :
  explained s ->
  match step E s a r with
  | Continue s' _ => explained s'
  | Return s' => explained s'
  end.
Proof.
  unfold explained. intros H. unfold step, with_value.
  destruct (classify a);
    try (destruct (dranges_loop_error r (s <|| dranges := [] ||>))
           as [? [[? ->]|[? ->]]]);
    try destruct r;
    repeat match goal with
           | |- context [if ?b then _ else _] => destruct b
           end; cbn; explain H.
Qed.

Lemma dranges_error_is_error prev d msg :
  dranges_error E prev d = Some msg -> is_error msg = true.
Proof.
  revert prev. induction d as [|x d IH]; intros prev; cbn [dranges_error];
    [discriminate|].
  destruct (negb _); [intros H; inversion H; reflexivity|].
  destruct prev as [p|]; [destruct (negb _)|]; eauto.
  intros H; inversion H; reflexivity.
Qed.

(** A property that every block keeps is kept by their sequence. *)
Lemma and_then_keeps (P : parse_state -> Prop) f g :
  (forall s, P s -> P (returned (f s))) ->
  (forall s, P s -> P (returned (g s))) ->
  forall s, P s -> P (returned (f s >>> g)).
Proof.
  intros Hf Hg s H. specialize (Hf s H).
  destruct (f s) as [s1|s1]; cbn in *; auto.
Qed.

Lemma after_loop_explained s :
  explained s -> explained (returned (after_loop E s)).
Proof.
  revert s. unfold after_loop.
  repeat (apply and_then_keeps; [|]); unfold explained; intros s H.
  - unfold check_input_path. block_cases; cbn; explain H.
  - unfold default_output_path. block_cases; cbn; explain H.
  - unfold check_output_path. block_cases; cbn; explain H.
  - unfold resolve_output_file. block_cases; cbn; explain H.
  - unfold broken_root_overlays. block_cases; cbn; explain H.
  - unfold conversion_factor. block_cases; cbn; explain H.
  - unfold check_dranges_sorted. block_cases; cbn; explain H.
  - unfold validate_dranges.
    destruct (dranges_error E None _) as [msg|] eqn:Hm; cbn; [|exact H].
    apply explained_error. eapply dranges_error_is_error; eauto.
  - unfold dependent_option_warnings. cbv zeta.
    rewrite !warn_if_appended. cbn.
    repeat (apply explained_appended;
            [match goal with
             | |- context [if ?b then _ else _] => destruct b
             end; repeat constructor|]).
    exact H.
Qed.

Lemma parse_from_explained s args :
  explained s -> explained (parse_from E s args).
Proof.
  intros H. unfold parse_from.
  pose proof (parse_loop_inv E explained (fun _ => True)
                (fun s a r H _ => step_explained s a r H)
                (length args) s args) as Hinv.
  destruct (parse_loop E (length args) s args) as [s' [|]]; cbn [fst] in Hinv.
  - apply Hinv; [apply List.Forall_forall|]; auto.
  - apply after_loop_explained. apply Hinv; [apply List.Forall_forall|]; auto.
Qed.

Lemma parse_explained argv : explained (parse E argv).
Proof.
  apply parse_from_explained. split; [intros (? & [] & _) | discriminate].
Qed.

(** What [main] does once [parseCommandLine] has complained. *)
Lemma main_refused argv disk msg :
  complained msg (parse E argv) -> refused msg argv disk (main E argv disk).
Proof.
  intros [Hhelp Hmsg]. unfold refused.
  rewrite (main_usage E argv disk Hhelp).
  cbn [events exit_code disk_after].
  split; [apply in_or_app; left; now apply in_map|].
  split; [apply in_or_app; right; now left|].
  split; [now rewrite loads_app, loads_stderr|].
  split.
  - intros p Hin. apply in_app_or in Hin as [Hin|[Hin|[]]]; [|discriminate].
    apply in_map_iff in Hin as (x & Hx & _). discriminate.
  - split; [reflexivity|].
    destruct (showHelpMain (parseCommandLine E argv)) eqn:Hm.
    + right. split; [reflexivity|].
      exact (showHelpMain_requested E argv Hm).
    + now left.
Qed.

(** X1.  Every line of [parseCommandLine] that reports an error ends the run:
    the usage text is printed, no image is loaded or analysed, nothing is
    written, and the exit code is 1 unless help was asked for as well. *)
Theorem reported_error_ends_run
    (argv : list string) (disk : gmap string string) (line : string) :
  In line (cerr (parse E argv)) ->
  is_error line = true ->
  refused line argv disk (main E argv disk).
Proof.
  intros Hin He. apply main_refused. split; [|exact Hin].
  destruct (parse_explained argv) as [H _]. apply H. eauto.
Qed.

End Errors.

(** ** Arguments that end the run *)

Section Arguments.

Variable E : Env.

Lemma refused_from
    (prog : string) (args : list string) (s : parse_state)
    (rest : list string) (msg : string) (disk : gmap string string) :
  reaches E parse_state_init args s rest ->
  complained msg (parse_from E s rest) ->
  refused msg (prog :: args) disk (main E (prog :: args) disk).
Proof.
  intros Hreach H. apply main_refused.
  unfold parse. cbn [tl]. now rewrite (reaches_parse_from E _ _ _ _ Hreach).
Qed.

Lemma complained_complain msg s : complained msg (complain msg s).
Proof.
  split; [reflexivity|]. cbn. apply in_or_app. right. now left.
Qed.

(** X2.  An argument that begins with [-] and is no option of the program
    ends the run, wherever it stands. *)
Theorem unknown_option_refused
    (prog : string) (args : list string) (s : parse_state)
    (a : string) (rest : list string) (disk : gmap string string) :
  reaches E parse_state_init args s (a :: rest) ->
  classify a = Unknown ->
  refused ("Error: Unknown option " ++ a) (prog :: args) disk
    (main E (prog :: args) disk).
Proof.
  intros Hreach Ha. apply (refused_from _ _ _ _ _ _ Hreach).
  rewrite (parse_from_step E _ _ _ _ _ (step_unknown E s a rest Ha)).
  apply parse_from_complained, complained_complain.
Qed.

Lemma step_missing_value s a :
  takes_value (classify a) = true ->
  exists msg s',
    step E s a [] = Continue (complain msg s') []
    /\ Str.starts_with ("Error: " ++ long_name (classify a) ++ " requires ") msg
       = true.
Proof.
  unfold step, with_value.
  destruct (classify a); try discriminate; intros _;
    eexists _, _; split; reflexivity.
Qed.

(** X3.  An option that reads the argument after it and is the last argument
    ends the run; the complaint calls the option by its long name. *)
Theorem missing_value_refused
    (prog : string) (args : list string) (s : parse_state)
    (a : string) (disk : gmap string string) :
  reaches E parse_state_init args s [a] ->
  takes_value (classify a) = true ->
  exists msg,
    Str.starts_with ("Error: " ++ long_name (classify a) ++ " requires ") msg
    = true
    /\ refused msg (prog :: args) disk (main E (prog :: args) disk).
Proof.
  intros Hreach Ha.
  destruct (step_missing_value s a Ha) as (msg & s' & Hstep & Hmsg).
  exists msg. split; [exact Hmsg|].
  apply (refused_from _ _ _ _ _ _ Hreach).
  rewrite (parse_from_step E _ _ _ _ _ Hstep).
  apply parse_from_complained, complained_complain.
Qed.

(** X4.  A second input path ends the run. *)
Theorem second_input_path_refused
    (prog : string) (args : list string) (s : parse_state)
    (a : string) (rest : list string) (disk : gmap string string) :
  reaches E parse_state_init args s (a :: rest) ->
  classify a = Positional ->
  Str.is_empty (inputPath (config s)) = false ->
  refused "Error: Multiple input paths specified." (prog :: args) disk
    (main E (prog :: args) disk).
Proof.
  intros Hreach Ha Hin. apply (refused_from _ _ _ _ _ _ Hreach).
  assert (Hstep : step E s a rest
                  = Continue (complain "Error: Multiple input paths specified." s) rest).
  { unfold step. now rewrite Ha, Hin. }
  rewrite (parse_from_step E _ _ _ _ _ Hstep).
  apply parse_from_complained, complained_complain.
Qed.

(** X5.  A root type other than 0 and 1, or a threshold outside 0 to 255,
    ends the run: the value is neither stored nor brought into range. *)
Theorem out_of_range_value_refused
    (prog : string) (args : list string) (s : parse_state)
    (a v : string) (rest : list string) (disk : gmap string string)
    (msg : string) :
  reaches E parse_state_init args s (a :: v :: rest) ->
  (classify a = ORootType
   /\ atoi E v <> 0%Z /\ atoi E v <> 1%Z
   /\ msg = "Error: --roottype must be 0 (whole) or 1 (broken).")
  \/ (classify a = OThreshold
      /\ ~ (0 <= atoi E v <= 255)%Z
      /\ msg = "Error: --threshold must be between 0 and 255.") ->
  refused msg (prog :: args) disk (main E (prog :: args) disk).
Proof.
  intros Hreach Hv. apply (refused_from _ _ _ _ _ _ Hreach).
  assert (Hstep : step E s a (v :: rest) = Continue (complain msg s) rest).
  { unfold step, with_value.
    destruct Hv as [(-> & H0 & H1 & ->)|(-> & Hr & ->)].
    - apply Z.eqb_neq in H0, H1. now rewrite H0, H1.
    - destruct (0 <=? atoi E v)%Z eqn:Hl, (atoi E v <=? 255)%Z eqn:Hu;
        try reflexivity.
      apply Z.leb_le in Hl, Hu. lia. }
  rewrite (parse_from_step E _ _ _ _ _ Hstep).
  apply parse_from_complained, complained_complain.
Qed.

Lemma step_in_range s a r :
  in_range s ->
  match step E s a r with
  | Continue s' _ => in_range s'
  | Return s' => in_range s'
  end.
Proof.
  unfold in_range. intros H. unfold step, with_value.
  destruct (classify a);
    try (destruct (dranges_loop_effect E r (s <|| dranges := [] ||>))
           as [? [[? ->]|[? ->]]]);
    try destruct r;
    repeat match goal with
           | |- context [if ?b then _ else _] => destruct b eqn:?
           end; cbn; try exact H.
  - split; [|apply H].
    match goal with
    | Hb : _ || _ = true |- _ =>
        apply orb_prop in Hb as [Hb|Hb]; apply Z.eqb_eq in Hb; auto
    end.
  - split; [apply H|].
    match goal with
    | Hb : _ && _ = true |- _ =>
        apply andb_prop in Hb as [Hl Hu]; apply Z.leb_le in Hl, Hu; lia
    end.
Qed.

Lemma after_loop_in_range s :
  in_range s -> in_range (returned (after_loop E s)).
Proof.
  unfold in_range. intros H. after_loop_cases E; exact H.
Qed.

(** X6.  Whatever the command line, the root type returned is 0 or 1 and the
    threshold lies between 0 and 255. *)
Theorem validated_members_in_range (argv : list string) :
  let c := parseCommandLine E argv in
  (roottype c = 0%Z \/ roottype c = 1%Z) /\ (0 <= threshold c <= 255)%Z.
Proof.
  cbv zeta. unfold parseCommandLine, parse, parse_from.
  pose proof (parse_loop_inv E in_range (fun _ => True)
                (fun s a r H _ => step_in_range s a r H)
                (length (tl argv)) parse_state_init (tl argv)) as Hinv.
  assert (H0 : in_range parse_state_init).
  { split; [now right | cbn; lia]. }
  destruct (parse_loop E (length (tl argv)) parse_state_init (tl argv))
    as [s [|]]; cbn [fst] in Hinv.
  - apply Hinv; [apply List.Forall_forall; auto | exact H0].
  - apply after_loop_in_range.
    apply Hinv; [apply List.Forall_forall; auto | exact H0].
Qed.

Lemma step_helped s a r :
  helped s ->
  match step E s a r with
  | Continue s' _ => helped s'
  | Return s' => helped s'
  end.
Proof.
  unfold helped. intros [H1 H2]. step_cases E s a r; cbn; auto.
Qed.

Lemma after_loop_helped s :
  helped s -> helped (returned (after_loop E s)).
Proof.
  unfold helped. intros [H1 H2]. after_loop_cases E; cbn; auto.
Qed.

Lemma parse_from_helped s args : helped s -> helped (parse_from E s args).
Proof.
  intros H. unfold parse_from.
  pose proof (parse_loop_inv E helped (fun _ => True)
                (fun s a r H _ => step_helped s a r H)
                (length args) s args) as Hinv.
  destruct (parse_loop E (length args) s args) as [s' [|]]; cbn [fst] in Hinv.
  - apply Hinv; [apply List.Forall_forall|]; auto.
  - apply after_loop_helped. apply Hinv; [apply List.Forall_forall|]; auto.
Qed.

(** X7.  Once [-h] or [--help] is read, the run prints what the arguments
    made [parseCommandLine] write to [std::cerr] and the usage text, and
    ends with exit code 0, whatever the other arguments are: errors in
    them included. *)
Theorem help_ends_run
    (prog : string) (args : list string) (s : parse_state)
    (a : string) (rest : list string) (disk : gmap string string) :
  reaches E parse_state_init args s (a :: rest) ->
  classify a = OHelp ->
  main E (prog :: args) disk
  = {| exit_code := 0;
       events := (map Stderr (cerr (parse E (prog :: args))) ++ [Usage prog])%list;
       disk_after := disk |}.
Proof.
  intros Hreach Ha.
  assert (H : helped (parse E (prog :: args))).
  { unfold parse. cbn [tl]. rewrite (reaches_parse_from E _ _ _ _ Hreach).
    assert (Hstep : step E s a rest
                    = Continue (s <|| showHelp := true ||> <|| showHelpMain := true ||>) rest).
    { unfold step. now rewrite Ha. }
    rewrite (parse_from_step E _ _ _ _ _ Hstep).
    apply parse_from_helped. split; reflexivity. }
  destruct H as [H1 H2].
  rewrite (main_usage E (prog :: args) disk H1).
  unfold parseCommandLine. now rewrite H2.
Qed.

Lemma step_inputPath p s a r :
  Str.is_empty p = false ->
  inputPath (config s) = p ->
  match step E s a r with
  | Continue s' _ => inputPath (config s') = p
  | Return s' => inputPath (config s') = p
  end.
Proof.
  intros Hp H. unfold step, with_value.
  destruct (classify a);
    try (destruct (dranges_loop_effect E r (s <|| dranges := [] ||>))
           as [? [[? ->]|[? ->]]]);
    try destruct r; try rewrite H, Hp;
    repeat match goal with
           | |- context [if ?b then _ else _] => destruct b
           end; cbn; auto.
Qed.

Lemma after_loop_inputPath s :
  inputPath (config (returned (after_loop E s))) = inputPath (config s).
Proof.
  after_loop_cases E; reflexivity.
Qed.

(** X8.  The first argument that is read as an input path is the input path
    returned. *)
Theorem first_input_path_kept
    (prog : string) (args : list string) (s : parse_state)
    (a : string) (rest : list string) :
  reaches E parse_state_init args s (a :: rest) ->
  classify a = Positional ->
  Str.is_empty (inputPath (config s)) = true ->
  Str.is_empty a = false ->
  inputPath (parseCommandLine E (prog :: args)) = a.
Proof.
  intros Hreach Ha Hs Hne. unfold parseCommandLine, parse. cbn [tl].
  rewrite (reaches_parse_from E _ _ _ _ Hreach).
  assert (Hstep : step E s a rest = Continue (s <|| inputPath := a ||>) rest).
  { unfold step. now rewrite Ha, Hs. }
  rewrite (parse_from_step E _ _ _ _ _ Hstep). unfold parse_from.
  pose proof (parse_loop_inv E (fun s => inputPath (config s) = a)
                (fun _ => True)
                (fun s a0 r H _ => step_inputPath a s a0 r Hne H)
                (length rest) (s <|| inputPath := a ||>) rest) as Hinv.
  destruct (parse_loop E (length rest) _ rest) as [s' [|]]; cbn [fst] in Hinv;
    rewrite ?after_loop_inputPath; apply Hinv;
    try (apply List.Forall_forall; auto); reflexivity.
Qed.

(** X9.  An exit code other than 0 is 1 and comes with a line on
    [std::cerr] that says why; no file of results is written then: a
    path whose contents have changed is one that [cv::imwrite] was
    called on. *)
Theorem failure_is_explained (argv : list string) (disk : gmap string string) :
  let o := main E argv disk in
  (exit_code o = 0%Z \/ exit_code o = 1%Z)
  /\ (exit_code o = 1%Z ->
      (exists line,
         In (Stderr line) (events o)
         /\ (is_error line = true \/ Str.starts_with "No " line = true))
      /\ forall p, disk_after o !! p <> disk !! p -> In (Save p) (events o)).
Proof.
  cbv zeta. unfold main.
  destruct (parse_explained E argv) as [_ Hex].
  destruct (showHelp (config (parse E argv))).
  { cbn [exit_code events disk_after].
    destruct (showHelpMain (config (parse E argv))); cbn [negb].
    - split; [now left | discriminate].
    - split; [now right|]. intros _. split; [|intros p H; now destruct H].
      destruct (Hex eq_refl) as [?|(line & Hin & He)]; [discriminate|].
      exists line. split; [|now left].
      apply in_or_app. left. now apply in_map. }
  destruct (showVersion _); [split; [now left | discriminate]|].
  destruct (showLicense _); [split; [now left | discriminate]|].
  destruct (showCredits _); [split; [now left | discriminate]|].
  destruct (collectImageFiles E _ _) as [imageFiles ev1].
  destruct (length imageFiles =? 0)%nat.
  { cbn [exit_code events disk_after]. split; [now right|]. intros _.
    split; [|intros p H; now destruct H]. eexists.
    split; [rewrite !in_app_iff; right; right; now left | right; reflexivity]. }
  match goal with
  | |- context [process_images E ?n ?i ?l ?c ?b disk] =>
      pose proof (process_images_disk E l n i c b disk) as Hd;
      destruct (process_images E n i l c b disk) as [[[c' b'] ev3] disk3]
  end.
  cbn [fst snd] in Hd.
  destruct (length (processedFiles b') =? 0)%nat.
  { cbn [exit_code events disk_after]. split; [now right|]. intros _. split.
    - eexists.
      split; [rewrite !in_app_iff; do 4 right; now left | right; reflexivity].
    - intros p H. rewrite !in_app_iff. do 3 right. left. now apply Hd. }
  destruct (writeResultsToCsv E _ _ _ _ _) as [disk' ev4].
  split; [now left | discriminate].
Qed.

End Arguments.

(** ** Where the results go *)

Section Paths.

Variable E : Env.

Lemma accepted_after_loop s r :
  r = returned (after_loop E s) ->
  accepted (config r) = true ->
  exists s1,
    check_input_path s = Next s
    /\ default_output_path E s = Next s1
    /\ check_output_path E s1 = Next s1
    /\ fs_exists E (outputPath (config s1)) = true
    /\ exists s2,
         resolve_output_file E s1 = Next s2
         /\ outputPath (config r) = outputPath (config s1)
         /\ outputFile (config r) = outputFile (config s2)
         /\ inputPath (config r) = inputPath (config s).
Proof.
  unfold accepted, after_loop.
  destruct (check_input_path_effect s) as [[Hne ->]|[He [-> | ->]]];
    cbn [and_then returned];
    [| intros ->; cbn; rewrite ?He, ?andb_false_r; discriminate ..].
  destruct (default_output_path_effect E s) as [p Hp]. rewrite Hp.
  cbn [and_then].
  unfold check_output_path at 1.
  destruct (fs_exists E (outputPath (config (s <|| outputPath := p ||>))))
    eqn:Hex; cbn [negb and_then returned]; [|intros ->; discriminate].
  destruct (resolve_output_file_effect E (s <|| outputPath := p ||>))
    as [[f Hf]|[msg Hf]]; rewrite Hf; cbn [and_then returned];
    [|intros ->; discriminate].
  intros Hr Hacc. exists (s <|| outputPath := p ||>).
  split; [reflexivity|]. split; [reflexivity|].
  split; [unfold check_output_path; now rewrite Hex|].
  split; [exact Hex|].
  exists (s <|| outputPath := p ||> <|| outputFile := f ||>).
  split; [exact Hf|].
  revert Hr Hacc. repeat after_loop_step E; intros ->; cbn; intros;
    try discriminate; repeat split.
Qed.

Lemma parse_accepted argv :
  accepted (parseCommandLine E argv) = true ->
  exists s,
    parse_loop E (length (tl argv)) parse_state_init (tl argv) = (s, false)
    /\ parse E argv = returned (after_loop E s).
Proof.
  unfold parseCommandLine, parse, parse_from.
  destruct (parse_loop E (length (tl argv)) parse_state_init (tl argv))
    as [s [|]] eqn:Hloop.
  - apply parse_loop_return_showHelp in Hloop. unfold accepted.
    rewrite Hloop. discriminate.
  - eauto.
Qed.

(** X10.  On an accepted command line the output path exists. *)
Theorem accepted_output_path_exists (argv : list string) :
  let c := parseCommandLine E argv in
  accepted c = true -> fs_exists E (outputPath c) = true.
Proof.
  cbv zeta. intros Hacc.
  destruct (parse_accepted argv Hacc) as (s & _ & Hs).
  unfold parseCommandLine in *. rewrite Hs in *.
  destruct (accepted_after_loop s _ eq_refl Hacc)
    as (s1 & _ & _ & _ & Hex & s2 & _ & -> & _). exact Hex.
Qed.

Lemma step_outputPath s a r :
  classify a <> OOutputPath ->
  match step E s a r with
  | Continue s' _ => outputPath (config s') = outputPath (config s)
  | Return s' => outputPath (config s') = outputPath (config s)
  end.
Proof.
  intros Ha. unfold step, with_value.
  destruct (classify a); try congruence;
    try (destruct (dranges_loop_effect E r (s <|| dranges := [] ||>))
           as [? [[? ->]|[? ->]]]);
    try destruct r;
    repeat match goal with
           | |- context [if ?b then _ else _] => destruct b
           end; reflexivity.
Qed.

Lemma step_outputFile s a r :
  classify a <> OOutput ->
  match step E s a r with
  | Continue s' _ => outputFile (config s') = outputFile (config s)
  | Return s' => outputFile (config s') = outputFile (config s)
  end.
Proof.
  intros Ha. unfold step, with_value.
  destruct (classify a); try congruence;
    try (destruct (dranges_loop_effect E r (s <|| dranges := [] ||>))
           as [? [[? ->]|[? ->]]]);
    try destruct r;
    repeat match goal with
           | |- context [if ?b then _ else _] => destruct b
           end; reflexivity.
Qed.

(** X11.  Without [-op] and [--output_path], the output path of an accepted
    command line is the directory of the input. *)
Theorem output_path_defaults_to_input (argv : list string) :
  Forall (fun a => classify a <> OOutputPath) (tl argv) ->
  let c := parseCommandLine E argv in
  accepted c = true ->
  outputPath c = input_directory E (inputPath c).
Proof.
  cbv zeta. intros Hargs Hacc.
  destruct (parse_accepted argv Hacc) as (s & Hloop & Hs).
  pose proof (parse_loop_inv E
                (fun s => outputPath (config s) = EmptyString)
                (fun a => classify a <> OOutputPath)) as Hinv.
  specialize (Hinv (fun s a r H Ha =>
    match step E s a r as x
      return match x with
             | Continue s' _ => outputPath (config s') = outputPath (config s)
             | Return s' => outputPath (config s') = outputPath (config s)
             end ->
             match x with
             | Continue s' _ => outputPath (config s') = EmptyString
             | Return s' => outputPath (config s') = EmptyString
             end
    with
    | Continue s' _ => fun e => eq_trans e H
    | Return s' => fun e => eq_trans e H
    end (step_outputPath s a r Ha))
    (length (tl argv)) parse_state_init (tl argv) Hargs eq_refl).
  rewrite Hloop in Hinv. cbn [fst] in Hinv.
  unfold parseCommandLine in *. rewrite Hs in *.
  destruct (accepted_after_loop s _ eq_refl Hacc)
    as (s1 & Hin & Hdef & _ & _ & s2 & _ & -> & _ & ->).
  unfold default_output_path in Hdef. rewrite Hinv in Hdef. cbn [Str.is_empty] in Hdef.
  unfold check_input_path in Hin.
  destruct (Str.is_empty (inputPath (config s))) eqn:Hne.
  { destruct (negb _); discriminate. }
  cbn [negb] in Hdef. unfold input_directory.
  destruct (fs_is_directory E (inputPath (config s)));
    injection Hdef as <-; reflexivity.
Qed.

(** X12.  Without [-o] and [--output], the output file of an accepted command
    line is [features.csv] in the output path. *)
Theorem output_file_defaults_to_features_csv (argv : list string) :
  Forall (fun a => classify a <> OOutput) (tl argv) ->
  is_absolute E "features.csv" = false ->
  let c := parseCommandLine E argv in
  accepted c = true ->
  outputFile c = path_append E (outputPath c) "features.csv".
Proof.
  cbv zeta. intros Hargs Habs Hacc.
  destruct (parse_accepted argv Hacc) as (s & Hloop & Hs).
  pose proof (parse_loop_inv E
                (fun s => outputFile (config s) = "features.csv")
                (fun a => classify a <> OOutput)) as Hinv.
  specialize (Hinv (fun s a r H Ha =>
    match step E s a r as x
      return match x with
             | Continue s' _ => outputFile (config s') = outputFile (config s)
             | Return s' => outputFile (config s') = outputFile (config s)
             end ->
             match x with
             | Continue s' _ => outputFile (config s') = "features.csv"
             | Return s' => outputFile (config s') = "features.csv"
             end
    with
    | Continue s' _ => fun e => eq_trans e H
    | Return s' => fun e => eq_trans e H
    end (step_outputFile s a r Ha))
    (length (tl argv)) parse_state_init (tl argv) Hargs eq_refl).
  rewrite Hloop in Hinv. cbn [fst] in Hinv.
  unfold parseCommandLine in *. rewrite Hs in *.
  destruct (accepted_after_loop s _ eq_refl Hacc)
    as (s1 & _ & Hdef & _ & _ & s2 & Hres & -> & -> & _).
  destruct (default_output_path_effect E s) as [p Hp].
  rewrite Hp in Hdef. injection Hdef as <-.
  unfold resolve_output_file in Hres. cbn in Hres.
  rewrite Hinv in Hres. cbn [Str.is_empty negb] in Hres.
  rewrite Habs in Hres.
  destruct (fs_is_directory E "features.csv"); [discriminate|].
  match type of Hres with
  | (if ?b then _ else _) = _ => destruct b
  end; [discriminate|].
  injection Hres as <-. reflexivity.
Qed.

End Paths.

(** ** What a run reads and writes *)

Section Files.

Variable E : Env.

Lemma in_loads p ev : In (Load p) ev <-> In p (loads ev).
Proof.
  induction ev as [|e ev IH]; [tauto|].
  destruct e; cbn; rewrite <- ?IH; intuition (try discriminate; try congruence).
Qed.

(** The image files that [collectImageFiles] delivers when the input
    path is a directory are regular files of a supported format; a file
    given as the input path is of a supported format. *)
Lemma collectImageFiles_supported inputPath recursive p :
  In p (fst (collectImageFiles E inputPath recursive)) ->
  fs_is_regular_file E p = true /\ isSupportedImageFile E p = true.
Proof.
  unfold collectImageFiles.
  destruct (fs_is_regular_file E inputPath) eqn:Hr.
  - destruct (isSupportedImageFile E inputPath) eqn:Hs; [|intros []].
    intros [<-|[]]. now split.
  - destruct (fs_is_directory E inputPath); [|intros []].
    destruct (if recursive then _ else _) as [entries error].
    intros Hin.
    assert (Hf : In p (List.filter
                         (fun entry => fs_is_regular_file E entry
                                       && isSupportedImageFile E entry)
                         entries)).
    { destruct error; exact Hin. }
    apply filter_In in Hf as [_ Hf]. now apply andb_prop in Hf.
Qed.

(** What [main] loads: nothing when it ends at the command line or
    prints the version, the licence or the credits, else the image files
    collected, in their order. *)
Lemma main_loads argv disk :
  let c := parseCommandLine E argv in
  loads (events (main E argv disk))
  = if showHelp c || showVersion c || showLicense c || showCredits c then []
    else fst (collectImageFiles E (inputPath c) (recursive c)).
Proof.
  cbv zeta. unfold main, parseCommandLine.
  destruct (showHelp _); [cbn; now rewrite loads_app, loads_stderr|].
  destruct (showVersion _); [cbn; now rewrite loads_app, loads_stderr|].
  destruct (showLicense _); [cbn; now rewrite loads_app, loads_stderr|].
  destruct (showCredits _); [cbn; now rewrite loads_app, loads_stderr|].
  cbn [orb].
  pose proof (collectImageFiles_loads E (inputPath (config (parse E argv)))
                (recursive (config (parse E argv)))) as Hc.
  destruct (collectImageFiles E _ _) as [imageFiles ev1]. cbn [fst snd] in *.
  destruct imageFiles as [|f imageFiles].
  { cbn. now rewrite !loads_app, loads_stderr, Hc. }
  cbn [length Nat.eqb].
  pose proof (process_images_loads E (f :: imageFiles) (S (length imageFiles)) 0
                ((config (parse E argv)) <| consolemode := true |>)
                batch_empty disk) as Hl.
  destruct (process_images E _ 0 (f :: imageFiles) _ batch_empty disk)
    as [[[c' b] ev3] disk3].
  cbn [fst snd] in Hl.
  assert (Hev2 : loads (if verbose (config (parse E argv))
                        then configuration_report E (config (parse E argv))
                               (S (length imageFiles))
                        else []) = []).
  { destruct (verbose _); [apply configuration_report_loads | reflexivity]. }
  destruct (length (processedFiles b) =? 0)%nat.
  - cbn [events]. rewrite !loads_app, loads_stderr, Hc, Hev2, Hl.
    cbn. now rewrite app_nil_r.
  - pose proof (writeResultsToCsv_loads E c' (processedFiles b)
                  (allFeatures b) (roinames b) disk3) as Hw.
    destruct (writeResultsToCsv E c' _ _ _ disk3) as [disk' ev4].
    cbn [events snd] in *.
    rewrite !loads_app, loads_stderr, Hc, Hev2, Hl, Hw.
    cbn. now rewrite app_nil_r.
Qed.

(** X13.  Every file that [main] loads is a regular file whose extension,
    in lower case, is one of the six supported ones, be it the input
    path itself or a file found in the directory that the input path
    names. *)
Theorem only_supported_files_loaded
    (argv : list string) (disk : gmap string string) (p : string) :
  In (Load p) (events (main E argv disk)) ->
  fs_is_regular_file E p = true /\ isSupportedImageFile E p = true.
Proof.
  rewrite in_loads, main_loads. cbv zeta.
  destruct (_ || _); [intros []|].
  apply collectImageFiles_supported.
Qed.

End Files.

(** ** The images that are saved *)

Section Saves.

Variable E : Env.

Lemma in_saved p ev : In (Save p) ev <-> In p (saved ev).
Proof.
  induction ev as [|e ev IH]; [tauto|].
  destruct e; cbn; rewrite <- ?IH; intuition (try discriminate; try congruence).
Qed.

Lemma saved_app ev1 ev2 : saved (ev1 ++ ev2)%list = (saved ev1 ++ saved ev2)%list.
Proof.
  induction ev1 as [|e ev1 IH]; [reflexivity|].
  destruct e; cbn; now rewrite ?IH.
Qed.

Lemma saved_stderr l : saved (map Stderr l) = [].
Proof. induction l; [reflexivity | exact IHl]. Qed.

Lemma collectImageFiles_saved inputPath recursive :
  saved (snd (collectImageFiles E inputPath recursive)) = [].
Proof.
  unfold collectImageFiles.
  destruct (fs_is_regular_file E inputPath);
    [destruct (isSupportedImageFile E inputPath); reflexivity|].
  destruct (fs_is_directory E inputPath); [|reflexivity].
  destruct (if recursive then _ else _) as [entries [what|]]; reflexivity.
Qed.

Lemma configuration_report_saved c found :
  saved (configuration_report E c found) = [].
Proof.
  unfold configuration_report. rewrite saved_app.
  now destruct (pixelconv c).
Qed.

Lemma writeResultsToCsv_saved c imageFiles allFeatures roiNames disk :
  saved (snd (writeResultsToCsv E c imageFiles allFeatures roiNames disk)) = [].
Proof.
  unfold writeResultsToCsv.
  destruct (negb (noappend c) && _ && verbose c), (ofstream_open E _);
    reflexivity.
Qed.

Lemma save_image_saved c wanted image suffix label disk p :
  In p (saved (snd (fst (save_image E c wanted image suffix label disk)))) ->
  wanted = true /\ p = image_target E c (inputPath c) suffix.
Proof.
  unfold save_image, image_target.
  destruct wanted; cbn [andb]; [|intros []].
  destruct (negb (empty image)); [|intros []].
  destruct (imwrite E _ image); [|destruct (verbose c)]; cbn;
    intros [<-|[]]; split; reflexivity.
Qed.

(** One image: what is saved is what was asked for, and the settings
    stay as they are. *)
Lemma analyzeImage_saved c disk :
  let '(ok, c', ev, disk') := analyzeImage E c disk in
  settings c' = settings c
  /\ inputPath c' = inputPath c
  /\ forall p, In p (saved ev) -> saves_of E c (inputPath c) p.
Proof.
  unfold analyzeImage.
  destruct (empty (imread E (inputPath c))).
  { repeat split. intros p []. }
  cbn [inputPath put set_imagefilename set_input set_features].
  match goal with
  | |- context [feature_extractor E ?x] => destruct (feature_extractor E x) as [what|x0]
  end.
  { unfold analysis_failed. repeat split. cbn. intros p []. }
  match goal with
  | |- context [save_image E ?a ?b ?i ?s ?l disk] =>
      pose proof (fun p => save_image_saved a b i s l disk p) as S1;
      destruct (save_image E a b i s l disk) as [[[what|] ev1] disk1]
  end; cbn [fst snd] in S1.
  { unfold analysis_failed. repeat split.
    intros p. rewrite !saved_app. cbn. rewrite app_nil_r. intros Hp.
    left. exact (S1 p Hp). }
  match goal with
  | |- context [save_image E ?a ?b ?i ?s ?l disk1] =>
      pose proof (fun p => save_image_saved a b i s l disk1 p) as S2;
      destruct (save_image E a b i s l disk1) as [[[what|] ev2] disk2]
  end; cbn [fst snd] in S2.
  { unfold analysis_failed. repeat split.
    intros p. rewrite !saved_app. cbn. rewrite app_nil_r. intros Hp.
    apply in_app_or in Hp as [Hp|Hp];
      [left; exact (S1 p Hp) | right; exact (S2 p Hp)]. }
  repeat split.
  intros p. rewrite !saved_app. cbn. intros Hp.
  apply in_app_or in Hp as [Hp|Hp];
    [left; exact (S1 p Hp) | right; exact (S2 p Hp)].
Qed.

Lemma saves_of_settings c c' f p :
  settings c' = settings c -> saves_of E c' f p -> saves_of E c f p.
Proof.
  intros H. unfold saves_of, image_target.
  change (savesegmented c') with (savesegmented (settings c')).
  change (saveprocessed c') with (saveprocessed (settings c')).
  change (outputPath c') with (outputPath (settings c')).
  change (segsuffix c') with (segsuffix (settings c')).
  change (prosuffix c') with (prosuffix (settings c')).
  rewrite H. exact (fun x => x).
Qed.

Lemma process_images_saved imageFiles : forall imgcount i c b disk,
  let '(c', b', ev, disk') := process_images E imgcount i imageFiles c b disk in
  settings c' = settings c
  /\ forall p, In p (saved ev) -> exists f, In f imageFiles /\ saves_of E c f p.
Proof.
  induction imageFiles as [|f imageFiles IH]; intros imgcount i c b disk;
    cbn [process_images].
  { split; [reflexivity | intros p []]. }
  pose proof (analyzeImage_saved (c <| inputPath := f |>) disk) as Ha.
  destruct (analyzeImage E (c <| inputPath := f |>) disk)
    as [[[ok c1] ev1] disk1].
  destruct Ha as (Hset1 & _ & Hsav1).
  specialize (IH imgcount (S i) c1 (if ok then batch_push b c1 f else b) disk1).
  destruct (process_images E imgcount (S i) imageFiles c1 _ disk1)
    as [[[c2 b2] ev2] disk2].
  destruct IH as (Hset2 & Hsav2).
  assert (Hset : settings c1 = settings c) by exact Hset1.
  split; [now rewrite Hset2|].
  intros p. rewrite !saved_app.
  assert (Hprog : saved (if verbose (c <| inputPath := f |>) || (1 <? imgcount)%nat
                         then [Progress (i + 1) imgcount
                                 (filename E (inputPath (c <| inputPath := f |>)))]
                         else []) = []).
  { destruct (_ || _); reflexivity. }
  rewrite Hprog. cbn [app]. intros Hp.
  apply in_app_or in Hp as [Hp|Hp].
  - exists f. split; [now left|].
    apply (saves_of_settings c (c <| inputPath := f |>)); [reflexivity|].
    exact (Hsav1 p Hp).
  - destruct (Hsav2 p Hp) as (g & Hg & Hs).
    exists g. split; [now right|].
    exact (saves_of_settings c c1 g p Hset Hs).
Qed.

Lemma main_saved argv disk p :
  In (Save p) (events (main E argv disk)) ->
  let c := parseCommandLine E argv in
  exists f,
    In f (fst (collectImageFiles E (inputPath c) (recursive c)))
    /\ saves_of E c f p.
Proof.
  rewrite in_saved. cbv zeta. unfold main, parseCommandLine.
  destruct (showHelp _);
    [cbn; rewrite saved_app, saved_stderr; intros []|].
  destruct (showVersion _);
    [cbn; rewrite saved_app, saved_stderr; intros []|].
  destruct (showLicense _);
    [cbn; rewrite saved_app, saved_stderr; intros []|].
  destruct (showCredits _);
    [cbn; rewrite saved_app, saved_stderr; intros []|].
  pose proof (collectImageFiles_saved (inputPath (config (parse E argv)))
                (recursive (config (parse E argv)))) as Hc.
  destruct (collectImageFiles E _ _) as [imageFiles ev1]. cbn [fst snd] in *.
  destruct imageFiles as [|f imageFiles].
  { cbn. rewrite !saved_app, saved_stderr, Hc. intros []. }
  cbn [length Nat.eqb].
  pose proof (process_images_saved (f :: imageFiles) (S (length imageFiles)) 0
                ((config (parse E argv)) <| consolemode := true |>)
                batch_empty disk) as Hp.
  destruct (process_images E _ 0 (f :: imageFiles) _ batch_empty disk)
    as [[[c' b] ev3] disk3].
  destruct Hp as (_ & Hsav).
  assert (Hev2 : saved (if verbose (config (parse E argv))
                        then configuration_report E (config (parse E argv))
                               (S (length imageFiles))
                        else []) = []).
  { destruct (verbose _); [apply configuration_report_saved | reflexivity]. }
  assert (Hfin : In p (saved ev3) ->
                 exists f0, In f0 (f :: imageFiles)
                            /\ saves_of E (config (parse E argv)) f0 p).
  { intros Hin. destruct (Hsav p Hin) as (g & Hg & Hs). exists g.
    split; [exact Hg|].
    apply (saves_of_settings (config (parse E argv))
             ((config (parse E argv)) <| consolemode := true |>));
      [reflexivity | exact Hs]. }
  destruct (length (processedFiles b) =? 0)%nat.
  - cbn [events]. rewrite !saved_app, saved_stderr, Hc, Hev2.
    cbn. rewrite app_nil_r. exact Hfin.
  - pose proof (writeResultsToCsv_saved c' (processedFiles b)
                  (allFeatures b) (roinames b) disk3) as Hw.
    destruct (writeResultsToCsv E c' _ _ _ disk3) as [disk' ev4].
    cbn [events snd] in *.
    rewrite !saved_app, saved_stderr, Hc, Hev2, Hw.
    cbn. rewrite app_nil_r. exact Hfin.
Qed.

(** X14.  Every image that a run saves is the segmented or the processed
    image of a file it loaded, that image was asked for, and it goes to
    the output path under the stem of the file, the suffix of the kind of
    image and [.png]. *)
Theorem saved_images_go_to_output_path
    (argv : list string) (disk : gmap string string) (p : string) :
  In (Save p) (events (main E argv disk)) ->
  let c := parseCommandLine E argv in
  exists f,
    In (Load f) (events (main E argv disk))
    /\ ((savesegmented c = true
         /\ p = path_append E (outputPath c) (stem E f ++ segsuffix c ++ ".png"))
        \/ (saveprocessed c = true
            /\ p = path_append E (outputPath c) (stem E f ++ prosuffix c ++ ".png"))).
Proof.
  intros Hin. cbv zeta.
  destruct (main_saved argv disk p Hin) as (f & Hf & Hs).
  exists f. split; [|exact Hs].
  rewrite in_loads, main_loads. cbv zeta.
  destruct (_ || _) eqn:Hflags; [|exact Hf].
  exfalso. revert Hin. rewrite in_saved. unfold main, parseCommandLine in *.
  destruct (showHelp _);
    [cbn; rewrite saved_app, saved_stderr; intros []|].
  destruct (showVersion _);
    [cbn; rewrite saved_app, saved_stderr; intros []|].
  destruct (showLicense _);
    [cbn; rewrite saved_app, saved_stderr; intros []|].
  destruct (showCredits _);
    [cbn; rewrite saved_app, saved_stderr; intros []|].
  discriminate.
Qed.

Lemma step_nothing_to_save s a r :
  classify a <> OSegment -> classify a <> OFeature ->
  savesegmented (config s) = false /\ saveprocessed (config s) = false ->
  match step E s a r with
  | Continue s' _ =>
      savesegmented (config s') = false /\ saveprocessed (config s') = false
  | Return s' =>
      savesegmented (config s') = false /\ saveprocessed (config s') = false
  end.
Proof.
  intros H1 H2 H. unfold step, with_value.
  destruct (classify a); try congruence;
    try (destruct (dranges_loop_effect E r (s <|| dranges := [] ||>))
           as [? [[? ->]|[? ->]]]);
    try destruct r;
    repeat match goal with
           | |- context [if ?b then _ else _] => destruct b
           end; exact H.
Qed.

Lemma after_loop_nothing_to_save s :
  savesegmented (config (returned (after_loop E s))) = savesegmented (config s)
  /\ saveprocessed (config (returned (after_loop E s))) = saveprocessed (config s).
Proof.
  after_loop_cases E; split; reflexivity.
Qed.

(** X15.  Without [--segment] and [--feature] among the arguments, a run saves
    no image. *)
Theorem no_image_saved_unless_asked
    (argv : list string) (disk : gmap string string) :
  Forall (fun a => classify a <> OSegment /\ classify a <> OFeature) (tl argv) ->
  forall p, ~ In (Save p) (events (main E argv disk)).
Proof.
  intros Hargs p Hin.
  destruct (main_saved argv disk p Hin) as (f & _ & Hs).
  assert (H : savesegmented (parseCommandLine E argv) = false
              /\ saveprocessed (parseCommandLine E argv) = false).
  { unfold parseCommandLine, parse, parse_from.
    pose proof (parse_loop_inv E
                  (fun s => savesegmented (config s) = false
                            /\ saveprocessed (config s) = false)
                  (fun a => classify a <> OSegment /\ classify a <> OFeature)
                  (fun s a r H Ha =>
                     step_nothing_to_save s a r (proj1 Ha) (proj2 Ha) H)
                  (length (tl argv)) parse_state_init (tl argv) Hargs
                  (conj eq_refl eq_refl)) as Hinv.
    destruct (parse_loop E (length (tl argv)) parse_state_init (tl argv))
      as [s [|]]; cbn [fst] in Hinv; [exact Hinv|].
    destruct (after_loop_nothing_to_save s) as [-> ->]. exact Hinv. }
  destruct H as [H1 H2].
  destruct Hs as [[Hs _]|[Hs _]]; congruence.
Qed.

End Saves.

(** ** Runs that share an output file *)

Section Appending.

Variable E : Env.

(** X16.  Two runs, one after the other, on an output file that is not there
    before the first: the file holds the header, the rows of the first
    run and the rows of the second, with the header once more between
    them exactly when [--noappend] is set. *)
Theorem successive_runs_share_output_file
    (c : feature_config)
    (files1 files2 : list string) (features1 features2 : list (list double))
    (rois1 rois2 : list string) (disk : gmap string string) :
  ofstream_open E (outputFile c) = true ->
  disk !! outputFile c = None ->
  let disk1 := fst (writeResultsToCsv E c files1 features1 rois1 disk) in
  let disk2 := fst (writeResultsToCsv E c files2 features2 rois2 disk1) in
  disk2 !! outputFile c
  = Some (writeCsvHeader c ++ csv_rows E files1 features1 rois1
            ++ (if noappend c then writeCsvHeader c else EmptyString)
            ++ csv_rows E files2 features2 rois2).
Proof.
  intros Hopen Hnone. cbv zeta.
  rewrite (writeResultsToCsv_contents E _ _ _ _ _ Hopen).
  rewrite (writeResultsToCsv_contents E _ _ _ _ _ Hopen).
  rewrite Hnone. cbn [default negb orb].
  rewrite bool_decide_eq_false_2 by (intros [x Hx]; discriminate).
  rewrite bool_decide_eq_true_2 by eauto.
  cbn [negb orb default]. f_equal.
  change (EmptyString ++ ?x) with x. unfold id.
  now rewrite !append_assoc.
Qed.

End Appending.

(** ** The cut points that reach the checks *)

Section DeadChecks.

Variable E : Env.

Lemma step_cut_points s a r :
  initial_or_no_cut_points s ->
  match step E s a r with
  | Continue s' _ => initial_or_no_cut_points s'
  | Return s' => initial_or_no_cut_points s'
  end.
Proof.
  unfold initial_or_no_cut_points. intros H. unfold step, with_value.
  destruct (classify a);
    try (pose proof (dranges_loop_dranges E r (s <|| dranges := [] ||>)) as Hd;
         destruct (dranges_loop E _ r); left; exact Hd);
    try destruct r;
    repeat match goal with
           | |- context [if ?b then _ else _] => destruct b
           end; exact H.
Qed.

(** X17.  Whatever the command line, the cut points that [parseCommandLine]
    returns are the initial ones, 2 and 5, or none; and on such cut
    points neither of the two checks after the loop stops: their three
    complaints are never made. *)
Theorem cut_point_checks_never_stop (argv : list string) :
  initial_or_no_cut_points (parse E argv)
  /\ forall s, initial_or_no_cut_points s ->
       check_dranges_sorted s = Next s /\ validate_dranges E s = Next s.
Proof.
  split.
  - unfold parse, parse_from.
    pose proof (parse_loop_inv E initial_or_no_cut_points (fun _ => True)
                  (fun s a r H _ => step_cut_points s a r H)
                  (length (tl argv)) parse_state_init (tl argv)) as Hinv.
    assert (H0 : initial_or_no_cut_points parse_state_init) by now right.
    destruct (parse_loop E (length (tl argv)) parse_state_init (tl argv))
      as [s [|]]; cbn [fst] in Hinv.
    + apply Hinv; [apply List.Forall_forall; auto | exact H0].
    + unfold initial_or_no_cut_points. rewrite after_loop_dranges.
      apply Hinv; [apply List.Forall_forall; auto | exact H0].
  - intros s [H|H]; unfold check_dranges_sorted, validate_dranges;
      rewrite H; split; reflexivity.
Qed.

End DeadChecks.

(** ** [trim_ws] *)

Section Trim.

Lemma length_append (a b : string) :
  String.length (a ++ b) = (String.length a + String.length b)%nat.
Proof.
  induction a as [|x a IH]; [reflexivity|].
  change (S (String.length (a ++ b)) = S (String.length a + String.length b)).
  now rewrite IH.
Qed.

Lemma substring_middle (pre mid post : string) :
  substring (String.length pre) (String.length mid) (pre ++ mid ++ post) = mid.
Proof.
  induction pre as [|x pre IH]; [|exact IH].
  change (substring 0 (String.length mid) (mid ++ post) = mid).
  induction mid as [|y mid IH].
  - destruct post; reflexivity.
  - change (String y (substring 0 (String.length mid) (mid ++ post)) = String y mid).
    now rewrite IH.
Qed.

Lemma last_char_append (a b : string) :
  b <> EmptyString -> last_char (a ++ b) = last_char b.
Proof.
  intros Hb. induction a as [|x a IH]; [reflexivity|].
  change (last_char (String x (a ++ b)) = last_char b).
  cbn [last_char]. destruct (a ++ b) eqn:Hab; [|exact IH].
  destruct a; [|discriminate]. now destruct b.
Qed.

(** Where [find_first_not_of] and [find_last_not_of] point: the string
    is white space only, or it is white space, then a part that begins
    and ends with other characters, then white space. *)
Lemma trim_decompose (s : string) :
  (all_ws s = true
   /\ Str.find_first_not_of ws s = None
   /\ Str.find_last_not_of ws s = None)
  \/ exists pre mid post,
       s = pre ++ mid ++ post
       /\ all_ws pre = true /\ all_ws post = true
       /\ mid <> EmptyString
       /\ is_ws (Str.head mid) = false
       /\ is_ws (last_char mid) = false
       /\ Str.find_first_not_of ws s = Some (String.length pre)
       /\ Str.find_last_not_of ws s
          = Some (String.length pre + String.length mid - 1)%nat.
Proof.
  induction s as [|c s IH]; [left; repeat split|].
  cbn [Str.find_first_not_of Str.find_last_not_of all_ws].
  fold (is_ws c).
  destruct IH as [(Hall & Hf & Hl)|
                  (pre & mid & post & -> & Hpre & Hpost & Hne & Hh & Hlc & Hf & Hl)].
  - rewrite Hall, Hf, Hl. destruct (is_ws c) eqn:Hc; [left; repeat split|].
    right. exists EmptyString, (String c EmptyString), s.
    repeat split; auto; discriminate.
  - rewrite Hf, Hl. right. destruct (is_ws c) eqn:Hc.
    + exists (String c pre), mid, post. cbn [all_ws]. rewrite Hc.
      repeat split; auto. cbn [option_map String.length]. f_equal.
      destruct mid; [congruence|]. cbn [String.length]. lia.
    + exists EmptyString, (String c (pre ++ mid)), post.
      split.
      { change (String c (pre ++ mid ++ post) = String c ((pre ++ mid) ++ post)).
        now rewrite append_assoc. }
      split; [reflexivity|]. split; [exact Hpost|].
      split; [discriminate|]. split; [exact Hc|].
      split.
      { change (is_ws (last_char (String c EmptyString ++ pre ++ mid)) = false).
        rewrite last_char_append; [rewrite last_char_append; auto|].
        destruct pre, mid; try discriminate. congruence. }
      split; [reflexivity|].
      cbn [String.length]. rewrite length_append. f_equal.
      destruct mid; [congruence|]. cbn [String.length]. lia.
Qed.

Lemma trim_ws_shape (s : string) :
  exists pre post,
    s = pre ++ trim_ws s ++ post
    /\ all_ws pre = true /\ all_ws post = true
    /\ (trim_ws s = EmptyString
        \/ trim_ws s <> EmptyString
           /\ is_ws (Str.head (trim_ws s)) = false
           /\ is_ws (last_char (trim_ws s)) = false).
Proof.
  destruct (trim_decompose s)
    as [(Hall & Hf & Hl)|
        (pre & mid & post & -> & Hpre & Hpost & Hne & Hh & Hlc & Hf & Hl)].
  - assert (Ht : trim_ws s = EmptyString) by (unfold trim_ws; now rewrite Hf).
    rewrite Ht. exists s, EmptyString. split; [|auto].
    change (s = s ++ EmptyString). now rewrite append_nil_r.
  - assert (Ht : trim_ws (pre ++ mid ++ post) = mid).
    { unfold trim_ws. rewrite Hf, Hl.
      replace (String.length pre + String.length mid - 1 - String.length pre + 1)%nat
        with (String.length mid)
        by (destruct mid; [congruence | cbn [String.length]; lia]).
      apply substring_middle. }
    rewrite Ht. exists pre, post. auto 10.
Qed.

(** X18.  [trim_ws] takes the white space off both ends and nothing else: the
    string is white space, then the result, then white space, and the
    result is empty or begins and ends with a character that is not white
    space. *)
Theorem trim_ws_removes_surrounding_space (s : string) :
  exists pre post,
    s = pre ++ trim_ws s ++ post
    /\ all_ws pre = true /\ all_ws post = true
    /\ (trim_ws s = EmptyString
        \/ is_ws (Str.head (trim_ws s)) = false
           /\ is_ws (last_char (trim_ws s)) = false).
Proof.
  destruct (trim_ws_shape s) as (pre & post & Hs & Hpre & Hpost & H).
  exists pre, post. repeat split; auto.
  destruct H as [H|(_ & Hh & Hl)]; auto.
Qed.

Lemma find_first_head (t : string) :
  t <> EmptyString -> is_ws (Str.head t) = false ->
  Str.find_first_not_of ws t = Some 0%nat.
Proof.
  destruct t as [|c t]; [congruence|]. intros _ Hc.
  cbn [Str.find_first_not_of]. cbn [Str.head] in Hc. unfold is_ws in Hc.
  now rewrite Hc.
Qed.

Lemma find_last_last (t : string) :
  t <> EmptyString -> is_ws (last_char t) = false ->
  Str.find_last_not_of ws t = Some (String.length t - 1)%nat.
Proof.
  induction t as [|c t IH]; [congruence|]. intros _ Hc.
  cbn [Str.find_last_not_of]. destruct t as [|d t].
  - cbn [Str.find_last_not_of]. cbn [last_char] in Hc. unfold is_ws in Hc.
    now rewrite Hc.
  - rewrite IH; [|discriminate|exact Hc]. cbn [String.length]. f_equal. lia.
Qed.

(** X19.  Trimming what is trimmed changes nothing. *)
Theorem trim_ws_idempotent (s : string) : trim_ws (trim_ws s) = trim_ws s.
Proof.
  destruct (trim_ws_shape s) as (_ & _ & _ & _ & _ & [H|(Hne & Hh & Hl)]);
    [now rewrite H|].
  unfold trim_ws at 1.
  rewrite (find_first_head _ Hne Hh), (find_last_last _ Hne Hl).
  replace (String.length (trim_ws s) - 1 - 0 + 1)%nat
    with (String.length (trim_ws s))
    by (destruct (trim_ws s); [congruence | cbn [String.length]; lia]).
  change (substring (String.length EmptyString) (String.length (trim_ws s))
            (EmptyString ++ trim_ws s) = trim_ws s).
  rewrite <- (append_nil_r (trim_ws s)) at 2.
  apply substring_middle.
Qed.

End Trim.

(** ** [is_positive_number_like] and its pattern *)

Section Pattern.

Lemma matches_seq_eq r1 r2 s1 s2 s :
  matches r1 s1 -> matches r2 s2 -> s = s1 ++ s2 -> matches (Seq r1 r2) s.
Proof. intros H1 H2 ->. now constructor. Qed.

Lemma matches_seq_inv r1 r2 s :
  matches (Seq r1 r2) s ->
  exists s1 s2, s = s1 ++ s2 /\ matches r1 s1 /\ matches r2 s2.
Proof. intros H. inversion H; subst. eauto. Qed.

Lemma matches_alt_inv r1 r2 s :
  matches (Alt r1 r2) s -> matches r1 s \/ matches r2 s.
Proof. intros H. inversion H; subst; auto. Qed.

Lemma matches_chr_inv c s : matches (Chr c) s -> s = String c EmptyString.
Proof. intros H. now inversion H. Qed.

Lemma matches_eps_inv s : matches Eps s -> s = EmptyString.
Proof. intros H. now inversion H. Qed.

Lemma matches_digit_inv s :
  matches Digit s -> exists c, s = String c EmptyString /\ Str.is_digit c = true.
Proof. intros H. inversion H; subst. eauto. Qed.

Lemma matches_opt_inv r s : matches (Opt r) s -> matches r s \/ s = EmptyString.
Proof.
  intros H. apply matches_alt_inv in H as [H|H]; [now left|].
  right. now apply matches_eps_inv.
Qed.

Lemma matches_plus_digit_inv s :
  matches (Plus Digit) s ->
  exists c ds,
    s = String c ds /\ Str.is_digit c = true /\ matches (Star Digit) ds.
Proof.
  intros H. apply matches_seq_inv in H as (s1 & s2 & -> & H1 & H2).
  apply matches_digit_inv in H1 as (c & -> & Hc). eauto.
Qed.

Lemma matches_plus_digit c ds :
  Str.is_digit c = true -> matches (Star Digit) ds ->
  matches (Plus Digit) (String c ds).
Proof.
  intros Hc Hds. apply (matches_seq_eq _ _ (String c EmptyString) ds);
    [now constructor | exact Hds | reflexivity].
Qed.

(** The digits that [skip_digits] passes over. *)
Lemma skip_digits_split s :
  exists ds, s = ds ++ Str.skip_digits s /\ matches (Star Digit) ds.
Proof.
  induction s as [|c s (ds & IH & Hds)]; [exists EmptyString; split; constructor|].
  cbn [Str.skip_digits]. destruct (Str.is_digit c) eqn:Hc.
  - exists (String c ds). split.
    + change (String c s = String c (ds ++ Str.skip_digits s)). now rewrite <- IH.
    + apply (matches_star_cons Digit (String c EmptyString) ds);
        [now constructor | exact Hds].
  - exists EmptyString. split; constructor.
Qed.

Lemma skip_digits_past ds : forall r,
  matches (Star Digit) ds -> Str.is_digit (Str.head r) = false ->
  Str.skip_digits (ds ++ r) = r.
Proof.
  intros r H. remember (Star Digit) as R eqn:HR.
  induction H as [| | | | | | |r0 s1 s2 H1 _ H2 IH]; try discriminate.
  - intros Hr. destruct r as [|c r]; [reflexivity|].
    cbn [Str.head] in Hr.
    change (Str.skip_digits (String c r) = String c r).
    cbn [Str.skip_digits]. now rewrite Hr.
  - injection HR as ->. intros Hr.
    apply matches_digit_inv in H1 as (c & -> & Hc).
    change (Str.skip_digits (String c (s2 ++ r)) = r).
    cbn [Str.skip_digits]. rewrite Hc. now apply IH.
Qed.

Lemma is_empty_eq s : Str.is_empty s = true -> s = EmptyString.
Proof. now destruct s. Qed.

(** What [match_mantissa] takes matches the mantissa. *)
Lemma match_mantissa_sound s r :
  match_mantissa s = Some r ->
  exists m, s = m ++ r /\ matches mantissa_pattern m.
Proof.
  destruct s as [|c s]; [discriminate|]. cbn [match_mantissa].
  destruct (Str.is_digit c) eqn:Hc.
  - destruct (skip_digits_split s) as (ds & Hs & Hds).
    destruct (Str.skip_digits s) as [|d t] eqn:Ht.
    + intros H; injection H as <-. exists (String c ds).
      split; [now rewrite Hs at 1|].
      apply matches_alt_l.
      apply (matches_seq_eq _ _ (String c ds) EmptyString);
        [now apply matches_plus_digit | apply matches_alt_r; constructor
         | now rewrite append_nil_r].
    + destruct (Ascii.eqb_spec d ".") as [->|Hd].
      * intros H; injection H as <-.
        destruct (skip_digits_split t) as (ds2 & Ht2 & Hds2).
        exists (String c ds ++ String "." ds2). split.
        { rewrite Hs at 1. rewrite Ht2 at 1.
          change (String c (ds ++ String "." (ds2 ++ Str.skip_digits t))
                  = String c ((ds ++ String "." ds2) ++ Str.skip_digits t)).
          now rewrite append_assoc. }
        apply matches_alt_l. constructor; [now apply matches_plus_digit|].
        apply matches_alt_l.
        apply (matches_seq_eq _ _ (String "." EmptyString) ds2);
          [constructor | exact Hds2 | reflexivity].
      * assert (Hr : r = String d t -> exists m,
                   String c s = m ++ r /\ matches mantissa_pattern m).
        { intros ->. exists (String c ds). split; [now rewrite Hs at 1|].
          apply matches_alt_l.
          apply (matches_seq_eq _ _ (String c ds) EmptyString);
            [now apply matches_plus_digit | apply matches_alt_r; constructor
             | now rewrite append_nil_r]. }
        destruct d as [[] [] [] [] [] [] [] []];
          try (intros H; injection H as <-; now apply Hr); congruence.
  - destruct (Ascii.eqb_spec c ".") as [->|]; [|discriminate].
    destruct s as [|d s]; [discriminate|]. cbn [Str.head].
    destruct (Str.is_digit d) eqn:Hd; [|discriminate].
    intros H; injection H as <-. cbn [Str.skip_digits]. rewrite Hd.
    destruct (skip_digits_split s) as (ds & Hs & Hds).
    exists (String "." (String d ds)). split; [now rewrite Hs at 1|].
    apply matches_alt_r.
    apply (matches_seq_eq _ _ (String "." EmptyString) (String d ds));
      [constructor | now apply matches_plus_digit | reflexivity].
Qed.

(** What [match_exponent] accepts is empty or matches the exponent. *)
Lemma match_exponent_sound r :
  match_exponent r = true -> matches (Opt exponent_pattern) r.
Proof.
  destruct r as [|c s1]; [intros _; apply matches_alt_r; constructor|].
  cbn [match_exponent].
  destruct (Ascii.eqb c "e" || Ascii.eqb c "E") eqn:Hc; [|discriminate].
  intros H. apply andb_prop in H as [Hd He]. apply is_empty_eq in He.
  apply matches_alt_l.
  assert (Hmark : matches (Alt (Chr "e") (Chr "E")) (String c EmptyString)).
  { apply orb_prop in Hc as [Hc|Hc]; apply Ascii.eqb_eq in Hc; subst;
      [apply matches_alt_l | apply matches_alt_r]; constructor. }
  assert (Hdigits : forall s2, Str.is_digit (Str.head s2) = true ->
                      Str.skip_digits s2 = EmptyString ->
                      matches (Plus Digit) s2).
  { intros s2 Hh Hs. destruct s2 as [|d s2]; [discriminate|].
    cbn [Str.head] in Hh. cbn [Str.skip_digits] in Hs. rewrite Hh in Hs.
    destruct (skip_digits_split s2) as (ds & Hs2 & Hds).
    rewrite Hs, append_nil_r in Hs2. subst ds. now apply matches_plus_digit. }
  apply (matches_seq_eq _ _ (String c EmptyString) s1);
    [exact Hmark | | reflexivity].
  destruct s1 as [|d s']; [discriminate|].
  destruct (Ascii.eqb d "+" || Ascii.eqb d "-") eqn:Hsign.
  - apply (matches_seq_eq _ _ (String d EmptyString) s');
      [| now apply Hdigits | reflexivity].
    apply matches_alt_l.
    apply orb_prop in Hsign as [Hs|Hs]; apply Ascii.eqb_eq in Hs; subst;
      [apply matches_alt_l | apply matches_alt_r]; constructor.
  - apply (matches_seq_eq _ _ EmptyString (String d s'));
      [apply matches_alt_r; constructor | now apply Hdigits | reflexivity].
Qed.

Lemma match_exponent_digits (c : ascii) (sg : string) (d : ascii) (ds : string) :
  c = "e"%char \/ c = "E"%char ->
  sg = EmptyString \/ sg = "+" \/ sg = "-" ->
  Str.is_digit d = true ->
  matches (Star Digit) ds ->
  match_exponent (String c (sg ++ String d ds)) = true.
Proof.
  intros Hc Hsg Hd Hds.
  assert (Hrest : Str.skip_digits (String d ds) = EmptyString).
  { cbn [Str.skip_digits]. rewrite Hd.
    rewrite <- (append_nil_r ds). now apply skip_digits_past. }
  assert (Hd' : Ascii.eqb d "+" || Ascii.eqb d "-" = false).
  { destruct d as [[] [] [] [] [] [] [] []]; try reflexivity; discriminate. }
  destruct Hc as [-> | ->]; destruct Hsg as [-> | [-> | ->]];
    match goal with
    | |- match_exponent (String ?c (EmptyString ++ ?x)) = true =>
        change (match_exponent (String c x) = true)
    | |- match_exponent (String ?c (String ?g EmptyString ++ ?x)) = true =>
        change (match_exponent (String c (String g x)) = true)
    end;
    cbn [match_exponent Ascii.eqb Bool.eqb orb]; rewrite ?Hd';
    cbn [Str.head]; now rewrite Hd, Hrest.
Qed.

(** A string that matches the exponent, or is empty, is accepted by
    [match_exponent]; it begins with neither a digit nor a point. *)
Lemma match_exponent_complete e :
  matches (Opt exponent_pattern) e ->
  match_exponent e = true
  /\ Str.is_digit (Str.head e) = false
  /\ Ascii.eqb (Str.head e) "." = false.
Proof.
  intros H. apply matches_opt_inv in H as [H | ->]; [|repeat split].
  apply matches_seq_inv in H as (mark & rest & -> & Hmark & H).
  apply matches_seq_inv in H as (sign & digits & -> & Hsign & Hdigits).
  apply matches_plus_digit_inv in Hdigits as (d & ds & -> & Hd & Hds).
  assert (Hc : exists c, mark = String c EmptyString
                         /\ (c = "e"%char \/ c = "E"%char)).
  { apply matches_alt_inv in Hmark as [Hmark|Hmark];
      apply matches_chr_inv in Hmark as ->; eauto. }
  destruct Hc as (c & -> & Hc).
  assert (Hsg : sign = EmptyString \/ sign = "+" \/ sign = "-").
  { apply matches_opt_inv in Hsign as [Hsign | ->]; [|now left].
    apply matches_alt_inv in Hsign as [Hsign|Hsign];
      apply matches_chr_inv in Hsign as ->; auto. }
  change (String c EmptyString ++ sign ++ String d ds)
    with (String c (sign ++ String d ds)).
  split; [now apply match_exponent_digits|].
  cbn [Str.head]. destruct Hc as [-> | ->]; split; reflexivity.
Qed.

(** A mantissa before a string that begins with neither a digit nor a
    point is what [match_mantissa] takes. *)
Lemma match_mantissa_complete m r :
  matches mantissa_pattern m ->
  Str.is_digit (Str.head r) = false ->
  Ascii.eqb (Str.head r) "." = false ->
  match_mantissa (m ++ r) = Some r
  /\ Ascii.eqb (Str.head m) "+" = false
  /\ m <> EmptyString.
Proof.
  intros H Hr1 Hr2. apply matches_alt_inv in H as [H|H].
  - apply matches_seq_inv in H as (i & f & -> & Hi & Hf).
    apply matches_plus_digit_inv in Hi as (c & ds & -> & Hc & Hds).
    split; [|split; [|discriminate]].
    + apply matches_opt_inv in Hf as [Hf| ->].
      * apply matches_seq_inv in Hf as (p & ds2 & -> & Hp & Hds2).
        apply matches_chr_inv in Hp as ->.
        rewrite !append_assoc.
        change (match_mantissa (String c (ds ++ String "." (ds2 ++ r))) = Some r).
        cbn [match_mantissa]. rewrite Hc.
        rewrite (skip_digits_past ds _ Hds) by reflexivity.
        now rewrite (skip_digits_past ds2 _ Hds2 Hr1).
      * rewrite append_nil_r.
        change (match_mantissa (String c (ds ++ r)) = Some r).
        cbn [match_mantissa]. rewrite Hc.
        rewrite (skip_digits_past ds _ Hds Hr1).
        destruct r as [|d r]; [reflexivity|]. cbn [Str.head] in Hr2.
        destruct d as [[] [] [] [] [] [] [] []]; try reflexivity; discriminate.
    + destruct c as [[] [] [] [] [] [] [] []]; try reflexivity; discriminate.
  - apply matches_seq_inv in H as (p & ds & -> & Hp & Hds).
    apply matches_chr_inv in Hp as ->.
    apply matches_plus_digit_inv in Hds as (d & ds' & -> & Hd & Hds').
    split; [|split; [reflexivity | discriminate]].
    change (match_mantissa (String "." (String d (ds' ++ r))) = Some r).
    cbn [match_mantissa Str.is_digit Ascii.eqb Bool.eqb Str.head].
    cbn. rewrite Hd. now rewrite (skip_digits_past ds' _ Hds' Hr1).
Qed.

(** X20.  [is_positive_number_like] accepts exactly the strings that match the
    pattern: an optional [+]; then digits with an optional point and
    digits after it, or a point and digits; then an optional exponent of
    [e] or [E], an optional sign and digits. *)
Theorem is_positive_number_like_matches_pattern (s : string) :
  is_positive_number_like s = true <-> matches number_pattern s.
Proof.
  unfold is_positive_number_like, number_pattern. split.
  - assert (Hcases : exists s1,
              (s = String "+" s1 \/ s = s1)
              /\ match s with String "+" s' => s' | _ => s end = s1).
    { destruct s as [|c s]; [exists EmptyString; auto|].
      destruct c as [[] [] [] [] [] [] [] []]; eauto. }
    destruct Hcases as (s1 & Hs & ->).
    destruct (match_mantissa s1) as [r|] eqn:Hm; [|discriminate].
    intros He. apply match_mantissa_sound in Hm as (m & Hs1 & Hm).
    apply match_exponent_sound in He.
    assert (Hbody : matches (Seq mantissa_pattern (Opt exponent_pattern)) s1).
    { rewrite Hs1. now constructor. }
    destruct Hs as [-> | ->].
    + apply (matches_seq_eq _ _ (String "+" EmptyString) s1);
        [apply matches_alt_l; constructor | exact Hbody | reflexivity].
    + apply (matches_seq_eq _ _ EmptyString s1);
        [apply matches_alt_r; constructor | exact Hbody | reflexivity].
  - intros H. apply matches_seq_inv in H as (sg & body & -> & Hsg & H).
    apply matches_seq_inv in H as (m & e & -> & Hm & He).
    destruct (match_exponent_complete e He) as (Hacc & He1 & He2).
    destruct (match_mantissa_complete m e Hm He1 He2) as (Hman & Hplus & Hne).
    apply matches_opt_inv in Hsg as [Hsg| ->].
    + apply matches_chr_inv in Hsg as ->.
      change (match match_mantissa (m ++ e) with
              | Some r => match_exponent r
              | None => false
              end = true).
      now rewrite Hman.
    + change (EmptyString ++ m ++ e) with (m ++ e).
      assert (Hsame : match m ++ e with String "+" s' => s' | _ => m ++ e end
                      = m ++ e).
      { destruct m as [|c m]; [congruence|].
        cbn [Str.head] in Hplus.
        change (String c m ++ e) with (String c (m ++ e)).
        destruct c as [[] [] [] [] [] [] [] []]; try reflexivity; discriminate. }
      rewrite Hsame. now rewrite Hman.
Qed.

End Pattern.

(** ** The times on the progress line *)

Section Clock.

Local Open Scope Z_scope.

Lemma clock_split (n : Z) :
  0 <= n -> clock n (n ÷ 60 ÷ 60) (Z.rem (n ÷ 60) 60) (Z.rem n 60).
Proof.
  intros Hn. unfold clock. Z.to_euclidean_division_equations. lia.
Qed.

Lemma clock_split_elapsed (n : Z) :
  0 <= n -> clock n (n ÷ 3600) (Z.rem n 3600 ÷ 60) (Z.rem n 60).
Proof.
  intros Hn. unfold clock. Z.to_euclidean_division_equations. lia.
Qed.

(** X21.  [printElapsedTime] on a time of [n >= 0] whole seconds prints hours,
    minutes below 60 and seconds below 60 that make up [n]. *)
Theorem elapsed_time_is_split (elapsedTime : double) :
  fits_int elapsedTime = true ->
  0 <= Double.to_int elapsedTime ->
  exists h m s,
    printElapsedTime elapsedTime
    = ("[elapsed: " ++ Str.of_Z h ++ "h " ++ Str.of_Z m ++ "m "
       ++ Str.of_Z s ++ "s] - ")%string
    /\ clock (Double.to_int elapsedTime) h m s.
Proof.
  intros _ Hn. unfold printElapsedTime. cbv zeta.
  do 3 eexists. split; [reflexivity|]. now apply clock_split_elapsed.
Qed.

(** X22.  [getEstimatedTimeRemaining] splits the whole seconds of its estimate,
    when there are [n >= 0] of them, into hours, minutes below 60 and
    seconds below 60 that make up [n], and [printRemainingTime] prints
    these three. *)
Theorem remaining_time_is_split
    (currentImageIndex totalImages : Z) (elapsedTime : double) :
  let est := estRemaining currentImageIndex totalImages elapsedTime in
  fits_int est = true ->
  0 <= Double.to_int est ->
  exists h m s,
    getEstimatedTimeRemaining currentImageIndex totalImages elapsedTime
    = (h, m, s)
    /\ printRemainingTime currentImageIndex totalImages elapsedTime
       = ("[remaining: " ++ Str.of_Z h ++ "h " ++ Str.of_Z m ++ "m "
          ++ Str.of_Z s ++ "s] - ")%string
    /\ clock (Double.to_int est) h m s.
Proof.
  cbv zeta. intros _ Hn.
  unfold printRemainingTime, getEstimatedTimeRemaining. cbv zeta.
  do 3 eexists. split; [reflexivity|]. split; [reflexivity|].
  now apply clock_split.
Qed.

Lemma digits2_pos_lower (p : positive) :
  2 ^ (Zpos (digits2_pos p) - 1) <= Zpos p.
Proof.
  induction p as [p IH|p IH|]; cbn [digits2_pos]; [| |cbn; lia].
  - rewrite Pos2Z.inj_succ.
    replace (Z.succ (Zpos (digits2_pos p)) - 1)
      with (Z.succ (Zpos (digits2_pos p) - 1)) by lia.
    rewrite Z.pow_succ_r by lia. lia.
  - rewrite Pos2Z.inj_succ.
    replace (Z.succ (Zpos (digits2_pos p)) - 1)
      with (Z.succ (Zpos (digits2_pos p) - 1)) by lia.
    rewrite Z.pow_succ_r by lia. lia.
Qed.

Lemma digits2_pos_bound (p : positive) (n : Z) :
  0 <= n -> Zpos p < 2 ^ n -> Zpos (digits2_pos p) <= n.
Proof.
  intros Hn Hp. pose proof (digits2_pos_lower p) as Hl.
  destruct (Z_le_gt_dec (Zpos (digits2_pos p)) n) as [|Hgt]; [assumption|].
  assert (2 ^ n <= 2 ^ (Zpos (digits2_pos p) - 1))
    by (apply Z.pow_le_mono_r; lia).
  lia.
Qed.

Lemma digits2_pos_iter (k p : positive) :
  digits2_pos (Pos.iter xO p k) = (digits2_pos p + k)%positive.
Proof.
  induction k as [|k IH] using Pos.peano_ind.
  - cbn. now rewrite Pos.add_1_r.
  - rewrite Pos.iter_succ. cbn [digits2_pos]. rewrite IH. lia.
Qed.

Lemma shiftr_iter (k p : positive) :
  Z.shiftr (Zpos (Pos.iter xO p k)) (Zpos k) = Zpos p.
Proof.
  assert (H : Zpos (Pos.iter xO p k) = Z.shiftl (Zpos p) (Zpos k)).
  { cbn [Z.shiftl]. apply (Pos.iter_swap_gen _ _ Zpos xO (Z.mul 2)).
    reflexivity. }
  rewrite H, Z.shiftr_shiftl_l by lia.
  now rewrite Z.sub_diag.
Qed.

(** A mantissa of 53 bits is not rounded. *)
Lemma binary_round_aux_exact (m : positive) (e : Z) :
  Zpos (digits2_pos m) = 53 -> -1074 <= e <= 971 ->
  binary_round_aux 53 1024 false (Zpos m) e loc_Exact = S754_finite false m e.
Proof.
  intros Hm He. unfold binary_round_aux, shr_fexp, fexp, emin.
  cbn [Zdigits2]. rewrite Hm.
  replace (Z.max (53 + e - 53) (3 - 1024 - 53) - e) with 0 by lia.
  cbn [shr shr_record_of_loc shr_m loc_of_shr_record round_nearest_even].
  cbn [Zdigits2]. rewrite Hm.
  replace (Z.max (53 + e - 53) (3 - 1024 - 53) - e) with 0 by lia.
  cbn [shr shr_m].
  now replace (e <=? 1024 - 53) with true by (symmetry; apply Z.leb_le; lia).
Qed.

(** An [int] that is not negative goes to [double] and back unchanged. *)
Lemma to_int_of_Z (z : Z) :
  0 <= z < 2 ^ 53 -> Double.to_int (Double.of_Z z) = z.
Proof.
  intros [Hz Hlt]. destruct z as [|p|p]; [reflexivity| |lia].
  pose proof (digits2_pos_bound p 53 ltac:(lia) Hlt) as Hd.
  unfold Double.of_Z, binary_normalize, binary_round, shl_align, fexp, emin.
  change Double.prec with 53. change Double.emax with 1024.
  rewrite Z.add_0_r.
  replace (Z.max (Zpos (digits2_pos p) - 53) (3 - 1024 - 53))
    with (Zpos (digits2_pos p) - 53) by lia.
  rewrite Z.sub_0_r.
  destruct (Zpos (digits2_pos p) - 53) as [|k|k] eqn:Hk; [|lia|].
  - rewrite binary_round_aux_exact by lia. reflexivity.
  - rewrite binary_round_aux_exact by (rewrite ?digits2_pos_iter; lia).
    cbn [Double.to_int]. apply shiftr_iter.
Qed.

(** X23.  Before the second image the estimate is two seconds for each image,
    whatever time has gone by. *)
Theorem first_estimate_is_two_seconds_per_image
    (currentImageIndex totalImages : Z) (elapsedTime : double) :
  currentImageIndex <= 0 ->
  0 <= totalImages < 2 ^ 30 ->
  exists h m s,
    getEstimatedTimeRemaining currentImageIndex totalImages elapsedTime
    = (h, m, s)
    /\ clock (totalImages * 2) h m s.
Proof.
  intros Hi Ht. unfold getEstimatedTimeRemaining, estRemaining. cbv zeta.
  replace (0 <? currentImageIndex) with false
    by (symmetry; apply Z.ltb_ge; lia).
  rewrite to_int_of_Z by lia.
  do 3 eexists. split; [reflexivity|]. apply clock_split. lia.
Qed.

End Clock.

(** ** The usage text *)

Section Usage.

(** The lines that name the program document no option, unless the name
    of the program begins with [-]. *)
Lemma listed_options_program (programName : string) :
  Ascii.eqb (Str.head programName) "-" = false ->
  listed_options programName = listed_options EmptyString.
Proof.
  destruct programName as [|c p]; [reflexivity|]. cbn [Str.head].
  destruct c as [[] [] [] [] [] [] [] []]; intros H; try discriminate H;
    vm_compute; reflexivity.
Qed.

Lemma known_option_listed (a : string) :
  existsb (String.eqb a) (listed_options EmptyString) = known_option a.
Proof.
  let L := eval vm_compute in (listed_options EmptyString) in
  change (listed_options EmptyString) with L.
  unfold known_option, classify. cbn [existsb].
  repeat match goal with
         | |- context [String.eqb a ?lit] =>
             destruct (String.eqb_spec a lit) as [->|_];
             [vm_compute; reflexivity|]
         end.
  cbn [orb]. now destruct (negb _).
Qed.

(** X24.  The option lines of the usage text name exactly the options that
    [parseCommandLine] knows: every name at the head of such a line is
    read as an option, and every argument that is read as an option is
    named there. *)
Theorem usage_lists_the_options (programName a : string) :
  Ascii.eqb (Str.head programName) "-" = false ->
  In a (listed_options programName) <-> known_option a = true.
Proof.
  intros Hp. rewrite (listed_options_program _ Hp), <- known_option_listed.
  rewrite existsb_exists. split.
  - intros Hin. exists a. split; [exact Hin | apply String.eqb_refl].
  - intros (x & Hin & Hx). apply String.eqb_eq in Hx. now subst.
Qed.

End Usage.

(** ** An input that cannot be used *)

Section Input.

Variable E : Env.

(** X25.  An input path that is a regular file of no supported format, or is
    neither a regular file nor a directory, ends the run with exit code
    1: both complaints are written, no image is loaded and the disk is
    as it was.  ([parseCommandLine] does not look at the input path
    itself.) *)
Theorem unusable_input_ends_run
    (argv : list string) (disk : gmap string string) :
  let c := parseCommandLine E argv in
  showHelp c = false -> showVersion c = false ->
  showLicense c = false -> showCredits c = false ->
  (fs_is_regular_file E (inputPath c) = true
   /\ isSupportedImageFile E (inputPath c) = false)
  \/ (fs_is_regular_file E (inputPath c) = false
      /\ fs_is_directory E (inputPath c) = false) ->
  let o := main E argv disk in
  exit_code o = 1%Z
  /\ disk_after o = disk
  /\ loads (events o) = []
  /\ In (Stderr ("Error: " ++ inputPath c
                   ++ if fs_is_regular_file E (inputPath c)
                      then " is not a supported image file."
                      else " is not a valid file or directory."))
       (events o)
  /\ In (Stderr ("No supported image files found in " ++ inputPath c))
       (events o).
Proof.
  cbv zeta. unfold main, parseCommandLine. intros -> -> -> -> H.
  unfold collectImageFiles.
  destruct H as [[-> ->]|[-> ->]]; cbn [length Nat.eqb exit_code disk_after events];
    rewrite !loads_app, loads_stderr; cbn [loads app];
    (split; [reflexivity|]); (split; [reflexivity|]); (split; [reflexivity|]);
    rewrite !in_app_iff; cbn [In]; split; auto.
Qed.

End Input.

(** ** Where a [--dranges] list ends *)

Section ListEnd.

Variable E : Env.

Lemma reaches_then s0 args s a r s1 r1 :
  reaches E s0 args s (a :: r) ->
  step E s a r = Continue s1 r1 ->
  reaches E s0 args s1 r1.
Proof.
  intros H. remember (a :: r) as rest eqn:Hr. revert a r Hr.
  induction H as [s rest|s b q t1 q1 t2 q2 Hs Hreach IH]; intros a r -> Hstep.
  - eapply reaches_step; [exact Hstep | apply reaches_here].
  - eapply reaches_step; [exact Hs|]. eapply IH; eauto.
Qed.

Lemma ends_list_not_consumed tok out :
  ends_list tok = true ->
  (negb (Str.is_empty tok) && Ascii.eqb (Str.head tok) "-") = true
  \/ consume_drange_token E tok out = (false, out, EmptyString).
Proof.
  unfold ends_list, dash_led, consume_drange_token. intros H.
  destruct tok as [|c tok]; cbn [Str.is_empty negb Str.head andb] in *.
  { right. reflexivity. }
  destruct (Ascii.eqb c "-") eqn:Hc; [now left|right].
  cbn [orb] in H.
  destruct (Str.is_empty (trim_ws (String c tok))); [reflexivity|].
  destruct (Ascii.eqb (Str.head (trim_ws (String c tok))) "-"); [reflexivity|].
  cbn [orb] in H. apply andb_prop in H as [H1 H2].
  apply negb_true_iff in H1, H2. now rewrite H1, H2.
Qed.

Lemma dranges_loop_ends good : forall s tok more,
  dranges (config s) = [] ->
  forallb (positive_token E) good = true ->
  ends_list tok = true ->
  dranges_loop E s (good ++ tok :: more) = Continue s (tok :: more).
Proof.
  induction good as [|g good IH]; intros s tok more Hnil Hgood Htok;
    cbn [app dranges_loop]; rewrite ?Hnil.
  - destruct (ends_list_not_consumed tok [] Htok) as [-> | H]; [reflexivity|].
    destruct (negb (Str.is_empty tok) && Ascii.eqb (Str.head tok) "-");
      [reflexivity|].
    rewrite H. cbn [negb]. now rewrite (put_dranges_nil s Hnil).
  - cbn [forallb] in Hgood. apply andb_prop in Hgood as [Hg Hgood].
    destruct (positive_token_consumed E g Hg) as (-> & ->).
    cbn [negb Str.is_empty]. rewrite (put_dranges_nil s Hnil). now apply IH.
Qed.

(** X26.  A [--dranges] list of positive numbers ends at the first argument
    that cannot belong to it, such as the input path or the next option;
    the loop goes on with that argument, the cut points cleared and
    nothing else changed. *)
Theorem dranges_list_ends_at_other_argument
    (args : list string) (s : parse_state)
    (good : list string) (tok : string) (more : list string) :
  reaches E parse_state_init args s ("--dranges" :: good ++ tok :: more) ->
  forallb (positive_token E) good = true ->
  ends_list tok = true ->
  reaches E parse_state_init args (s <|| dranges := [] ||>) (tok :: more).
Proof.
  intros Hreach Hgood Htok.
  apply (reaches_then _ _ _ _ _ _ _ Hreach).
  rewrite step_dranges.
  apply dranges_loop_ends; [reflexivity | exact Hgood | exact Htok].
Qed.

End ListEnd.

(** ** The names of the columns *)

Section Columns.

Lemma writeCsvHeader_columns (c : feature_config) :
  writeCsvHeader c
  = header_line (map (column_name (pixelconv c)) (header_columns c)).
Proof.
  unfold writeCsvHeader, header_columns.
  rewrite map_app.
  destruct (roottype c =? 0)%Z;
    unfold whole_root_columns, broken_root_columns; cbn [map];
    rewrite header_line_app, <- binned_columns;
    destruct (pixelconv c); reflexivity.
Qed.

Lemma append_cancel_l (a x y : string) : a ++ x = a ++ y -> x = y.
Proof.
  induction a as [|c a IH]; [exact (fun H => H)|].
  intros H. change (String c (a ++ x) = String c (a ++ y)) in H.
  injection H as H. now apply IH.
Qed.

Lemma append_cancel_r (x y s : string) : x ++ s = y ++ s -> x = y.
Proof.
  revert y. induction x as [|c x IH]; intros [|d y] H.
  - reflexivity.
  - apply (f_equal String.length) in H.
    rewrite !length_append in H. cbn [String.length] in H. lia.
  - apply (f_equal String.length) in H.
    rewrite !length_append in H. cbn [String.length] in H. lia.
  - change (String c (x ++ s) = String d (y ++ s)) in H.
    injection H as -> H. f_equal. now apply IH.
Qed.

Lemma of_nat_inj (i j : nat) : Str.of_nat i = Str.of_nat j -> i = j.
Proof.
  unfold Str.of_nat. intros H.
  apply DecimalNat.Unsigned.to_uint_inj.
  pose proof (NilEmpty.usu (Nat.to_uint i)) as Hi.
  pose proof (NilEmpty.usu (Nat.to_uint j)) as Hj.
  rewrite H in Hi. congruence.
Qed.

Lemma contains_append (c : ascii) (a b : string) :
  Str.contains c (a ++ b) = Str.contains c a || Str.contains c b.
Proof.
  induction a as [|x a IH]; [reflexivity|].
  change (Str.contains c (String x (a ++ b))
          = Str.contains c (String x a) || Str.contains c b).
  cbn [Str.contains]. now rewrite IH, orb_assoc.
Qed.

(** A number is written with digits only. *)
Lemma of_nat_digits (c : ascii) (n : nat) :
  Str.is_digit c = false -> Str.contains c (Str.of_nat n) = false.
Proof.
  intros Hc. unfold Str.of_nat.
  assert (Hd : forall d, Str.is_digit d = true -> Ascii.eqb c d = false).
  { intros d Hd. destruct (Ascii.eqb_spec c d) as [->|]; congruence. }
  induction (Nat.to_uint n) as [|u IH|u IH|u IH|u IH|u IH|u IH|u IH|u IH|u IH|u IH];
    cbn [NilEmpty.string_of_uint Str.contains]; [reflexivity|..];
    rewrite IH, Hd by reflexivity; reflexivity.
Qed.

(** Two lists told apart by a test have no element in common. *)
Lemma NoDup_app_told_apart {A : Type} (f : A -> bool) (l1 l2 : list A) :
  Forall (fun x => f x = true) l1 ->
  Forall (fun x => f x = false) l2 ->
  List.NoDup l1 -> List.NoDup l2 -> List.NoDup (l1 ++ l2)%list.
Proof.
  intros H1 H2 N1 N2. induction N1 as [|x l1 Hx N1 IH]; [exact N2|].
  inversion H1 as [|? ? Hfx H1']; subst. cbn [app]. constructor; [|auto].
  intros Hin. apply in_app_or in Hin as [Hin|Hin]; [now apply Hx|].
  rewrite List.Forall_forall in H2. specialize (H2 x Hin). congruence.
Qed.

Lemma NoDup_map_injective {A B : Type} (f : A -> B) (l : list A) :
  (forall x y, f x = f y -> x = y) -> List.NoDup l -> List.NoDup (map f l).
Proof.
  intros Hf N. induction N as [|x l Hx N IH]; cbn [map]; constructor; auto.
  intros Hin. apply in_map_iff in Hin as (y & Hy & Hin).
  apply Hf in Hy. now subst.
Qed.

Lemma series_names_in converted label k n name :
  In name (series_names converted label k n) ->
  exists i, name = (label ++ Str.of_nat (i + 1)) ++ unit_suffix converted k.
Proof.
  unfold series_names, range_series. rewrite map_map. intros H.
  apply in_map_iff in H as (i & <- & _). now exists i.
Qed.

Lemma series_names_NoDup converted label k n :
  List.NoDup (series_names converted label k n).
Proof.
  unfold series_names, range_series. rewrite map_map.
  apply NoDup_map_injective; [|apply seq_NoDup].
  intros i j H. unfold column_name in H. cbn [fst snd] in H.
  apply append_cancel_r, append_cancel_l, of_nat_inj in H. lia.
Qed.

Lemma series_names_prefixed converted label k n :
  Forall (fun name => Str.starts_with label name = true)
    (series_names converted label k n).
Proof.
  apply List.Forall_forall. intros name H.
  apply series_names_in in H as (i & ->).
  rewrite append_assoc. apply starts_with_append.
Qed.

Lemma unit_suffix_plain converted k (c : ascii) :
  c = ","%char \/ c = Str.lf -> Str.contains c (unit_suffix converted k) = false.
Proof. intros [-> | ->]; destruct converted, k; reflexivity. Qed.

Lemma series_names_plain converted label k n (c : ascii) :
  c = ","%char \/ c = Str.lf ->
  Str.contains c label = false ->
  Forall (fun name => Str.contains c name = false)
    (series_names converted label k n).
Proof.
  intros Hc Hlabel. apply List.Forall_forall. intros name H.
  apply series_names_in in H as (i & ->).
  rewrite !contains_append, Hlabel, (unit_suffix_plain _ _ _ Hc).
  rewrite of_nat_digits; [reflexivity|].
  destruct Hc as [-> | ->]; reflexivity.
Qed.

Lemma binned_names converted n :
  map (column_name converted) (binned_series n)
  = (series_names converted "Root.Length.Diameter.Range." Length n
     ++ series_names converted "Projected.Area.Diameter.Range." Area n
     ++ series_names converted "Surface.Area.Diameter.Range." Area n
     ++ series_names converted "Volume.Diameter.Range." Volume n)%list.
Proof. unfold binned_series, series_names. now rewrite !map_app. Qed.

Ltac told_apart :=
  apply List.Forall_forall; intros name Hin;
  repeat (apply in_app_or in Hin as [Hin|Hin]);
  apply series_names_in in Hin as (i & ->); reflexivity.

Lemma binned_names_NoDup converted n :
  List.NoDup (map (column_name converted) (binned_series n)).
Proof.
  rewrite binned_names.
  apply (NoDup_app_told_apart (Str.starts_with "Root.Length.Diameter.Range."));
    [apply series_names_prefixed | told_apart | apply series_names_NoDup|].
  apply (NoDup_app_told_apart (Str.starts_with "Projected.Area.Diameter.Range."));
    [apply series_names_prefixed | told_apart | apply series_names_NoDup|].
  apply (NoDup_app_told_apart (Str.starts_with "Surface.Area.Diameter.Range."));
    [apply series_names_prefixed | told_apart | apply series_names_NoDup|].
  apply series_names_NoDup.
Qed.

Lemma binned_names_binned converted n :
  Forall (fun name => is_binned name = true)
    (map (column_name converted) (binned_series n)).
Proof.
  rewrite binned_names. rewrite !Forall_app. unfold is_binned.
  repeat split;
    (eapply List.Forall_impl; [|apply series_names_prefixed]);
    cbn beta; intros name ->; rewrite ?orb_true_r; reflexivity.
Qed.

Lemma binned_names_plain converted n (c : ascii) :
  c = ","%char \/ c = Str.lf ->
  Forall (fun name => Str.contains c name = false)
    (map (column_name converted) (binned_series n)).
Proof.
  intros Hc. rewrite binned_names. rewrite !Forall_app.
  repeat split; apply (series_names_plain _ _ _ _ c Hc);
    destruct Hc as [-> | ->]; reflexivity.
Qed.

Ltac distinct_names :=
  repeat (constructor;
          [cbn [In]; let H := fresh in
           intros H; repeat (destruct H as [H|H]; [discriminate H|]); exact H|]);
  constructor.

(** X27.  The header names every column once: it is the line of a list of
    names that are pairwise distinct and hold neither a comma nor a line
    feed, whatever the root type, the unit and the number of cut
    points. *)
Theorem header_columns_are_distinct (c : feature_config) :
  exists names,
    writeCsvHeader c = header_line names
    /\ List.NoDup names
    /\ Forall (fun name => Str.contains "," name = false
                           /\ Str.contains Str.lf name = false) names.
Proof.
  exists (map (column_name (pixelconv c)) (header_columns c)).
  split; [apply writeCsvHeader_columns|].
  unfold header_columns. rewrite map_app.
  split.
  - apply (NoDup_app_told_apart (fun name => negb (is_binned name))).
    + destruct (roottype c =? 0)%Z, (pixelconv c);
        repeat constructor.
    + eapply List.Forall_impl; [|apply binned_names_binned].
      cbn beta. now intros name ->.
    + destruct (roottype c =? 0)%Z, (pixelconv c); cbn [map]; distinct_names.
    + apply binned_names_NoDup.
  - apply Forall_app. split.
    + destruct (roottype c =? 0)%Z, (pixelconv c);
        repeat constructor.
    + pose proof (binned_names_plain (pixelconv c) (length (dranges c)) ","
                    (or_introl eq_refl)) as H1.
      pose proof (binned_names_plain (pixelconv c) (length (dranges c)) Str.lf
                    (or_intror eq_refl)) as H2.
      rewrite List.Forall_forall in *. intros name Hin. split; auto.
Qed.

End Columns.

(** ** The conversion factor *)

Section Conversion.

Variable E : Env.

Lemma after_loop_conversion s r :
  r = returned (after_loop E s) ->
  accepted (config r) = true ->
  (conversion (config r), pixelspermm (config r)) = chosen_conversion s
  /\ pixelconv (config r) = pixelconv (config s).
Proof.
  unfold accepted, after_loop.
  destruct (check_input_path_effect s) as [[Hne ->]|[He [-> | ->]]];
    cbn [and_then returned];
    [| intros ->; cbn; rewrite ?He, ?andb_false_r; discriminate ..].
  destruct (default_output_path_effect E s) as [p ->]. cbn [and_then].
  destruct (check_output_path_effect E (s <|| outputPath := p ||>))
    as [-> | [msg ->]]; cbn [and_then returned]; [|intros ->; discriminate].
  destruct (resolve_output_file_effect E (s <|| outputPath := p ||>))
    as [[f ->]|[msg ->]]; cbn [and_then returned]; [|intros ->; discriminate].
  destruct (broken_root_overlays_effect
              (s <|| outputPath := p ||> <|| outputFile := f ||>))
    as [[_ ->]|[_ ->]]; cbn [and_then returned].
  all: unfold conversion_factor, chosen_conversion; cbn [config pixelconv put
         set_config set_outputPath set_outputFile set_showConvexHull
         set_showHoles set_showContours pixels dpi pixelFactor dpiFactor
         overlays_off say set_cerr];
    destruct (pixelconv (config s)) eqn:Hpc, (pixels s) eqn:Hpx,
             (dpi s) eqn:Hdp;
    cbn [orb and_then]; repeat after_loop_step E; intros ->; cbn;
    intros; try discriminate; rewrite ?Hpc; split; reflexivity.
Qed.

Lemma reaches_inv (P : parse_state -> Prop) (A : string -> Prop) :
  (forall s a r, P s -> A a ->
     match step E s a r with
     | Continue s' _ => P s'
     | Return s' => P s'
     end) ->
  forall s0 args s rest,
    reaches E s0 args s rest -> Forall A args -> P s0 -> P s.
Proof.
  intros Hstep s0 args s rest H.
  induction H as [|s a r s1 r1 s2 r2 Hs _ IH]; intros HA HP; [exact HP|].
  inversion HA as [|? ? Ha Hr]; subst.
  specialize (Hstep s a r HP Ha). rewrite Hs in Hstep.
  apply IH; [|exact Hstep].
  apply step_suffix in Hs as [pre ->]. now apply Forall_app in Hr as [_ ?].
Qed.

Lemma step_pixel_factor v s a r :
  classify a <> OFactorPixels ->
  pixel_factor_is v s ->
  match step E s a r with
  | Continue s' _ => pixel_factor_is v s'
  | Return s' => pixel_factor_is v s'
  end.
Proof.
  unfold pixel_factor_is. intros Ha H. unfold step, with_value.
  destruct (classify a); try congruence;
    try (destruct (dranges_loop_effect E r (s <|| dranges := [] ||>))
           as [? [[? ->]|[? ->]]]);
    try destruct r;
    repeat match goal with
           | |- context [if ?b then _ else _] => destruct b
           end; exact H.
Qed.

Lemma step_no_pixel_factor s a r :
  classify a <> OFactorPixels ->
  pixels s = false ->
  match step E s a r with
  | Continue s' _ => pixels s' = false
  | Return s' => pixels s' = false
  end.
Proof.
  intros Ha H. unfold step, with_value.
  destruct (classify a); try congruence;
    try (destruct (dranges_loop_effect E r (s <|| dranges := [] ||>))
           as [? [[? ->]|[? ->]]]);
    try destruct r;
    repeat match goal with
           | |- context [if ?b then _ else _] => destruct b
           end; exact H.
Qed.

Lemma step_dpi_factor v s a r :
  classify a <> OFactorPixels /\ classify a <> OFactorDpi ->
  dpi_factor_is v s ->
  match step E s a r with
  | Continue s' _ => dpi_factor_is v s'
  | Return s' => dpi_factor_is v s'
  end.
Proof.
  unfold dpi_factor_is. intros [Ha Hb] H. unfold step, with_value.
  destruct (classify a); try congruence;
    try (destruct (dranges_loop_effect E r (s <|| dranges := [] ||>))
           as [? [[? ->]|[? ->]]]);
    try destruct r;
    repeat match goal with
           | |- context [if ?b then _ else _] => destruct b
           end; exact H.
Qed.

(** The state in which an accepted command line leaves the loop. *)
Lemma accepted_from s args :
  accepted (config (parse_from E s args)) = true ->
  exists s',
    parse_loop E (length args) s args = (s', false)
    /\ parse_from E s args = returned (after_loop E s').
Proof.
  unfold parse_from.
  destruct (parse_loop E (length args) s args) as [s' [|]] eqn:Hloop.
  - apply parse_loop_return_showHelp in Hloop. unfold accepted.
    rewrite Hloop. discriminate.
  - eauto.
Qed.

(** X28.  Under [--convert], on an accepted command line, the value of the
    last [--factorpixels] is the conversion factor, in pixels per
    millimetre, whatever [--factordpi] says and wherever it stands. *)
Theorem factorpixels_takes_precedence
    (prog : string) (args : list string) (s : parse_state)
    (a v : string) (rest : list string) :
  reaches E parse_state_init args s (a :: v :: rest) ->
  classify a = OFactorPixels ->
  Forall (fun x => classify x <> OFactorPixels) rest ->
  let c := parseCommandLine E (prog :: args) in
  accepted c = true ->
  pixelconv c = true ->
  conversion c = atof E v /\ pixelspermm c = 1%Z.
Proof.
  intros Hreach Ha Hrest. cbv zeta. unfold parseCommandLine, parse. cbn [tl].
  rewrite (reaches_parse_from E _ _ _ _ Hreach).
  assert (Hstep : step E s a (v :: rest)
                  = Continue (s <| pixelFactor := atof E v |> <| pixels := true |>)
                      rest).
  { unfold step. now rewrite Ha. }
  rewrite (parse_from_step E _ _ _ _ _ Hstep).
  intros Hacc Hconv.
  destruct (accepted_from _ _ Hacc) as (s' & Hloop & Hs').
  assert (Hinv : pixel_factor_is (atof E v)
                   (fst (parse_loop E (length rest)
                           (s <| pixelFactor := atof E v |> <| pixels := true |>)
                           rest))).
  { apply (parse_loop_inv E (pixel_factor_is (atof E v))
             (fun x => classify x <> OFactorPixels)
             (fun s a r H Ha => step_pixel_factor _ s a r Ha H)
             (length rest) _ rest Hrest).
    split; reflexivity. }
  rewrite Hloop in Hinv. cbn [fst] in Hinv. destruct Hinv as [Hp Hf].
  destruct (after_loop_conversion s' _ Hs' Hacc) as [Hc Hpc].
  rewrite Hpc in Hconv. unfold chosen_conversion in Hc.
  rewrite Hconv, Hp, Hf in Hc. now injection Hc.
Qed.

(** X29.  Under [--convert], on an accepted command line without
    [--factorpixels], the value of the last [--factordpi] is the
    conversion factor, in dots per inch. *)
Theorem factordpi_used_without_factorpixels
    (prog : string) (args : list string) (s : parse_state)
    (a v : string) (rest : list string) :
  reaches E parse_state_init args s (a :: v :: rest) ->
  classify a = OFactorDpi ->
  Forall (fun x => classify x <> OFactorPixels) args ->
  Forall (fun x => classify x <> OFactorDpi) rest ->
  let c := parseCommandLine E (prog :: args) in
  accepted c = true ->
  pixelconv c = true ->
  conversion c = atof E v /\ pixelspermm c = 0%Z.
Proof.
  intros Hreach Ha Hargs Hrest. cbv zeta. unfold parseCommandLine, parse.
  cbn [tl]. rewrite (reaches_parse_from E _ _ _ _ Hreach).
  assert (Hstep : step E s a (v :: rest)
                  = Continue (s <| dpiFactor := atof E v |> <| dpi := true |>)
                      rest).
  { unfold step. now rewrite Ha. }
  rewrite (parse_from_step E _ _ _ _ _ Hstep).
  intros Hacc Hconv.
  pose proof (reaches_inv (fun s => pixels s = false)
                (fun x => classify x <> OFactorPixels)
                (fun s a r H Ha => step_no_pixel_factor s a r Ha H)
                _ _ _ _ Hreach Hargs eq_refl) as Hnone.
  assert (Hboth : Forall (fun x => classify x <> OFactorPixels
                                   /\ classify x <> OFactorDpi) rest).
  { destruct (reaches_suffix E _ _ _ _ Hreach) as [pre Hpre].
    rewrite List.Forall_forall in *. intros x Hx. split; [|now apply Hrest].
    apply Hargs. rewrite Hpre. apply in_or_app. right. right. now right. }
  destruct (accepted_from _ _ Hacc) as (s' & Hloop & Hs').
  assert (Hinv : dpi_factor_is (atof E v)
                   (fst (parse_loop E (length rest)
                           (s <| dpiFactor := atof E v |> <| dpi := true |>)
                           rest))).
  { apply (parse_loop_inv E (dpi_factor_is (atof E v))
             (fun x => classify x <> OFactorPixels /\ classify x <> OFactorDpi)
             (fun s a r H Ha => step_dpi_factor _ s a r Ha H)
             (length rest) _ rest Hboth).
    repeat split; try reflexivity. exact Hnone. }
  rewrite Hloop in Hinv. cbn [fst] in Hinv. destruct Hinv as (Hp & Hd & Hf).
  destruct (after_loop_conversion s' _ Hs' Hacc) as [Hc Hpc].
  rewrite Hpc in Hconv. unfold chosen_conversion in Hc.
  rewrite Hconv, Hp, Hd, Hf in Hc. now injection Hc.
Qed.

End Conversion.

(** ** The properties at work

    Runs in the sample world. *)

(** C1: the documented example [--dranges 1.0,3.0,6.0] leaves no cut
    point. *)
Lemma dranges_option_leaves_no_cut_points_witness :
  reaches Sample.E parse_state_init ["--dranges"; "1.0,3.0,6.0"; "/data/a.png"]
    parse_state_init ["--dranges"; "1.0,3.0,6.0"; "/data/a.png"]
  /\ dranges (parseCommandLine Sample.E ["rv"; "--dranges"; "1.0,3.0,6.0"; "/data/a.png"])
     = [].
Proof.
  split; [apply reaches_here|].
  apply (dranges_option_leaves_no_cut_points Sample.E "rv"
           ["--dranges"; "1.0,3.0,6.0"; "/data/a.png"] parse_state_init
           ["1.0,3.0,6.0"; "/data/a.png"]).
  apply reaches_here.
Defined.

(** The same command line is accepted, its three values are positive and
    ascending, and each series of the header has one column where four
    are documented. *)
Example dranges_values_lost :
  let c := parseCommandLine Sample.E ["rv"; "--dranges"; "1.0,3.0,6.0"; "/data/a.png"] in
  accepted c = true
  /\ map (stod Sample.E) (token_pieces "1.0,3.0,6.0")
     = [inr (Double.of_Z 1); inr (Double.of_Z 3); inr (Double.of_Z 6)]
  /\ dranges c = []
  /\ range_columns c "Root.Length.Diameter.Range." ".px"
     = ",Root.Length.Diameter.Range.1.px".
Proof. vm_compute. repeat split. Qed.

(** A list that is out of order is accepted as well. *)
Example dranges_out_of_order_accepted :
  let o := main Sample.E ["rv"; "--dranges"; "5,2"; "/data/a.png"] ∅ in
  exit_code o = 0%Z /\ loads (events o) = ["/data/a.png"].
Proof. vm_compute. split; reflexivity. Qed.

(** C2: a list with two equal values is not refused. *)
Lemma dranges_equal_values_not_rejected :
  token_pieces "2,2" = ["2"; "2"]
  /\ ~ rejected "rv" (main Sample.E ["rv"; "--dranges"; "2,2"; "/data/a.png"] ∅).
Proof.
  split; [reflexivity|].
  intros (_ & _ & Hexit & _). apply Hexit. vm_compute. reflexivity.
Qed.

Lemma dranges_nonpositive_refused_witness :
  let args := ["--dranges"; "1"; "0"; "/data/a.png"] in
  let o := main Sample.E ("rv" :: args) ∅ in
  (reaches Sample.E parse_state_init args parse_state_init
     ("--dranges" :: ["1"] ++ "0" :: ["/data/a.png"])
   /\ forallb (positive_token Sample.E) ["1"] = true
   /\ nonpositive_token Sample.E "0" = true)
  /\ (exists msg, In (Stderr ("Error: " ++ msg)) (events o))
  /\ In (Usage "rv") (events o)
  /\ (forall p, ~ In (Load p) (events o))
  /\ (forall p, ~ In (Extract p) (events o))
  /\ disk_after o = ∅
  /\ (exit_code o = 1%Z
      \/ exit_code o = 0%Z /\ (In "-h" args \/ In "--help" args)).
Proof.
  cbv zeta. split.
  - split; [apply reaches_here|]. split; vm_compute; reflexivity.
  - apply (dranges_nonpositive_refused Sample.E "rv"
             ["--dranges"; "1"; "0"; "/data/a.png"] parse_state_init
             ["1"] "0" ["/data/a.png"] ∅).
    + apply reaches_here.
    + vm_compute; reflexivity.
    + vm_compute; reflexivity.
Defined.

(** C3: with broken roots and no overlay asked for, the three members
    are still set. *)
Lemma broken_root_overlays_left_on :
  let c := parseCommandLine Sample.E ["rv"; "/data/a.png"] in
  ~ (roottype c = 1%Z ->
     showConvexHull c = false /\ showHoles c = false /\ showContours c = false).
Proof.
  cbv zeta. intros H. destruct (H eq_refl) as [Hf _].
  vm_compute in Hf. discriminate.
Qed.

Lemma broken_root_overlays_forced_off_witness :
  let argv := ["rv"; "-ch"; "/data/a.png"] in
  let s := parse Sample.E argv in
  let c := config s in
  (accepted c = true /\ roottype c = 1%Z)
  /\ showConvexHull c = false /\ showHoles c = false /\ showContours c = false
  /\ In overlay_warning (cerr s).
Proof.
  cbv zeta. split; [split; vm_compute; reflexivity|].
  destruct (broken_root_overlays_forced_off Sample.E ["rv"; "-ch"; "/data/a.png"])
    as [H _]; [vm_compute; reflexivity ..|].
  apply H. exists parse_state_init, "-ch", ["/data/a.png"].
  split; [apply reaches_here | reflexivity].
Defined.

(** C3: the same command line, on which the loop reads no such option:
    the members are set and the warning is not written. *)
Example broken_root_overlays_untouched :
  let s := parse Sample.E ["rv"; "/data/a.png"] in
  let c := config s in
  (forall s0 a rest,
     reaches Sample.E parse_state_init ["/data/a.png"] s0 (a :: rest) ->
     asks_overlay a = false)
  /\ showConvexHull c = true /\ showHoles c = true /\ showContours c = true
  /\ ~ In overlay_warning (cerr s).
Proof.
  cbv zeta. split.
  { intros s0 a rest Hr. apply reaches_read in Hr.
    destruct Hr as [<-|[]]. reflexivity. }
  repeat split; try (vm_compute; reflexivity).
  vm_compute. intros [].
Qed.

(** C4: a directory with a file that cannot be loaded and one whose
    analysis throws. *)
Lemma batch_survives_failures_witness :
  let argv := ["rv"; "/data"] in
  let c := parseCommandLine Sample.E argv in
  let o := main Sample.E argv ∅ in
  (showHelp c = false /\ showVersion c = false
   /\ showLicense c = false /\ showCredits c = false)
  /\ loads (events o)
     = ["/data/a.png"; "/data/broken.png"; "/data/odd.jpg"; "/data/z.tif"]
  /\ In (Stderr "Error: Could not load image /data/broken.png") (events o)
  /\ In (Stderr ("Error processing /data/odd.jpg: " ++ Str.nl
                   ++ String Str.tab "degenerate skeleton")) (events o)
  /\ exit_code o = 0%Z
  /\ disk_after o
     = {[ "/data/features.csv" :=
            writeCsvHeader c
            ++ "a.png,Full,3,0,NA,0.001234,123456.7,NA" ++ Str.nl
            ++ "z.tif,Full,3,0,NA,0.001234,123456.7,NA" ++ Str.nl ]}.
Proof.
  cbv zeta. split; [repeat split; vm_compute; reflexivity|].
  pose proof (batch_survives_failures Sample.E ["rv"; "/data"] ∅) as H.
  cbv zeta in H.
  specialize (H ltac:(vm_compute; reflexivity) ltac:(vm_compute; reflexivity)
                ltac:(vm_compute; reflexivity) ltac:(vm_compute; reflexivity)).
  destruct H as (Hl & _ & Hrep & Hexit & Hdisk).
  split; [rewrite Hl; vm_compute; reflexivity|].
  split; [|split; [|split]].
  - apply (Hrep "/data/broken.png" Unreadable); [vm_compute; tauto | reflexivity].
  - apply (Hrep "/data/odd.jpg" (Aborted "degenerate skeleton"));
      [vm_compute; tauto | reflexivity].
  - rewrite Hexit. vm_compute. reflexivity.
  - rewrite Hdisk. vm_compute. reflexivity.
Defined.

(** C4: a segmented image saved under the name of the file of results.
    The file is there when the rows are written, so they follow the
    image without a header. *)
Example rows_follow_saved_image :
  let argv := ["rv"; "--segment"; "-o"; "a_seg.png"; "/data/a.png"] in
  let o := main Sample.E argv ∅ in
  outputFile (parseCommandLine Sample.E argv) = "/data/a_seg.png"
  /\ saved (events o) = ["/data/a_seg.png"]
  /\ exit_code o = 0%Z
  /\ disk_after o
     = {[ "/data/a_seg.png" :=
            Reference.png Sample.pixel
            ++ "a.png,Full,3,0,NA,0.001234,123456.7,NA" ++ Str.nl ]}.
Proof. vm_compute. repeat split. Qed.

(** C5: a row with a value of each kind. *)
Lemma feature_cell_encoding_witness :
  let c := feature_config_default <| outputFile := "/data/features.csv" |> in
  ofstream_open Sample.E (outputFile c) = true
  /\ fst (writeResultsToCsv Sample.E c ["/data/a.png"]
            [ex_features Sample.measured] ["Full"] ∅) !! outputFile c
     = Some (writeCsvHeader c
             ++ "a.png,Full,3,0,NA,0.001234,123456.7,NA" ++ Str.nl).
Proof.
  cbv zeta. split; [vm_compute; reflexivity|].
  rewrite (feature_cell_encoding Sample.E
             (feature_config_default <| outputFile := "/data/features.csv" |>)
             ["/data/a.png"] [ex_features Sample.measured] ["Full"] ∅)
    by (vm_compute; reflexivity).
  vm_compute. reflexivity.
Defined.

(** C5: a value below one millionth.  Its precision is negative, which
    is no number of digits; with the GNU library the text shows six. *)
Lemma tiny_value_not_written_at_its_precision :
  let v := Glibc.atof "0.00000001234567" in
  Double.isnan v || Double.isinf v || Double.eqb v Double.zero = false
  /\ csv_row Sample.E "/data/a.png" "Full" [v]
     = "a.png,Full,1.23457e-08" ++ Str.nl
  /\ feature_precision Sample.E v = (-1)%Z
  /\ ~ (significant_digits "1.23457e-08" <= feature_precision Sample.E v)%Z.
Proof.
  cbv zeta. split; [vm_compute; reflexivity|].
  split; [vm_compute; reflexivity|].
  split; [vm_compute; reflexivity|].
  vm_compute. intros H. apply H. reflexivity.
Qed.



(** C8: [--fgsize] without [--fgnoise]. *)
Lemma dependent_option_without_parent_witness :
  let given_ := parse Sample.E ["rv"; "--fgsize"; "0.5"; "/data/a.png"] in
  let without := parse Sample.E ["rv"; "/data/a.png"] in
  (accepted (config given_) = true /\ filterfgnoise (config given_) = false)
  /\ In "Warning: --fgsize is set but --fgnoise is not enabled. Ignoring --fgsize."
       (cerr given_)
  /\ (config without) <| maxcompsizefg := maxcompsizefg (config given_) |>
     = config given_
  /\ accepted (config without) = true.
Proof.
  cbv zeta. split; [split; vm_compute; reflexivity|].
  apply (dependent_option_without_parent Sample.E DFgSize "--fgsize" "0.5" "rv"
           [] ["/data/a.png"] parse_state_init).
  - left. reflexivity.
  - apply reaches_here.
  - apply reaches_here.
  - vm_compute; reflexivity.
  - vm_compute; reflexivity.
Defined.

(** C9: appending to a file that is there. *)
Lemma noappend_keeps_existing_contents_witness :
  let c := feature_config_default
             <| noappend := true |> <| outputFile := "/data/features.csv" |> in
  let disk : gmap string string := {[ "/data/features.csv" := "old" ]} in
  let disk' :=
    fst (writeResultsToCsv Sample.E c ["/data/a.png"] [[Double.of_Z 3]] ["Full"] disk) in
  (disk !! outputFile c = Some "old" /\ noappend c = true)
  /\ (exists added,
        disk' !! outputFile c = Some ("old" ++ added)
        /\ (ofstream_open Sample.E (outputFile c) = true ->
            added
            = writeCsvHeader c
              ++ csv_rows Sample.E ["/data/a.png"] [[Double.of_Z 3]] ["Full"]))
  /\ forall p, p <> outputFile c -> disk' !! p = disk !! p.
Proof.
  cbv zeta. split; [split; vm_compute; reflexivity|].
  apply (noappend_keeps_existing_contents Sample.E
           (feature_config_default
              <| noappend := true |> <| outputFile := "/data/features.csv" |>)
           ["/data/a.png"] [[Double.of_Z 3]] ["Full"]
           {[ "/data/features.csv" := "old" ]} "old");
    vm_compute; reflexivity.
Defined.

(** C8: with [--version] and no input path, [--fgsize] without
    [--fgnoise] is passed over in silence. *)
Lemma dependent_option_not_warned :
  let s := parse Sample.E ["rv"; "--version"; "--fgsize"; "0.5"] in
  let o := main Sample.E ["rv"; "--version"; "--fgsize"; "0.5"] ∅ in
  ~ (fgsize s = true -> filterfgnoise (config s) = false ->
     In (warning DFgSize) (cerr s))
  /\ exit_code o = 0%Z.
Proof.
  cbv zeta. split; [|vm_compute; reflexivity].
  intros H. specialize (H eq_refl eq_refl). vm_compute in H. exact H.
Qed.

(** C8: a dependent option that stands behind a [--dranges] list ends
    the list.  With it the directory [2] is the input path; without it
    [2] is read as one more cut point and no input path is left. *)
Example dependent_option_ends_dranges_list :
  let E := Sample.E_numbered in
  let given_ := parse E ["rv"; "--dranges"; "1"; "--fgsize"; "0.5"; "2"] in
  let without := parse E ["rv"; "--dranges"; "1"; "2"] in
  reaches E parse_state_init ["--dranges"; "1"; "--fgsize"; "0.5"; "2"]
    (parse_state_init <|| dranges := [] ||>) ["--fgsize"; "0.5"; "2"]
  /\ (forall s, ~ reaches E parse_state_init ["--dranges"; "1"; "2"] s ["2"])
  /\ accepted (config given_) = true
  /\ In (warning DFgSize) (cerr given_)
  /\ accepted (config without) = false
  /\ cerr without = ["Error: No input path specified."].
Proof.
  cbv zeta. split.
  { eapply reaches_step; [vm_compute; reflexivity | apply reaches_here]. }
  split.
  { intros s H. inversion H as [|? ? ? ? ? ? ? Hs Hr]; subst.
    vm_compute in Hs. inversion Hs; subst. inversion Hr. }
  split; [vm_compute; reflexivity|].
  split; [vm_compute; tauto|].
  split; vm_compute; reflexivity.
Qed.

(** X1: an unknown option is reported and ends the run. *)
Lemma reported_error_ends_run_witness :
  let argv := ["rv"; "--bogus"; "/data/a.png"] in
  let line := "Error: Unknown option --bogus" in
  (In line (cerr (parse Sample.E argv)) /\ is_error line = true)
  /\ refused line argv ∅ (main Sample.E argv ∅).
Proof.
  cbv zeta. split; [split; vm_compute; auto|].
  apply (reported_error_ends_run Sample.E ["rv"; "--bogus"; "/data/a.png"] ∅
           "Error: Unknown option --bogus"); vm_compute; auto.
Defined.

(** X2: [--bogus] before the input path. *)
Lemma unknown_option_refused_witness :
  let args := ["--bogus"; "/data/a.png"] in
  (reaches Sample.E parse_state_init args parse_state_init args
   /\ classify "--bogus" = Unknown)
  /\ refused "Error: Unknown option --bogus" ("rv" :: args) ∅
       (main Sample.E ("rv" :: args) ∅).
Proof.
  cbv zeta. split; [split; [apply reaches_here | reflexivity]|].
  apply (unknown_option_refused Sample.E "rv" ["--bogus"; "/data/a.png"]
           parse_state_init "--bogus" ["/data/a.png"] ∅);
    [apply reaches_here | reflexivity].
Defined.

(** X3: [-o] with nothing after it. *)
Lemma missing_value_refused_witness :
  (reaches Sample.E parse_state_init ["-o"] parse_state_init ["-o"]
   /\ takes_value (classify "-o") = true)
  /\ exists msg,
       Str.starts_with ("Error: " ++ long_name (classify "-o") ++ " requires ") msg
       = true
       /\ refused msg ["rv"; "-o"] ∅ (main Sample.E ["rv"; "-o"] ∅).
Proof.
  split; [split; [apply reaches_here | reflexivity]|].
  apply (missing_value_refused Sample.E "rv" ["-o"] parse_state_init "-o" ∅);
    [apply reaches_here | reflexivity].
Defined.

(** X4: two input paths. *)
Lemma second_input_path_refused_witness :
  let args := ["/data/a.png"; "/data/z.tif"] in
  let s := parse_state_init <|| inputPath := "/data/a.png" ||> in
  (reaches Sample.E parse_state_init args s ["/data/z.tif"]
   /\ classify "/data/z.tif" = Positional
   /\ Str.is_empty (inputPath (config s)) = false)
  /\ refused "Error: Multiple input paths specified." ("rv" :: args) ∅
       (main Sample.E ("rv" :: args) ∅).
Proof.
  cbv zeta.
  assert (H : reaches Sample.E parse_state_init ["/data/a.png"; "/data/z.tif"]
                (parse_state_init <|| inputPath := "/data/a.png" ||>)
                ["/data/z.tif"]).
  { eapply reaches_step; [reflexivity | apply reaches_here]. }
  split; [split; [exact H | split; reflexivity]|].
  apply (second_input_path_refused Sample.E "rv" ["/data/a.png"; "/data/z.tif"]
           (parse_state_init <|| inputPath := "/data/a.png" ||>)
           "/data/z.tif" [] ∅); [exact H | reflexivity | reflexivity].
Defined.

(** X5: a threshold of 300. *)
Lemma out_of_range_value_refused_witness :
  let args := ["-t"; "300"; "/data/a.png"] in
  let msg := "Error: --threshold must be between 0 and 255." in
  (reaches Sample.E parse_state_init args parse_state_init args
   /\ classify "-t" = OThreshold
   /\ atoi Sample.E "300" = 300%Z)
  /\ refused msg ("rv" :: args) ∅ (main Sample.E ("rv" :: args) ∅).
Proof.
  cbv zeta. split; [split; [apply reaches_here | split; reflexivity]|].
  apply (out_of_range_value_refused Sample.E "rv" ["-t"; "300"; "/data/a.png"]
           parse_state_init "-t" "300" ["/data/a.png"] ∅);
    [apply reaches_here|].
  right. split; [reflexivity|]. split; [|reflexivity].
  change (atoi Sample.E "300") with 300%Z. lia.
Defined.

(** X7: [-h] before an unknown option. *)
Lemma help_ends_run_witness :
  let args := ["-h"; "--bogus"] in
  (reaches Sample.E parse_state_init args parse_state_init args
   /\ classify "-h" = OHelp)
  /\ main Sample.E ("rv" :: args) ∅
     = {| exit_code := 0;
          events := [Stderr "Error: Unknown option --bogus"; Usage "rv"];
          disk_after := ∅ |}.
Proof.
  cbv zeta. split; [split; [apply reaches_here | reflexivity]|].
  rewrite (help_ends_run Sample.E "rv" ["-h"; "--bogus"] parse_state_init
             "-h" ["--bogus"] ∅ (reaches_here _ _ _) eq_refl).
  reflexivity.
Defined.

(** X8: the input path before another option. *)
Lemma first_input_path_kept_witness :
  let args := ["/data/a.png"; "-v"] in
  (reaches Sample.E parse_state_init args parse_state_init args
   /\ classify "/data/a.png" = Positional
   /\ Str.is_empty (inputPath (config parse_state_init)) = true
   /\ Str.is_empty "/data/a.png" = false)
  /\ inputPath (parseCommandLine Sample.E ("rv" :: args)) = "/data/a.png".
Proof.
  cbv zeta. split; [split; [apply reaches_here | repeat split]|].
  apply (first_input_path_kept Sample.E "rv" ["/data/a.png"; "-v"]
           parse_state_init "/data/a.png" ["-v"]);
    [apply reaches_here | reflexivity ..].
Defined.

(** X10: an image in [/data]. *)
Lemma accepted_output_path_exists_witness :
  let c := parseCommandLine Sample.E ["rv"; "/data/a.png"] in
  accepted c = true /\ fs_exists Sample.E (outputPath c) = true.
Proof.
  cbv zeta. split; [vm_compute; reflexivity|].
  apply (accepted_output_path_exists Sample.E ["rv"; "/data/a.png"]).
  vm_compute; reflexivity.
Defined.

(** X11: the output path of an image in [/data] is [/data]. *)
Lemma output_path_defaults_to_input_witness :
  let argv := ["rv"; "/data/a.png"] in
  let c := parseCommandLine Sample.E argv in
  (Forall (fun a => classify a <> OOutputPath) (tl argv) /\ accepted c = true)
  /\ outputPath c = input_directory Sample.E (inputPath c)
  /\ input_directory Sample.E (inputPath c) = "/data".
Proof.
  cbv zeta.
  assert (H : Forall (fun a => classify a <> OOutputPath) ["/data/a.png"]).
  { repeat constructor. discriminate. }
  split; [split; [exact H | vm_compute; reflexivity]|].
  split; [|vm_compute; reflexivity].
  apply (output_path_defaults_to_input Sample.E ["rv"; "/data/a.png"] H).
  vm_compute; reflexivity.
Defined.

(** X12: and its output file is [/data/features.csv]. *)
Lemma output_file_defaults_to_features_csv_witness :
  let argv := ["rv"; "/data/a.png"] in
  let c := parseCommandLine Sample.E argv in
  (Forall (fun a => classify a <> OOutput) (tl argv)
   /\ is_absolute Sample.E "features.csv" = false
   /\ accepted c = true)
  /\ outputFile c = path_append Sample.E (outputPath c) "features.csv"
  /\ outputFile c = "/data/features.csv".
Proof.
  cbv zeta.
  assert (H : Forall (fun a => classify a <> OOutput) ["/data/a.png"]).
  { repeat constructor. discriminate. }
  split; [split; [exact H | split; vm_compute; reflexivity]|].
  split; [|vm_compute; reflexivity].
  apply (output_file_defaults_to_features_csv Sample.E ["rv"; "/data/a.png"] H);
    vm_compute; reflexivity.
Defined.

(** X13: a file loaded from the directory [/data]. *)
Lemma only_supported_files_loaded_witness :
  In (Load "/data/z.tif") (events (main Sample.E ["rv"; "/data"] ∅))
  /\ fs_is_regular_file Sample.E "/data/z.tif" = true
  /\ isSupportedImageFile Sample.E "/data/z.tif" = true.
Proof.
  assert (H : In (Load "/data/z.tif") (events (main Sample.E ["rv"; "/data"] ∅))).
  { apply in_loads. vm_compute. auto 10. }
  split; [exact H|].
  exact (only_supported_files_loaded Sample.E ["rv"; "/data"] ∅ "/data/z.tif" H).
Defined.

(** X14: the segmented image of [/data/a.png]. *)
Lemma saved_images_go_to_output_path_witness :
  let argv := ["rv"; "--segment"; "/data/a.png"] in
  let c := parseCommandLine Sample.E argv in
  In (Save "/data/a_seg.png") (events (main Sample.E argv ∅))
  /\ exists f,
       In (Load f) (events (main Sample.E argv ∅))
       /\ ((savesegmented c = true
            /\ "/data/a_seg.png"
               = path_append Sample.E (outputPath c)
                   (stem Sample.E f ++ segsuffix c ++ ".png"))
           \/ (saveprocessed c = true
               /\ "/data/a_seg.png"
                  = path_append Sample.E (outputPath c)
                      (stem Sample.E f ++ prosuffix c ++ ".png"))).
Proof.
  cbv zeta.
  assert (H : In (Save "/data/a_seg.png")
                (events (main Sample.E ["rv"; "--segment"; "/data/a.png"] ∅))).
  { apply in_saved. vm_compute. auto. }
  split; [exact H|].
  exact (saved_images_go_to_output_path Sample.E
           ["rv"; "--segment"; "/data/a.png"] ∅ "/data/a_seg.png" H).
Defined.

(** X15: a run without [--segment] and [--feature]. *)
Lemma no_image_saved_unless_asked_witness :
  let argv := ["rv"; "-v"; "/data"] in
  Forall (fun a => classify a <> OSegment /\ classify a <> OFeature) (tl argv)
  /\ forall p, ~ In (Save p) (events (main Sample.E argv ∅)).
Proof.
  cbv zeta.
  assert (H : Forall (fun a => classify a <> OSegment /\ classify a <> OFeature)
                ["-v"; "/data"]).
  { repeat constructor; discriminate. }
  split; [exact H|].
  exact (no_image_saved_unless_asked Sample.E ["rv"; "-v"; "/data"] ∅ H).
Defined.

(** X16: two runs on [/data/features.csv]. *)
Lemma successive_runs_share_output_file_witness :
  let c := feature_config_default <| outputFile := "/data/features.csv" |> in
  let disk : gmap string string := ∅ in
  let disk1 :=
    fst (writeResultsToCsv Sample.E c ["/data/a.png"] [[Double.of_Z 3]] ["Full"] disk) in
  let disk2 :=
    fst (writeResultsToCsv Sample.E c ["/data/z.tif"] [[Double.zero]] ["Full"] disk1) in
  (ofstream_open Sample.E (outputFile c) = true /\ disk !! outputFile c = None)
  /\ disk2 !! outputFile c
     = Some (writeCsvHeader c
               ++ csv_rows Sample.E ["/data/a.png"] [[Double.of_Z 3]] ["Full"]
               ++ (if noappend c then writeCsvHeader c else EmptyString)
               ++ csv_rows Sample.E ["/data/z.tif"] [[Double.zero]] ["Full"]).
Proof.
  cbv zeta. split; [split; vm_compute; reflexivity|].
  apply (successive_runs_share_output_file Sample.E
           (feature_config_default <| outputFile := "/data/features.csv" |>)
           ["/data/a.png"] ["/data/z.tif"] [[Double.of_Z 3]] [[Double.zero]]
           ["Full"] ["Full"] ∅); vm_compute; reflexivity.
Defined.

(** X21: an hour, two minutes and five seconds. *)
Lemma elapsed_time_is_split_witness :
  let elapsedTime := Double.of_Z 3725 in
  (fits_int elapsedTime = true /\ (0 <= Double.to_int elapsedTime)%Z)
  /\ printElapsedTime elapsedTime = "[elapsed: 1h 2m 5s] - "
  /\ exists h m s,
       printElapsedTime elapsedTime
       = "[elapsed: " ++ Str.of_Z h ++ "h " ++ Str.of_Z m ++ "m "
         ++ Str.of_Z s ++ "s] - "
       /\ clock (Double.to_int elapsedTime) h m s.
Proof.
  cbv zeta. split; [split; [reflexivity | vm_compute; discriminate]|].
  split; [vm_compute; reflexivity|].
  apply (elapsed_time_is_split (Double.of_Z 3725));
    [reflexivity | vm_compute; discriminate].
Defined.

(** X22: the fourth of ten images after forty seconds. *)
Lemma remaining_time_is_split_witness :
  let est := estRemaining 3 10 (Double.of_Z 40) in
  (fits_int est = true /\ (0 <= Double.to_int est)%Z)
  /\ printRemainingTime 3 10 (Double.of_Z 40) = "[remaining: 0h 1m 0s] - "
  /\ exists h m s,
       getEstimatedTimeRemaining 3 10 (Double.of_Z 40) = (h, m, s)
       /\ printRemainingTime 3 10 (Double.of_Z 40)
          = "[remaining: " ++ Str.of_Z h ++ "h " ++ Str.of_Z m ++ "m "
            ++ Str.of_Z s ++ "s] - "
       /\ clock (Double.to_int est) h m s.
Proof.
  cbv zeta. split; [split; [reflexivity | vm_compute; discriminate]|].
  split; [vm_compute; reflexivity|].
  apply (remaining_time_is_split 3 10 (Double.of_Z 40));
    [reflexivity | vm_compute; discriminate].
Defined.

(** X23: a hundred images. *)
Lemma first_estimate_is_two_seconds_per_image_witness :
  ((0 <= 0)%Z /\ (0 <= 100 < 2 ^ 30)%Z)
  /\ exists h m s,
       getEstimatedTimeRemaining 0 100 Double.zero = (h, m, s)
       /\ clock (100 * 2) h m s.
Proof.
  split; [lia|].
  apply (first_estimate_is_two_seconds_per_image 0 100 Double.zero); lia.
Defined.

(** X24: [--dranges] in the usage text of [rv]. *)
Lemma usage_lists_the_options_witness :
  Ascii.eqb (Str.head "rv") "-" = false
  /\ (In "--dranges" (listed_options "rv") <-> known_option "--dranges" = true).
Proof.
  split; [reflexivity|].
  apply (usage_lists_the_options "rv" "--dranges"). reflexivity.
Defined.

(** X25: a text file as the input. *)
Lemma unusable_input_ends_run_witness :
  let argv := ["rv"; "/data/notes.txt"] in
  let c := parseCommandLine Sample.E argv in
  let o := main Sample.E argv ∅ in
  (showHelp c = false /\ showVersion c = false
   /\ showLicense c = false /\ showCredits c = false
   /\ fs_is_regular_file Sample.E (inputPath c) = true
   /\ isSupportedImageFile Sample.E (inputPath c) = false)
  /\ exit_code o = 1%Z
  /\ disk_after o = ∅
  /\ loads (events o) = []
  /\ In (Stderr ("Error: " ++ inputPath c
                   ++ if fs_is_regular_file Sample.E (inputPath c)
                      then " is not a supported image file."
                      else " is not a valid file or directory."))
       (events o)
  /\ In (Stderr ("No supported image files found in " ++ inputPath c))
       (events o).
Proof.
  cbv zeta. split; [repeat split; vm_compute; reflexivity|].
  apply (unusable_input_ends_run Sample.E ["rv"; "/data/notes.txt"] ∅);
    try (vm_compute; reflexivity).
  left. split; vm_compute; reflexivity.
Defined.

(** X26: the input path after a list. *)
Lemma dranges_list_ends_at_other_argument_witness :
  let args := ["--dranges"; "1,2"; "/data/a.png"] in
  (reaches Sample.E parse_state_init args parse_state_init
     ("--dranges" :: ["1,2"] ++ "/data/a.png" :: [])
   /\ forallb (positive_token Sample.E) ["1,2"] = true
   /\ ends_list "/data/a.png" = true)
  /\ reaches Sample.E parse_state_init args
       (parse_state_init <|| dranges := [] ||>) ["/data/a.png"].
Proof.
  cbv zeta.
  split; [split; [apply reaches_here | split; vm_compute; reflexivity]|].
  apply (dranges_list_ends_at_other_argument Sample.E
           ["--dranges"; "1,2"; "/data/a.png"] parse_state_init
           ["1,2"] "/data/a.png" []);
    [apply reaches_here | vm_compute; reflexivity | vm_compute; reflexivity].
Defined.

(** X28: both factors given, the one in dots per inch first. *)
Lemma factorpixels_takes_precedence_witness :
  let args := ["--convert"; "--factordpi"; "300"; "--factorpixels"; "12";
               "/data/a.png"] in
  let s := parse_state_init <|| pixelconv := true ||>
             <| dpiFactor := atof Sample.E "300" |> <| dpi := true |> in
  let c := parseCommandLine Sample.E ("rv" :: args) in
  (reaches Sample.E parse_state_init args s
     ["--factorpixels"; "12"; "/data/a.png"]
   /\ classify "--factorpixels" = OFactorPixels
   /\ Forall (fun x => classify x <> OFactorPixels) ["/data/a.png"]
   /\ accepted c = true
   /\ pixelconv c = true)
  /\ conversion c = atof Sample.E "12" /\ pixelspermm c = 1%Z.
Proof.
  cbv zeta.
  assert (H : reaches Sample.E parse_state_init
                ["--convert"; "--factordpi"; "300"; "--factorpixels"; "12";
                 "/data/a.png"]
                (parse_state_init <|| pixelconv := true ||>
                   <| dpiFactor := atof Sample.E "300" |> <| dpi := true |>)
                ["--factorpixels"; "12"; "/data/a.png"]).
  { eapply reaches_step; [reflexivity|].
    eapply reaches_step; [reflexivity | apply reaches_here]. }
  assert (F : Forall (fun x => classify x <> OFactorPixels) ["/data/a.png"]).
  { repeat constructor. vm_compute. discriminate. }
  split; [repeat split; [exact H | exact F | vm_compute; reflexivity ..]|].
  apply (factorpixels_takes_precedence Sample.E "rv"
           ["--convert"; "--factordpi"; "300"; "--factorpixels"; "12";
            "/data/a.png"]
           (parse_state_init <|| pixelconv := true ||>
              <| dpiFactor := atof Sample.E "300" |> <| dpi := true |>)
           "--factorpixels" "12" ["/data/a.png"]);
    [exact H | reflexivity | exact F | vm_compute; reflexivity ..].
Defined.

(** X29: a factor in dots per inch alone. *)
Lemma factordpi_used_without_factorpixels_witness :
  let args := ["--convert"; "--factordpi"; "300"; "/data/a.png"] in
  let s := parse_state_init <|| pixelconv := true ||> in
  let c := parseCommandLine Sample.E ("rv" :: args) in
  (reaches Sample.E parse_state_init args s
     ["--factordpi"; "300"; "/data/a.png"]
   /\ classify "--factordpi" = OFactorDpi
   /\ Forall (fun x => classify x <> OFactorPixels) args
   /\ Forall (fun x => classify x <> OFactorDpi) ["/data/a.png"]
   /\ accepted c = true
   /\ pixelconv c = true)
  /\ conversion c = atof Sample.E "300" /\ pixelspermm c = 0%Z.
Proof.
  cbv zeta.
  assert (H : reaches Sample.E parse_state_init
                ["--convert"; "--factordpi"; "300"; "/data/a.png"]
                (parse_state_init <|| pixelconv := true ||>)
                ["--factordpi"; "300"; "/data/a.png"]).
  { eapply reaches_step; [reflexivity | apply reaches_here]. }
  assert (F : Forall (fun x => classify x <> OFactorPixels)
                ["--convert"; "--factordpi"; "300"; "/data/a.png"]).
  { repeat constructor; vm_compute; discriminate. }
  assert (G : Forall (fun x => classify x <> OFactorDpi) ["/data/a.png"]).
  { repeat constructor. vm_compute. discriminate. }
  split; [repeat split; [exact H | exact F | exact G
                         | vm_compute; reflexivity ..]|].
  apply (factordpi_used_without_factorpixels Sample.E "rv"
           ["--convert"; "--factordpi"; "300"; "/data/a.png"]
           (parse_state_init <|| pixelconv := true ||>)
           "--factordpi" "300" ["/data/a.png"]);
    [exact H | reflexivity | exact F | exact G | vm_compute; reflexivity ..].
Defined.
